(** * pisa/oscillations/OscillationServiceBase.py

    A shallow embedding of the oscillation service base class and of
    [check_oversampling], with the properties of its specification.

    - numpy floats are rationals kept in lowest terms; the sample data of
      the specification is dyadic, where float64 arithmetic is exact.
    - numpy arrays are objects in a store ([heap]), named by their index:
      the code aliases them ([smoothed_maps['ebins'] = self.ebins],
      [return coarse_bins]) and sorts one in place.
    - logging is an append-only list of records in the same [world].
    - a Python exception ends the computation with [Raise], keeping the
      world reached so far. *)

From Stdlib Require Import ZArith QArith Qabs Qround String Ascii List Lia.
From Stdlib Require Import DecimalString.
From stdpp Require Import base list strings.
Import ListNotations.

Local Open Scope string_scope.
Local Open Scope Z_scope.
Local Open Scope list_scope.

(** ** Floating-point numbers *)

Definition fadd (x y : Q) : Q := Qred (x + y).
Definition fsub (x y : Q) : Q := Qred (x - y).
Definition fmul (x y : Q) : Q := Qred (x * y).
Definition fdiv (x y : Q) : Q := Qred (x / y).
Definition of_int (z : Z) : Q := inject_Z z.

(** [np.log10] and [10 ** x] have no exact value on the rationals: the
    embedding takes them from the environment. *)
Class Libm := {
  log10 : Q -> Q;
  pow10 : Q -> Q
}.

(** ** Exceptions, log records, arrays and the store *)

Inductive exn :=
| IndexError (msg : string)
| ValueError (msg : string)
| NotImplementedError (msg : string)
| AttributeError (msg : string)
| KeyError (msg : string)
| TypeError (msg : string)
| SystemError (msg : string).

Inductive level := DEBUG | INFO | WARNING.

(** A numpy array: its shape tuple and its data in row-major order. *)
Record ndarray := NDArray { shape : list nat; data : list Q }.

Definition vec (xs : list Q) : ndarray :=
  {| shape := [length xs]; data := xs |}.

(** A reference to an array: its index in the store. *)
Abbreviation loc := nat (only parsing).

Record world := World {
  heap : list ndarray;
  logs : list (level * string)
}.

Inductive result (A : Type) :=
| Ok (a : A)
| Raise (e : exn).
Arguments Ok {A} a.
Arguments Raise {A} e.

Definition M (A : Type) : Type := world -> result A * world.

Definition ret {A} (a : A) : M A := fun w => (Ok a, w).

Definition bind {A B} (m : M A) (k : A -> M B) : M B :=
  fun w => match m w with
           | (Ok a, w') => k a w'
           | (Raise e, w') => (Raise e, w')
           end.

Definition raise {A} (e : exn) : M A := fun w => (Raise e, w).

Declare Scope py_scope.
Delimit Scope py_scope with py.
Notation "'let*' x ':=' m 'in' k" := (bind m (fun x => k))
  (at level 10, x pattern, m at level 100, k at level 200) : py_scope.
Notation "m ';;;' k" := (bind m (fun _ => k))
  (at level 100, k at level 200, right associativity) : py_scope.
Local Open Scope py_scope.

(** [logging.<level>(msg)] *)
Definition logging (lv : level) (msg : string) : M unit :=
  fun w => (Ok tt, {| heap := heap w; logs := logs w ++ [(lv, msg)] |}).

(** A new array object. *)
Definition alloc (a : ndarray) : M loc :=
  fun w => (Ok (length (heap w)),
            {| heap := heap w ++ [a]; logs := logs w |}).

(** Reading an array through its reference. *)
Definition load (l : loc) : M ndarray :=
  fun w => match heap w !! l with
           | Some a => (Ok a, w)
           | None => (Raise (SystemError "dangling reference"), w)
           end.

(** Overwriting an array in place. *)
Definition store (l : loc) (a : ndarray) : M unit :=
  fun w => match heap w !! l with
           | Some _ => (Ok tt, {| heap := <[l := a]> (heap w); logs := logs w |})
           | None => (Raise (SystemError "dangling reference"), w)
           end.

(** ** The numpy functions the module calls *)

Definition string_of_Z (z : Z) : string :=
  NilZero.string_of_int (Z.to_int z).

Definition set_last (xs : list Q) (x : Q) : list Q :=
  match xs with
  | [] => []
  | _ => removelast xs ++ [x]
  end.

(** [np.linspace(start, stop, num)] with [endpoint=True]. *)
Definition np_linspace (start stop : Q) (num : Z) : result (list Q) :=
  if num <? 0 then
    Raise (ValueError ("Number of samples, " +:+ string_of_Z num
                       +:+ ", must be non-negative."))
  else
    let div := num - 1 in
    let delta := fsub stop start in
    let y := map (fun i : nat =>
                    if 0 <? div
                    then fadd (fmul (of_int (Z.of_nat i)) (fdiv delta (of_int div))) start
                    else fadd (fmul (of_int (Z.of_nat i)) delta) start)
                 (seq 0 (Z.to_nat num)) in
    Ok (if 1 <? num then set_last y stop else y).

(** [np.logspace(start, stop, num)]: ten to the power of the linear samples. *)
Definition np_logspace `{Libm} (start stop : Q) (num : Z) : result (list Q) :=
  match np_linspace start stop num with
  | Ok y => Ok (map pow10 y)
  | Raise e => Raise e
  end.

(** [np.append(a, b)] on one-dimensional arrays. *)
Definition np_append (a b : list Q) : list Q := a ++ b.

(** [a.sort()], ascending. *)
Fixpoint insert_sorted (x : Q) (xs : list Q) : list Q :=
  match xs with
  | [] => [x]
  | y :: ys => if Qle_bool x y then x :: y :: ys else y :: insert_sorted x ys
  end.

Definition sorted (xs : list Q) : list Q := fold_right insert_sorted [] xs.

(** [a[0]] and [a[-1]] of a one-dimensional array. *)
Definition first_item (xs : list Q) : result Q :=
  match xs with
  | [] => Raise (IndexError "index 0 is out of bounds for axis 0 with size 0")
  | x :: _ => Ok x
  end.

Definition last_item (xs : list Q) : result Q :=
  match xs with
  | [] => Raise (IndexError "index -1 is out of bounds for axis 0 with size 0")
  | _ => Ok (List.last xs 0%Q)
  end.

Definition lift {A} (r : result A) : M A := fun w => (r, w).

(** [np.zeros(shape)] *)
Definition np_zeros (shp : list nat) : ndarray :=
  {| shape := shp; data := repeat 0%Q (fold_right Nat.mul 1%nat shp) |}.

(** [np.array(obj)] on a nested sequence of numbers: a fresh array with
    the shape and the flattened items of [obj].  The shape is numpy's for
    rectangular input, see [rectangular]. *)
#[warnings="-register-all"]
Inductive array_like :=
| Num (x : Q)
| Seq (items : list array_like).

Fixpoint np_shape (a : array_like) : list nat :=
  match a with
  | Num _ => []
  | Seq items =>
      length items :: match items with
                      | [] => []
                      | x :: _ => np_shape x
                      end
  end.

Fixpoint np_ravel (a : array_like) : list Q :=
  match a with
  | Num x => [x]
  | Seq items => concat (map np_ravel items)
  end.

Definition np_array (a : array_like) : ndarray :=
  {| shape := np_shape a; data := np_ravel a |}.

Definition shape_eqb (s t : list nat) : bool :=
  bool_decide (s = t).

Fixpoint rectangular (a : array_like) : bool :=
  match a with
  | Num _ => true
  | Seq items =>
      forallb rectangular items
      && match items with
         | [] => true
         | x :: _ => forallb (fun y => shape_eqb (np_shape y) (np_shape x)) items
         end
  end.

(** [str(t)] of a tuple of integers: [()], [(3,)], [(2, 3)]. *)
Definition string_of_nat (n : nat) : string := string_of_Z (Z.of_nat n).

Fixpoint join_comma (xs : list string) : string :=
  match xs with
  | [] => ""
  | [x] => x
  | x :: rest => x +:+ ", " +:+ join_comma rest
  end.

Definition str_shape (s : list nat) : string :=
  match s with
  | [n] => "(" +:+ string_of_nat n +:+ ",)"
  | _ => "(" +:+ join_comma (map string_of_nat s) +:+ ")"
  end.

(** ** Python control flow and dictionaries *)

(** [needle in hay] on strings. *)
Fixpoint contains (needle hay : string) : bool :=
  String.prefix needle hay
  || match hay with
     | EmptyString => false
     | String _ rest => contains needle rest
     end.

(** [for x in xs: s = body(x, s)] *)
Fixpoint for_each {A S : Type} (xs : list A) (body : A -> S -> M S) (s : S) : M S :=
  match xs with
  | [] => ret s
  | x :: rest => let* s' := body x s in for_each rest body s'
  end.

(** [for i in range(n): s = body(s)] *)
Fixpoint for_range {S : Type} (n : nat) (body : S -> M S) (s : S) : M S :=
  match n with
  | O => ret s
  | Datatypes.S n' => let* s' := body s in for_range n' body s'
  end.

(** A dict with string keys, in insertion order. *)
Definition dict (V : Type) : Type := list (string * V).

Fixpoint dict_get {V} (k : string) (d : dict V) : option V :=
  match d with
  | [] => None
  | (k', v) :: rest => if String.eqb k k' then Some v else dict_get k rest
  end.

Fixpoint dict_set {V} (k : string) (v : V) (d : dict V) : dict V :=
  match d with
  | [] => [(k, v)]
  | (k', v') :: rest =>
      if String.eqb k k' then (k, v) :: rest else (k', v') :: dict_set k v rest
  end.

Definition keys {V} (d : dict V) : list string := map fst d.

(** ** pisa.utils.utils

    The module imports seven helpers from [pisa.utils.utils].  They enter
    the embedding as an interface.  The five helpers on bin edges are
    pure functions of the array values they are given.  The two
    resampling strategies are called on array objects and hand back an
    array object: what they do to the store is theirs, and
    [__smoothing_func] passes on what they return.
    [integer_rebin_value] and [smoothed_value] are the array values the
    contract of the strategies speaks of, see [strategies_compute]. *)

(** Per axis: the integer rebinning factor and the offset of the first
    fine bin. *)
Definition rebin_info : Type := list (nat * nat).

Class Utils := {
  get_bin_centers : list Q -> list Q;
  is_linear : list Q -> bool;
  is_logarithmic : list Q -> bool;
  is_coarser_binning : list Q -> list Q -> bool;
  subbinning : list (list Q) -> list (list Q) -> option rebin_info;
  integer_rebin_map : loc -> rebin_info -> M loc;
  get_smoothed_map : loc -> loc -> loc -> loc -> loc -> M loc;
  integer_rebin_value : ndarray -> rebin_info -> ndarray;
  smoothed_value : ndarray -> list Q -> list Q -> list Q -> list Q -> ndarray
}.

(** ** check_oversampling *)

Definition check_oversampling `{Libm} `{Utils}
    (fine_bins : option loc) (coarse_bins : loc) (oversample : Z) : M loc :=
  match fine_bins with
  | Some fine =>
      let* c := load coarse_bins in
      let* f := load fine in
      if is_coarser_binning (data c) (data f) then
        logging INFO "Using requested binning for oversampling." ;;;
        ret fine
      else
        logging WARNING ("Requested oversampled binning is coarser "
                         +:+ "than output binning. Will use output binning.") ;;;
        ret coarse_bins
  | None =>
      let* c := load coarse_bins in
      if is_linear (data c) then
        logging INFO ("Oversampling linear output binning by factor "
                      +:+ string_of_Z oversample +:+ ".") ;;;
        let* a := lift (first_item (data c)) in
        let* b := lift (last_item (data c)) in
        let* y := lift (np_linspace a b
                          (oversample * Z.of_nat (length (data c)) - 1)) in
        alloc (vec y)
      else if is_logarithmic (data c) then
        logging INFO ("Oversampling logarithmic output binning by factor "
                      +:+ string_of_Z oversample +:+ ".") ;;;
        let* a := lift (first_item (data c)) in
        let* b := lift (last_item (data c)) in
        let* y := lift (np_logspace (log10 a) (log10 b)
                          (oversample * Z.of_nat (length (data c)) - 1)) in
        alloc (vec y)
      else
        logging WARNING ("Irregular binning detected! Evenly oversampling "
                         +:+ "by factor " +:+ string_of_Z oversample) ;;;
        for_range (Z.to_nat (oversample - 1))
          (fun fine_bins =>
             let* f := load fine_bins in
             let* appended :=
               alloc (vec (np_append (data f) (get_bin_centers (data f)))) in
             let* a := load appended in
             store appended (vec (sorted (data a))) ;;;
             ret appended)
          coarse_bins
  end.

(** ** class OscillationServiceBase *)

(** The oscillation probability table: [ebins] and [czbins] hold an edge
    array, a family key holds a dict of two-dimensional arrays. *)
Inductive entry :=
| Edges (a : loc)
| Maps (tomaps : dict loc).

Definition table : Type := dict entry.

(** The six oscillation parameters of [fill_osc_prob], default [None]. *)
Record osc_params := {
  theta12 : option Q;
  theta13 : option Q;
  theta23 : option Q;
  deltam21 : option Q;
  deltam31 : option Q;
  deltacp : option Q
}.

(** [self]: its attributes and [self.__class__.__name__]. *)
Record service := {
  cls_name : string;
  ebins : loc;
  czbins : loc
}.

(** [fill_osc_prob(self, osc_prob_dict, ecen, czcen, **params)].  The dict
    is passed by reference and has no other name during the call: the
    method hands back the dict as it has left it. *)
Definition hook : Type :=
  service -> table -> list Q -> list Q -> osc_params -> M table.

(** A class derived from the base class: its name and, when it overrides
    it, its own [fill_osc_prob]. *)
Record subclass := {
  name : string;
  fill_override : option hook
}.

(** The keyword arguments of [get_osc_prob_maps]; [oversample] is 2 when
    it is not given. *)
Record kwargs := {
  fine_ebins : option loc;
  fine_czbins : option loc;
  oversample : option Z;
  params : osc_params
}.

Definition default_oversample : Z := 2.

Module OscillationServiceBase.
Section methods.
Context `{Libm} `{Utils}.

Definition __init__ (C : subclass) (ebins0 czbins0 : array_like) : M service :=
  logging DEBUG ("Instantiating " +:+ name C) ;;;
  let* e := alloc (np_array ebins0) in
  let* cz := alloc (np_array czbins0) in
  for_each [e; cz]
    (fun ax _ =>
       let* a := load ax in
       if negb (length (shape a) =? 1)%nat
       then raise (IndexError ("Axes must be 1d! " +:+ str_shape (shape a)))
       else ret tt)
    tt ;;;
  ret {| cls_name := name C; ebins := e; czbins := cz |}.

Definition fill_osc_prob : hook :=
  fun self osc_prob_dict ecen czcen _ =>
    raise (NotImplementedError
             ("Method not implemented for " +:+ cls_name self)).

(** Method resolution of [self.fill_osc_prob]. *)
Definition resolve_fill_osc_prob (C : subclass) : hook :=
  match fill_override C with
  | Some h => h
  | None => fill_osc_prob
  end.

Definition get_osc_probLT_dict (C : subclass) (self : service)
    (fine_ebins fine_czbins : option loc) (oversample : Z)
    (kw : osc_params) : M table :=
  let* ebins := check_oversampling fine_ebins (ebins self) oversample in
  let* czbins := check_oversampling fine_czbins (czbins self) oversample in
  let* e := load ebins in
  let* cz := load czbins in
  let ecen := get_bin_centers (data e) in
  let czcen := get_bin_centers (data cz) in
  let osc_prob_dict : table := [("ebins", Edges ebins); ("czbins", Edges czbins)] in
  let shape := [length ecen; length czcen] in
  let* osc_prob_dict :=
    for_each ["nue_maps"; "numu_maps"; "nue_bar_maps"; "numu_bar_maps"]
      (fun nu (d : table) =>
         if contains "bar" nu then
           let* m1 := alloc (np_zeros shape) in
           let* m2 := alloc (np_zeros shape) in
           let* m3 := alloc (np_zeros shape) in
           ret (dict_set nu (Maps [("nue_bar", m1); ("numu_bar", m2);
                                   ("nutau_bar", m3)]) d)
         else
           let* m1 := alloc (np_zeros shape) in
           let* m2 := alloc (np_zeros shape) in
           let* m3 := alloc (np_zeros shape) in
           ret (dict_set nu (Maps [("nue", m1); ("numu", m2);
                                   ("nutau", m3)]) d))
      osc_prob_dict in
  resolve_fill_osc_prob C self osc_prob_dict ecen czcen kw.

(** [fine_maps[key]] where an edge array is expected. *)
Definition edges_of (fine_maps : table) (key : string) : M (list Q) :=
  match dict_get key fine_maps with
  | None => raise (KeyError key)
  | Some (Edges a) => let* x := load a in ret (data x)
  | Some (Maps _) => raise (TypeError "edge array expected")
  end.

(** [fine_maps[key]] as the object it is, where an edge array is
    expected. *)
Definition edge_array (fine_maps : table) (key : string) : M loc :=
  match dict_get key fine_maps with
  | None => raise (KeyError key)
  | Some (Edges a) => ret a
  | Some (Maps _) => raise (TypeError "edge array expected")
  end.

(** The local function [__smoothing_func] of [get_osc_prob_maps], with
    the variables it closes over. *)
Definition __smoothing_func (self : service) (fine_maps : table)
    (rebin : option rebin_info) (osc_map : loc) : M loc :=
  match rebin with
  | Some (ax :: axes) => integer_rebin_map osc_map (ax :: axes)
  | _ =>
      let* fe := edge_array fine_maps "ebins" in
      let* fcz := edge_array fine_maps "czbins" in
      get_smoothed_map osc_map fe fcz (ebins self) (czbins self)
  end.

(** The elapsed time in the last log record is not modelled. *)
Definition get_osc_prob_maps (C : subclass) (self : service) (kw : kwargs)
    : M table :=
  logging INFO "Retrieving finely binned maps" ;;;
  let* fine_maps :=
    get_osc_probLT_dict C self (fine_ebins kw) (fine_czbins kw)
      (default default_oversample (oversample kw)) (params kw) in
  logging INFO "Smoothing fine maps..." ;;;
  let smoothed_maps : table := [] in
  let smoothed_maps := dict_set "ebins" (Edges (ebins self)) smoothed_maps in
  let smoothed_maps := dict_set "czbins" (Edges (czbins self)) smoothed_maps in
  let* e := load (ebins self) in
  let* cz := load (czbins self) in
  let* fe := edges_of fine_maps "ebins" in
  let* fcz := edges_of fine_maps "czbins" in
  let rebin := subbinning [data e; data cz] [fe; fcz] in
  (match rebin with
   | Some (_ :: _) =>
       logging DEBUG ("Coarse map is true submap of fine map, "
                      +:+ "using numpy array magic for smoothing.")
   | _ => ret tt
   end) ;;;
  let* smoothed_maps :=
    for_each fine_maps
      (fun '(from_nu, tomap_dict) (smoothed : table) =>
         if contains "bins" from_nu then ret smoothed
         else
           match tomap_dict with
           | Edges _ =>
               raise (AttributeError
                        "'numpy.ndarray' object has no attribute 'items'")
           | Maps tomaps =>
               let* new_tomaps :=
                 for_each tomaps
                   (fun '(to_nu, tomap) (new_tomaps : dict loc) =>
                      logging DEBUG ("Getting smoothed map " +:+ from_nu
                                     +:+ "/" +:+ to_nu) ;;;
                      let* r := __smoothing_func self fine_maps rebin tomap in
                      ret (dict_set to_nu r new_tomaps))
                   [] in
               ret (dict_set from_nu (Maps new_tomaps) smoothed)
           end)
      smoothed_maps in
  logging DEBUG "Finshed smoothing maps. This took: " ;;;
  ret smoothed_maps.

End methods.
End OscillationServiceBase.

(** ** A decimal libm

    Rational approximations of [log10] and [pow10], rounded to twelve
    decimals and exact on the integer powers of ten: the series of the
    logarithm and of the exponential, after reduction of the argument to
    one decade. *)
Module DecimalLibm.

Definition round12 (x : Q) : Q :=
  Qred (Qfloor (x * inject_Z (10 ^ 12) + (1 # 2))%Q # Pos.pow 10 12).

Definition sum_to (n : nat) (term : nat -> Q) : Q :=
  fold_right (fun k acc => Qred (term k + acc)%Q) 0%Q (seq 0 n).

(** [ln x = 2 atanh ((x - 1) / (x + 1))] *)
Definition ln_series (x : Q) : Q :=
  let z := Qred ((x - 1) / (x + 1))%Q in
  Qred (2 * sum_to 40 (fun k =>
          Qpower z (Z.of_nat (2 * k + 1))
          / inject_Z (Z.of_nat (2 * k + 1))))%Q.

(** Divide or multiply by ten until the argument is in [1, 10). *)
Fixpoint decade (fuel : nat) (x : Q) (e : Z) : Q * Z :=
  match fuel with
  | O => (x, e)
  | Datatypes.S fuel' =>
      if Qle_bool 10 x then decade fuel' (Qred (x / 10)%Q) (e + 1)
      else if Qle_bool 1 x then (x, e)
      else decade fuel' (Qred (x * 10)%Q) (e - 1)
  end.

Definition log10 (x : Q) : Q :=
  if Qle_bool x 0 then 0%Q
  else
    let '(m, e) := decade 400 x 0 in
    round12 (inject_Z e + ln_series m / ln_series 10)%Q.

Definition factorial_Z (k : nat) : Z :=
  fold_right (fun i acc => Z.of_nat (Datatypes.S i) * acc) 1 (seq 0 k).

Definition exp_series (x : Q) : Q :=
  sum_to 40 (fun k => Qpower x (Z.of_nat k) / inject_Z (factorial_Z k))%Q.

Definition pow10 (y : Q) : Q :=
  let n := Qfloor y in
  let f := Qred (y - inject_Z n)%Q in
  round12 (Qpower 10 n * exp_series (round12 (f * ln_series 10)))%Q.

End DecimalLibm.

Definition decimal_libm : Libm :=
  {| log10 := DecimalLibm.log10; pow10 := DecimalLibm.pow10 |}.

(** ** pisa.utils.utils, from the specification *)

Module SpecUtils.
Section tolerance.
Context `{Libm}.

(** The numeric tolerance of the two classifications. *)
Variable tol : Q.

Definition pairwise {A} (f : Q -> Q -> A) (edges : list Q) : list A :=
  zip_with f edges (tail edges).

Definition near (x y : Q) : bool := Qle_bool (Qabs (x - y)) tol.

Definition all_near (xs : list Q) : bool :=
  match xs with
  | [] => true
  | x :: _ => forallb (near x) xs
  end.

(** Modelled from the spec: [is_linear] of pisa.utils.utils is not among
    the sources.  Consecutive differences are equal within the
    tolerance. *)
Definition is_linear (edges : list Q) : bool :=
  all_near (pairwise (fun lo hi => fsub hi lo) edges).

(** Modelled from the spec: [is_logarithmic] of pisa.utils.utils is not
    among the sources.  Consecutive ratios are equal within the
    tolerance. *)
Definition is_logarithmic (edges : list Q) : bool :=
  all_near (pairwise (fun lo hi => fdiv hi lo) edges).

(** Modelled from the spec: [get_bin_centers] of pisa.utils.utils is not
    among the sources.  One center per bin: the geometric mean of its
    two edges on a logarithmic axis, their arithmetic mean otherwise. *)
Definition get_bin_centers (edges : list Q) : list Q :=
  if negb (is_linear edges) && is_logarithmic edges then
    pairwise (fun lo hi => pow10 (fdiv (fadd (log10 lo) (log10 hi)) 2)) edges
  else
    pairwise (fun lo hi => fdiv (fadd lo hi) 2) edges.

(** Modelled from the spec: [is_coarser_binning] of pisa.utils.utils is
    not among the sources.  The number of fine bins is [k] times the
    number of coarse bins for an integer [k >= 1], and coarse edge [i]
    is exactly fine edge [k * i]. *)
Definition rebin_factor (coarse fine : list Q) : option nat :=
  let nc := (length coarse - 1)%nat in
  let nf := (length fine - 1)%nat in
  if (length coarse <? 2)%nat || (length fine <? 2)%nat then None
  else if (nf mod nc =? 0)%nat then Some (nf / nc)%nat else None.

Definition is_coarser_binning (coarse fine : list Q) : bool :=
  match rebin_factor coarse fine with
  | None => false
  | Some k =>
      forallb (fun i =>
                 match coarse !! i, fine !! (k * i)%nat with
                 | Some c, Some f => Qeq_bool c f
                 | _, _ => false
                 end)
              (seq 0 (length coarse))
  end.

(** Modelled from the spec: [subbinning] of pisa.utils.utils is not among
    the sources.  When [is_coarser_binning] holds on every axis, the
    factor and the offset of each axis; nothing otherwise. *)
Fixpoint subbinning (coarse_grid fine_grid : list (list Q)) : option rebin_info :=
  match coarse_grid, fine_grid with
  | [], [] => Some []
  | c :: cs, f :: fs =>
      if is_coarser_binning c f then
        match rebin_factor c f, subbinning cs fs with
        | Some k, Some rest => Some ((k, 0%nat) :: rest)
        | _, _ => None
        end
      else None
  | _, _ => None
  end.

(** Cell [(i, j)] of a two-dimensional array with [ncols] columns. *)
Definition cell (ncols : nat) (m : list Q) (i j : nat) : Q :=
  nth (i * ncols + j) m 0%Q.

Definition sum_list (xs : list Q) : Q := fold_right Qplus 0%Q xs.

(** Modelled from the spec: [integer_rebin_map] of pisa.utils.utils is
    not among the sources.  Each coarse cell is the mean of its block
    of fine cells, found by index arithmetic; the mean is the
    normalisation under which the round trip of the specification is
    exact.  An array or a rebinning that is not two-dimensional is
    handed back as it is. *)
Definition integer_rebin_value (m : ndarray) (info : rebin_info) : ndarray :=
  match shape m, info with
  | [nrows; ncols], [(ke, oe); (kcz, ocz)] =>
      let out_rows := ((nrows - oe) / ke)%nat in
      let out_cols := ((ncols - ocz) / kcz)%nat in
      let block i j :=
        flat_map (fun a =>
                    map (fun b => cell ncols (data m)
                                    (oe + i * ke + a) (ocz + j * kcz + b))
                        (seq 0 kcz))
                 (seq 0 ke) in
      {| shape := [out_rows; out_cols];
         data := flat_map (fun i =>
                             map (fun j =>
                                    Qred (sum_list (block i j)
                                          / inject_Z (Z.of_nat (ke * kcz)))%Q)
                                 (seq 0 out_cols))
                          (seq 0 out_rows) |}
  | _, _ => m
  end.

(** Index of the entry of [centers] nearest to [x]. *)
Definition nearest (centers : list Q) (x : Q) : nat :=
  fst (fold_left
         (fun '(best, i) c =>
            match centers !! best with
            | Some b =>
                if Qle_bool (Qabs (b - x)) (Qabs (c - x))
                then (best, Datatypes.S i) else (i, Datatypes.S i)
            | None => (i, Datatypes.S i)
            end)
         centers (0%nat, 0%nat)).

(** Modelled from the spec: [get_smoothed_map] of pisa.utils.utils is not
    among the sources.  The fine map is evaluated at the coarse bin
    centers: each coarse cell takes the value of the fine cell whose
    center is nearest. *)
Definition smoothed_value (m : ndarray)
    (fine_e fine_cz coarse_e coarse_cz : list Q) : ndarray :=
  let fe := get_bin_centers fine_e in
  let fcz := get_bin_centers fine_cz in
  let ce := get_bin_centers coarse_e in
  let ccz := get_bin_centers coarse_cz in
  {| shape := [length ce; length ccz];
     data := flat_map (fun x =>
                         map (fun y => cell (length fcz) (data m)
                                         (nearest fe x) (nearest fcz y))
                             ccz)
                      ce |}.

(** Modelled from the spec: the two strategies as they are called, on
    array objects.  Each takes a single 2-D probability array plus the
    axis-edge metadata and returns a new 2-D array on the target grid;
    neither mutates its input array. *)
Definition integer_rebin_map (osc_map : loc) (info : rebin_info) : M loc :=
  let* m := load osc_map in
  alloc (integer_rebin_value m info).

Definition get_smoothed_map (osc_map fine_e fine_cz coarse_e coarse_cz : loc)
    : M loc :=
  let* m := load osc_map in
  let* fe := load fine_e in
  let* fcz := load fine_cz in
  let* e := load coarse_e in
  let* cz := load coarse_cz in
  alloc (smoothed_value m (data fe) (data fcz) (data e) (data cz)).

Definition spec_utils : Utils :=
  Build_Utils get_bin_centers is_linear is_logarithmic is_coarser_binning
    subbinning integer_rebin_map get_smoothed_map
    integer_rebin_value smoothed_value.
End tolerance.
End SpecUtils.

(** ** Reading the store

    The value of a table: every reference replaced by the array it names. *)

Inductive entry_val :=
| EdgesV (a : ndarray)
| MapsV (tomaps : dict ndarray).

Definition table_val : Type := dict entry_val.

Fixpoint deref_maps (h : list ndarray) (m : dict loc) : option (dict ndarray) :=
  match m with
  | [] => Some []
  | (k, l) :: rest =>
      match h !! l, deref_maps h rest with
      | Some a, Some rest' => Some ((k, a) :: rest')
      | _, _ => None
      end
  end.

Definition deref_entry (h : list ndarray) (e : entry) : option entry_val :=
  match e with
  | Edges a => EdgesV <$> h !! a
  | Maps m => MapsV <$> deref_maps h m
  end.

Fixpoint deref (h : list ndarray) (t : table) : option table_val :=
  match t with
  | [] => Some []
  | (k, e) :: rest =>
      match deref_entry h e, deref h rest with
      | Some v, Some rest' => Some ((k, v) :: rest')
      | _, _ => None
      end
  end.

(** The references held by a table, and those of its probability arrays. *)
Definition entry_locs (e : entry) : list loc :=
  match e with
  | Edges a => [a]
  | Maps m => map snd m
  end.

Definition prob_entry_locs (e : entry) : list loc :=
  match e with
  | Edges _ => []
  | Maps m => map snd m
  end.

Definition table_locs (t : table) : list loc := flat_map (fun kv => entry_locs (snd kv)) t.
Definition prob_locs (t : table) : list loc := flat_map (fun kv => prob_entry_locs (snd kv)) t.

Definition valid_in (w : world) (ls : list loc) : Prop :=
  Forall (fun l => (l < length (heap w))%nat) ls.

(** Two tables with the same keys at both levels. *)
Definition same_entry_keys (e e' : entry) : Prop :=
  match e, e' with
  | Edges _, Edges _ => True
  | Maps m, Maps m' => keys m = keys m'
  | _, _ => False
  end.

Definition same_keys (t t' : table) : Prop :=
  Forall2 (fun kv kv' => fst kv = fst kv' /\ same_entry_keys (snd kv) (snd kv')) t t'.

(** ** Contracts of a [fill_osc_prob] override *)

(** The hook writes into the probability arrays of its table only. *)
Definition fills_in_place (h : hook) : Prop :=
  forall self t ecen czcen kw w r w',
    h self t ecen czcen kw w = (r, w') ->
    forall l a, l ∉ prob_locs t -> heap w !! l = Some a -> heap w' !! l = Some a.

(** The references of the edge arrays of a table. *)
Definition edge_entry_locs (e : entry) : list loc :=
  match e with
  | Edges a => [a]
  | Maps _ => []
  end.

Definition edge_locs (t : table) : list loc :=
  flat_map (fun kv => edge_entry_locs (snd kv)) t.

(** The probability arrays of the table are distinct objects, and none of
    them is one of its edge arrays. *)
Definition separate (t : table) : Prop :=
  NoDup (prob_locs t) /\ Forall (fun l => l ∉ prob_locs t) (edge_locs t).

(** The hook computes [phi]: the value of the table it hands back is a
    function of the values of its arguments. *)
Definition computes
    (phi : service -> table_val -> list Q -> list Q -> osc_params -> table_val)
    (h : hook) : Prop :=
  forall self t ecen czcen kw w tv t' w',
    separate t ->
    deref (heap w) t = Some tv ->
    h self t ecen czcen kw w = (Ok t', w') ->
    deref (heap w') t' = Some (phi self tv ecen czcen kw).

(** ** Contract of the resampling strategies

    The specification gives the two strategies a contract: each returns
    a new array and mutates none of the arrays it is given, and what it
    returns is a function of the values it is given. *)

(** A computation that returns a new array: it only adds arrays to the
    store, and the array it hands back is one of those it has added. *)
Definition allocates (m : M loc) : Prop :=
  forall w r w',
    m w = (r, w') ->
    (exists ext, heap w' = heap w ++ ext)
    /\ forall l, r = Ok l -> (length (heap w) <= l < length (heap w'))%nat.

Section strategies.
Context `{Utils}.

Definition strategies_allocate : Prop :=
  (forall osc_map info, allocates (integer_rebin_map osc_map info))
  /\ (forall osc_map fe fcz e cz,
        allocates (get_smoothed_map osc_map fe fcz e cz)).

Definition strategies_compute : Prop :=
  (forall osc_map info w m l w',
      heap w !! osc_map = Some m ->
      integer_rebin_map osc_map info w = (Ok l, w') ->
      heap w' !! l = Some (integer_rebin_value m info))
  /\ (forall osc_map a1 a2 a3 a4 w m fe fcz e cz l w',
        heap w !! osc_map = Some m ->
        heap w !! a1 = Some fe ->
        heap w !! a2 = Some fcz ->
        heap w !! a3 = Some e ->
        heap w !! a4 = Some cz ->
        get_smoothed_map osc_map a1 a2 a3 a4 w = (Ok l, w') ->
        heap w' !! l
        = Some (smoothed_value m (data fe) (data fcz) (data e) (data cz))).

(** The strategies return whenever the arrays they are given exist. *)
Definition strategies_return : Prop :=
  (forall osc_map info w,
      is_Some (heap w !! osc_map) ->
      exists l w', integer_rebin_map osc_map info w = (Ok l, w'))
  /\ (forall osc_map a1 a2 a3 a4 w,
        is_Some (heap w !! osc_map) ->
        is_Some (heap w !! a1) -> is_Some (heap w !! a2) ->
        is_Some (heap w !! a3) -> is_Some (heap w !! a4) ->
        exists l w', get_smoothed_map osc_map a1 a2 a3 a4 w = (Ok l, w')).
End strategies.

(** ** Value-level readings of [check_oversampling] *)

Section readings.
Context `{Libm} `{Utils}.

(** One round of the point insertion on an irregular axis. *)
Definition insert_centers (d : list Q) : list Q :=
  sorted (np_append d (get_bin_centers d)).

(** The edges [check_oversampling] synthesizes when no fine edges are
    given. *)
Definition oversampled_edges (c : list Q) (k : Z) : result (list Q) :=
  if is_linear c then
    match first_item c with
    | Raise e => Raise e
    | Ok a =>
        match last_item c with
        | Raise e => Raise e
        | Ok b => np_linspace a b (k * Z.of_nat (length c) - 1)
        end
    end
  else if is_logarithmic c then
    match first_item c with
    | Raise e => Raise e
    | Ok a =>
        match last_item c with
        | Raise e => Raise e
        | Ok b =>
            np_logspace (log10 a) (log10 b) (k * Z.of_nat (length c) - 1)
        end
    end
  else Ok (Nat.iter (Z.to_nat (k - 1)) insert_centers c).

(** The arrays the insertion loop allocates in [n] rounds. *)
Definition rounds (n : nat) (d : list Q) : list ndarray :=
  map (fun j => vec (Nat.iter (S j) insert_centers d)) (seq 0 n).

(** The arrays that branch allocates. *)
Definition oversampling_allocs (c : list Q) (k : Z) : list ndarray :=
  if is_linear c || is_logarithmic c then
    match oversampled_edges c k with
    | Ok y => [vec y]
    | Raise _ => []
    end
  else rounds (Z.to_nat (k - 1)) c.

(** The array it hands back: the last one allocated, or the coarse
    array when there is none.  [n] is the size of the store before. *)
Definition oversampled_loc (n : nat) (coarse : loc) (c : list Q) (k : Z) : loc :=
  match length (oversampling_allocs c k) with
  | O => coarse
  | S m => (n + m)%nat
  end.

(** The log record of that branch. *)
Definition oversampling_record (c : list Q) (k : Z) : level * string :=
  if is_linear c then
    (INFO, "Oversampling linear output binning by factor "
           +:+ string_of_Z k +:+ ".")
  else if is_logarithmic c then
    (INFO, "Oversampling logarithmic output binning by factor "
           +:+ string_of_Z k +:+ ".")
  else
    (WARNING, "Irregular binning detected! Evenly oversampling "
              +:+ "by factor " +:+ string_of_Z k).
End readings.

(** ** Further readings used in the statements *)



(** A table with the keys of the module: two edge arrays and four
    families of three maps. *)
Definition family_table (a1 a2 : loc) (f1 f2 f3 f4 : loc * loc * loc) : table :=
  [("ebins", Edges a1); ("czbins", Edges a2);
   ("nue_maps", Maps [("nue", f1.1.1); ("numu", f1.1.2); ("nutau", f1.2)]);
   ("numu_maps", Maps [("nue", f2.1.1); ("numu", f2.1.2); ("nutau", f2.2)]);
   ("nue_bar_maps",
    Maps [("nue_bar", f3.1.1); ("numu_bar", f3.1.2); ("nutau_bar", f3.2)]);
   ("numu_bar_maps",
    Maps [("nue_bar", f4.1.1); ("numu_bar", f4.1.2); ("nutau_bar", f4.2)])].

(** The table built when the store holds [n] arrays: the twelve maps are
    the next twelve objects. *)
Definition fresh_table (le lcz : loc) (n : nat) : table :=
  family_table le lcz (n, n + 1, n + 2)%nat (n + 3, n + 4, n + 5)%nat
    (n + 6, n + 7, n + 8)%nat (n + 9, n + 10, n + 11)%nat.

(** The value of a [fresh_table] whose edge arrays hold [e] and [cz] and
    whose twelve maps hold [arrs]. *)
Definition family_table_val (e cz : ndarray) (arrs : list ndarray) : option table_val :=
  deref ([e; cz] ++ arrs) (fresh_table 0%nat 1%nat 2%nat).

Section more_readings.
Context `{Libm} `{Utils}.

(** The array [check_oversampling] hands back, from the values of the
    arrays it is given. *)
Definition fine_axis (f : option ndarray) (c : ndarray) (k : Z) : result ndarray :=
  match f with
  | Some f => Ok (if is_coarser_binning (data c) (data f) then f else c)
  | None =>
      match oversampled_edges (data c) k with
      | Ok y =>
          Ok (match oversampling_allocs (data c) k with
              | [] => c
              | _ => vec y
              end)
      | Raise e => Raise e
      end
  end.

(** The arguments on which [check_oversampling] raises nothing: the
    arrays exist and, when the fine edges are to be synthesized, the
    coarse axis has an edge and [oversample] is positive. *)
Definition axis_ok (w : world) (fine : option loc) (coarse : loc) (k : Z) : Prop :=
  exists c,
    heap w !! coarse = Some c
    /\ match fine with
       | Some f => is_Some (heap w !! f)
       | None => data c <> [] /\ 1 <= k
       end.

(** What [__smoothing_func] computes from the value of a fine map. *)
Definition smoothed (rebin : option rebin_info) (fe fcz e cz : list Q)
    (m : ndarray) : ndarray :=
  match rebin with
  | Some (ax :: axes) => integer_rebin_value m (ax :: axes)
  | _ => smoothed_value m fe fcz e cz
  end.

(** The value of the dict [get_osc_prob_maps] builds for one family,
    from the values of the fine maps: the inner loop. *)
Fixpoint smoothed_maps_val (f : ndarray -> ndarray) (ms : dict ndarray)
    (acc : dict ndarray) : dict ndarray :=
  match ms with
  | [] => acc
  | (to_nu, m) :: rest => smoothed_maps_val f rest (dict_set to_nu (f m) acc)
  end.

(** The value of the table it builds, from the value of the fine table:
    the outer loop. *)
Fixpoint smoothed_table_val (f : ndarray -> ndarray) (tv : table_val)
    (acc : table_val) : result table_val :=
  match tv with
  | [] => Ok acc
  | (from_nu, ev) :: rest =>
      if contains "bins" from_nu then smoothed_table_val f rest acc
      else
        match ev with
        | EdgesV _ =>
            Raise (AttributeError
                     "'numpy.ndarray' object has no attribute 'items'")
        | MapsV ms =>
            smoothed_table_val f rest
              (dict_set from_nu (MapsV (smoothed_maps_val f ms [])) acc)
        end
  end.

(** The call of [fill_osc_prob] that [get_osc_prob_maps], started in the
    world [w], makes: its table, its bin centers and the world it starts
    in. *)
Definition hook_call (self : service) (kw : kwargs) (w : world)
    (t : table) (ecen czcen : list Q) (w2 : world) : Prop :=
  let k := default default_oversample (oversample kw) in
  exists le w1 lcz w2' e cz,
    check_oversampling (fine_ebins kw) (ebins self) k
      {| heap := heap w;
         logs := logs w ++ [(INFO, "Retrieving finely binned maps")] |}
    = (Ok le, w1)
    /\ check_oversampling (fine_czbins kw) (czbins self) k w1 = (Ok lcz, w2')
    /\ heap w2' !! le = Some e
    /\ heap w2' !! lcz = Some cz
    /\ ecen = get_bin_centers (data e)
    /\ czcen = get_bin_centers (data cz)
    /\ t = fresh_table le lcz (length (heap w2'))
    /\ w2 = {| heap := heap w2'
                       ++ repeat (np_zeros [length ecen; length czcen]) 12;
               logs := logs w2' |}.

(** The loops of [get_osc_prob_maps], by name: the loop over the maps of
    one family, the body of the loop over the fine table, and what the
    method does once the fine table is there (lines 90 to 122). *)
Definition smooth_family (self : service) (fine_maps : table)
    (rebin : option rebin_info) (from_nu : string) (tomaps : dict loc)
    (new_tomaps : dict loc) : M (dict loc) :=
  for_each tomaps
    (fun '(to_nu, tomap) (new_tomaps : dict loc) =>
       logging DEBUG ("Getting smoothed map " +:+ from_nu
                      +:+ "/" +:+ to_nu) ;;;
       let* r := OscillationServiceBase.__smoothing_func self
                   fine_maps rebin tomap in
       ret (dict_set to_nu r new_tomaps))
    new_tomaps.

Definition smooth_entry (self : service) (fine_maps : table)
    (rebin : option rebin_info) : string * entry -> table -> M table :=
  fun '(from_nu, tomap_dict) (smoothed : table) =>
    if contains "bins" from_nu then ret smoothed
    else
      match tomap_dict with
      | Edges _ =>
          raise (AttributeError
                   "'numpy.ndarray' object has no attribute 'items'")
      | Maps tomaps =>
          let* new_tomaps :=
            smooth_family self fine_maps rebin from_nu tomaps [] in
          ret (dict_set from_nu (Maps new_tomaps) smoothed)
      end.

Definition smoothing_pass (self : service) (fine_maps : table) : M table :=
  logging INFO "Smoothing fine maps..." ;;;
  let smoothed_maps : table := [] in
  let smoothed_maps := dict_set "ebins" (Edges (ebins self)) smoothed_maps in
  let smoothed_maps := dict_set "czbins" (Edges (czbins self)) smoothed_maps in
  let* e := load (ebins self) in
  let* cz := load (czbins self) in
  let* fe := OscillationServiceBase.edges_of fine_maps "ebins" in
  let* fcz := OscillationServiceBase.edges_of fine_maps "czbins" in
  let rebin := subbinning [data e; data cz] [fe; fcz] in
  (match rebin with
   | Some (_ :: _) =>
       logging DEBUG ("Coarse map is true submap of fine map, "
                      +:+ "using numpy array magic for smoothing.")
   | _ => ret tt
   end) ;;;
  let* smoothed_maps :=
    for_each fine_maps (smooth_entry self fine_maps rebin) smoothed_maps in
  logging DEBUG "Finshed smoothing maps. This took: " ;;;
  ret smoothed_maps.

End more_readings.

(** ** A sample derived class

    A class that overrides [fill_osc_prob] as the derived services do:
    for every family and destination flavor it computes one probability
    per pair of bin centers and writes them into the array of the table,
    in place. *)

(** The probability arrays of a table with their two keys. *)
Definition prob_cells (t : table) : list (string * string * loc) :=
  flat_map (fun kv =>
              match snd kv with
              | Edges _ => []
              | Maps tomaps => map (fun tl => (fst kv, fst tl, snd tl)) tomaps
              end) t.

Section sample.
Variable prob : string -> string -> Q -> Q -> osc_params -> Q.

Definition prob_array (from_nu to_nu : string) (ecen czcen : list Q)
    (kw : osc_params) : ndarray :=
  {| shape := [length ecen; length czcen];
     data := flat_map (fun e => map (fun cz => prob from_nu to_nu e cz kw) czcen)
               ecen |}.

Definition fill_with : hook :=
  fun self osc_prob_dict ecen czcen kw =>
    for_each (prob_cells osc_prob_dict)
      (fun '(from_nu, to_nu, l) _ =>
         store l (prob_array from_nu to_nu ecen czcen kw))
      tt ;;;
    ret osc_prob_dict.

(** The value of the table after [fill_with]. *)
Definition filled_maps (from_nu : string) (ecen czcen : list Q) (kw : osc_params)
    (ms : dict ndarray) : dict ndarray :=
  map (fun km => (fst km, prob_array from_nu (fst km) ecen czcen kw)) ms.

Definition filled (ecen czcen : list Q) (kw : osc_params) (tv : table_val) : table_val :=
  map (fun kv =>
         (fst kv,
          match snd kv with
          | EdgesV a => EdgesV a
          | MapsV ms => MapsV (filled_maps (fst kv) ecen czcen kw ms)
          end)) tv.
End sample.

(** A toy model: the probability grows with the energy and the cosine of
    the zenith angle, whatever the flavors and the parameters. *)
Definition toy_prob (from_nu to_nu : string) (e cz : Q) (kw : osc_params) : Q :=
  Qred ((e + cz) / 8 + (1 # 4)).

Definition ToyOscillationService : subclass :=
  {| name := "ToyOscillationService"; fill_override := Some (fill_with toy_prob) |}.

(** A class that inherits [fill_osc_prob] from the base class. *)
Definition BareOscillationService : subclass :=
  {| name := "BareOscillationService"; fill_override := None |}.

(** * pisa/analysis/hypo_testing_postprocess.py

    The helpers of the post-processing script that compute on plain
    data: the plot labels, the number of rows of a multi-plot and the
    selection of keys of a fit file. *)

(** [key in d.keys()] and [d.pop(key)] *)
Definition dict_mem {V} (k : string) (d : dict V) : bool :=
  existsb (String.eqb k) (keys d).

Fixpoint dict_pop {V} (k : string) (d : dict V) : dict V :=
  match d with
  | [] => []
  | (k', v) :: rest =>
      if String.eqb k k' then rest else (k', v) :: dict_pop k rest
  end.

(** ** make_pretty *)

Definition pretty_labels : dict string :=
  let pretty_labels : dict string := [] in
  let pretty_labels := dict_set "atm_muon_scale" "Muon Background Scale" pretty_labels in
  let pretty_labels := dict_set "nue_numu_ratio" "$\nu_e/\nu_{\mu}$ Ratio" pretty_labels in
  let pretty_labels := dict_set "Barr_uphor_ratio" "Barr Up/Horizontal Ratio" pretty_labels in
  let pretty_labels := dict_set "Barr_nu_nubar_ratio" "Barr $\nu/\bar{\nu}$ Ratio" pretty_labels in
  let pretty_labels := dict_set "delta_index" "Atmospheric Index Change" pretty_labels in
  let pretty_labels := dict_set "theta13" "$\theta_{13}$" pretty_labels in
  let pretty_labels := dict_set "theta23" "$\theta_{23}$" pretty_labels in
  let pretty_labels := dict_set "deltam31" "$\Delta m^2_{31}$" pretty_labels in
  let pretty_labels := dict_set "aeff_scale" "$A_{\mathrm{eff}}$ Scale" pretty_labels in
  let pretty_labels := dict_set "Genie_Ma_QE" "GENIE $M_{A}^{QE}$" pretty_labels in
  let pretty_labels := dict_set "Genie_Ma_RES" "GENIE $M_{A}^{Res}$" pretty_labels in
  let pretty_labels := dict_set "dom_eff" "DOM Efficiency" pretty_labels in
  let pretty_labels := dict_set "hole_ice" "Hole Ice" pretty_labels in
  let pretty_labels := dict_set "hole_ice_fwd" "Hole Ice Forward" pretty_labels in
  let pretty_labels := dict_set "degree" "$^\circ$" pretty_labels in
  let pretty_labels := dict_set "radians" "rads" pretty_labels in
  let pretty_labels := dict_set "electron_volt ** 2" "$\mathrm{eV}^2$" pretty_labels in
  let pretty_labels := dict_set "llh" "Likelihood" pretty_labels in
  let pretty_labels := dict_set "chi2" "$\chi^2$" pretty_labels in
  let pretty_labels := dict_set "mod_chi2" "Modified $\chi^2$" pretty_labels in
  pretty_labels.

Definition make_pretty (label : string) : M string :=
  if negb (dict_mem label pretty_labels) then
    logging WARNING ("I don't know what to do with " +:+ label
                     +:+ ". Returning as is.") ;;;
    ret label
  else
    match dict_get label pretty_labels with
    | Some pretty => ret pretty
    | None => raise (KeyError label)
    end.

(** ** get_num_rows

    The module divides with [from __future__ import division]: [x / 4]
    is the true quotient and [int] rounds it towards zero, which is
    [Z.quot] on the integers (the quotient of a dict size by four is
    exact in float64). *)
Definition get_num_rows {V} (data : dict V) (omit_metric : bool) : Z :=
  let len := Z.of_nat (length (keys data)) in
  let num_rows :=
    if omit_metric then Z.quot (len - 1) 4 else Z.quot len 4 in
  if negb (len mod 4 =? 0) then num_rows + 1 else num_rows.

(** ** extract_fit

    [keys] is [None], a string or a list of strings.  [from_file] is
    imported from [pisa.utils.fileio]: it enters as a parameter.  The
    module is Python 2 ([basestring]): [info.keys()] is a list of its
    own, and the loop pops from [info] while it runs over that list. *)
Inductive keys_arg :=
| KeyString (key : string)
| KeyList (keys : list string).

Definition extract_fit {V} (from_file : string -> M (dict V))
    (fpath : string) (keys0 : option keys_arg) : M (dict V) :=
  let* info := from_file fpath in
  match keys0 with
  | None => ret info
  | Some keys0 =>
      let keys1 := match keys0 with
                   | KeyString key => [key]
                   | KeyList keys1 => keys1
                   end in
      for_each (keys info)
        (fun key (info : dict V) =>
           if negb (existsb (String.eqb key) keys1)
           then ret (dict_pop key info)
           else ret info)
        info
  end.

(** ** Computations that only append to the store *)

Definition appends {A} (m : M A) : Prop :=
  forall w, exists ext, heap (snd (m w)) = heap w ++ ext.

(** * The sample scenario

    The utilities of the specification with a tolerance of [1e-5], the
    decimal libm, and the axes of the example of the specification. *)

Definition toy_utils : Utils := @SpecUtils.spec_utils decimal_libm (1 # 100000).

Definition sample_ebins : array_like := Seq [Num 1; Num 2; Num 3; Num 4].

Definition sample_czbins : array_like := Seq [Num (-1); Num 0; Num 1].

Definition no_params : osc_params :=
  {| theta12 := None; theta13 := None; theta23 := None;
     deltam21 := None; deltam31 := None; deltacp := None |}.

Definition default_kwargs : kwargs :=
  {| fine_ebins := None; fine_czbins := None; oversample := None;
     params := no_params |}.

Definition empty_world : world := {| heap := []; logs := [] |}.

(** The service of the example and the world its construction leaves. *)
Definition sample_service : service :=
  {| cls_name := "ToyOscillationService"; ebins := 0%nat; czbins := 1%nat |}.

Definition built_world : world :=
  {| heap := [np_array sample_ebins; np_array sample_czbins];
     logs := [(DEBUG, "Instantiating ToyOscillationService")] |}.

(** A store with the coarse axis, a fine axis twice as fine and one that
    does not contain the coarse edges. *)
Definition edges_world : world :=
  {| heap := [vec [1; 2; 3; 4]%Q;
              vec [1; 3 # 2; 2; 5 # 2; 3; 7 # 2; 4]%Q;
              vec [1; 5 # 2; 4]%Q;
              vec [1; 2; 4; 7]%Q];
     logs := [] |}.

(** Two calls in a row, on the service of the example. *)
Definition first_call : result table * world :=
  @OscillationServiceBase.get_osc_prob_maps decimal_libm toy_utils
    ToyOscillationService sample_service default_kwargs built_world.

Definition second_call : result table * world :=
  @OscillationServiceBase.get_osc_prob_maps decimal_libm toy_utils
    ToyOscillationService sample_service default_kwargs (snd first_call).

Definition fine_e_example : list Q := [1; 3 # 2; 2; 5 # 2; 3; 7 # 2; 4]%Q.

Definition fine_cz_example : list Q := [-1; -1 # 2; 0; 1 # 2; 1]%Q.

(** ** Further sample inputs *)

(** A store whose first array is an empty axis. *)
Definition empty_axis_world : world :=
  {| heap := [vec []; vec [-1; 0; 1]%Q]; logs := [] |}.

(** The service of the example, the fine edges of the example given by
    the caller. *)
Definition fine_world : world :=
  {| heap := [np_array sample_ebins; np_array sample_czbins;
              vec fine_e_example; vec fine_cz_example];
     logs := [] |}.

(** A class whose hook deletes the key [ebins] of its table. *)
Definition DroppingOscillationService : subclass :=
  {| name := "DroppingOscillationService";
     fill_override := Some (fun _ t _ _ _ => ret (dict_pop "ebins" t)) |}.

Definition dropping_service : service :=
  {| cls_name := "DroppingOscillationService"; ebins := 0%nat; czbins := 1%nat |}.

(** The table builder of that class on the axes of the example. *)
Definition dropped_call : result table * world :=
  @OscillationServiceBase.get_osc_probLT_dict decimal_libm toy_utils
    DroppingOscillationService dropping_service None None 2 no_params
    {| heap := heap built_world;
       logs := logs built_world ++ [(INFO, "Retrieving finely binned maps")] |}.

(** The table builder of the sample class on the axes of the example,
    and the table the first call returns. *)
Definition filled_call : result table * world :=
  @OscillationServiceBase.get_osc_probLT_dict decimal_libm toy_utils
    ToyOscillationService sample_service None None 2 no_params
    {| heap := heap built_world;
       logs := logs built_world ++ [(INFO, "Retrieving finely binned maps")] |}.

Definition first_table : table :=
  family_table 0%nat 1%nat (16, 17, 18)%nat (19, 20, 21)%nat
    (22, 23, 24)%nat (25, 26, 27)%nat.

(** The content of a fit file. *)
Definition sample_fit : dict Z :=
  [("metric", 1); ("metric_val", 2); ("params", 3); ("minimizer_time", 4)].

Definition sample_from_file (fpath : string) : M (dict Z) := ret sample_fit.
(** * Properties *)

Section generic.
Context `{Libm} `{Utils}.
Import OscillationServiceBase.

Lemma load_ok w l a : heap w !! l = Some a -> load l w = (Ok a, w).
Proof. intros E. unfold load. by rewrite E. Qed.

Lemma lookup_fresh (h : list ndarray) a : (h ++ [a]) !! length h = Some a.
Proof. by rewrite list_lookup_middle. Qed.

Lemma store_fresh (h : list ndarray) a b :
  <[length h := b]> (h ++ [a]) = h ++ [b].
Proof.
  replace (length h) with (length h + 0)%nat by lia.
  by rewrite insert_app_r.
Qed.

Lemma insertion_round w l a :
  heap w !! l = Some a ->
  (let* f := load l in
   let* appended :=
     alloc (vec (np_append (data f) (get_bin_centers (data f)))) in
   let* a := load appended in
   store appended (vec (sorted (data a))) ;;;
   ret appended) w
  = (Ok (length (heap w)),
     {| heap := heap w ++ [vec (insert_centers (data a))]; logs := logs w |}).
Proof.
  intros E. unfold bind, load, alloc, store, ret. rewrite E. simpl.
  rewrite lookup_fresh. simpl. rewrite lookup_fresh, store_fresh. done.
Qed.

Lemma rounds_succ n d :
  rounds (S n) d = vec (insert_centers d) :: rounds n (insert_centers d).
Proof.
  unfold rounds. cbn [seq map]. f_equal.
  rewrite <- seq_shift, map_map. apply map_ext. intros j.
  by rewrite !Nat.iter_succ_r.
Qed.

Lemma rounds_length n d : length (rounds n d) = n.
Proof. unfold rounds. by rewrite length_map, length_seq. Qed.

(** The point-insertion loop: round [j] allocates the array of the
    edges after [j] insertions, and the last one is handed back. *)
Lemma insertion_loop n : forall w l a,
  heap w !! l = Some a ->
  for_range n
    (fun fine_bins =>
       let* f := load fine_bins in
       let* appended :=
         alloc (vec (np_append (data f) (get_bin_centers (data f)))) in
       let* a := load appended in
       store appended (vec (sorted (data a))) ;;;
       ret appended) l w
  = (Ok (match n with
         | O => l
         | S n' => (length (heap w) + n')%nat
         end),
     {| heap := heap w ++ rounds n (data a); logs := logs w |}).
Proof.
  induction n as [|n IH]; intros w l a E.
  - simpl. unfold ret, rounds. simpl. rewrite app_nil_r. by destruct w.
  - cbn [for_range]. unfold bind at 1. rewrite (insertion_round _ _ _ E).
    rewrite (IH _ _ (vec (insert_centers (data a)))) by apply lookup_fresh.
    cbn [heap logs data vec]. rewrite rounds_succ, <- app_assoc. cbn [app].
    do 2 f_equal. destruct n as [|n]; [by rewrite Nat.add_0_r|].
    rewrite length_app. simpl. lia.
Qed.

(** With no fine edges given, [check_oversampling] logs one record,
    allocates [oversampling_allocs] and hands back
    [oversampled_loc]. *)
Lemma check_oversampling_None w coarse c k :
  heap w !! coarse = Some c ->
  check_oversampling None coarse k w
  = (match oversampled_edges (data c) k with
     | Ok _ => Ok (oversampled_loc (length (heap w)) coarse (data c) k)
     | Raise e => Raise e
     end,
     {| heap := heap w ++ oversampling_allocs (data c) k;
        logs := logs w ++ [oversampling_record (data c) k] |}).
Proof.
  intros E.
  unfold check_oversampling. unfold bind at 1. rewrite (load_ok _ _ _ E).
  unfold oversampled_loc, oversampling_allocs, oversampled_edges,
    oversampling_record.
  destruct (is_linear (data c)) eqn:Elin;
    [|destruct (is_logarithmic (data c)) eqn:Elog].
  - unfold bind, logging, lift, alloc; simpl.
    destruct (first_item (data c)) as [a0|e]; [|by rewrite app_nil_r].
    destruct (last_item (data c)) as [b0|e]; [|by rewrite app_nil_r].
    destruct (np_linspace a0 b0 _) as [y|e]; [|by rewrite app_nil_r].
    repeat f_equal. simpl. lia.
  - unfold bind, logging, lift, alloc; simpl.
    destruct (first_item (data c)) as [a0|e]; [|by rewrite app_nil_r].
    destruct (last_item (data c)) as [b0|e]; [|by rewrite app_nil_r].
    destruct (np_logspace _ _ _) as [y|e]; [|by rewrite app_nil_r].
    repeat f_equal. simpl. lia.
  - unfold bind at 1, logging at 1.
    rewrite (insertion_loop _ _ _ c) by done. simpl.
    rewrite rounds_length. done.
Qed.

(** The array handed back holds the oversampled edges. *)
Lemma oversampled_lookup (h : list ndarray) coarse c k y :
  h !! coarse = Some c ->
  oversampled_edges (data c) k = Ok y ->
  exists a,
    (h ++ oversampling_allocs (data c) k)
      !! oversampled_loc (length h) coarse (data c) k = Some a
    /\ data a = y.
Proof.
  intros E Hy. unfold oversampled_loc, oversampling_allocs.
  rewrite Hy. unfold oversampled_edges in Hy.
  destruct (is_linear (data c) || is_logarithmic (data c)) eqn:Hreg.
  - exists (vec y). simpl. rewrite Nat.add_0_r.
    by rewrite lookup_fresh.
  - apply orb_false_iff in Hreg as [Hlin Hlog].
    rewrite Hlin, Hlog in Hy. injection Hy as <-.
    rewrite rounds_length.
    destruct (Z.to_nat (k - 1)) as [|n] eqn:En.
    + exists c. simpl. rewrite app_nil_r. done.
    + exists (vec (Nat.iter (S n) insert_centers (data c))). split; [|done].
      unfold rounds. rewrite lookup_app_r by lia.
      replace (length h + n - length h)%nat with n by lia.
      rewrite list_lookup_fmap, lookup_seq_lt by lia. done.
Qed.

Lemma set_last_length xs x : length (set_last xs x) = length xs.
Proof.
  destruct xs as [|y ys]; [done|]. unfold set_last.
  rewrite removelast_firstn_len, length_app, length_firstn. simpl. lia.
Qed.

(** [np.linspace] returns [num] samples whenever [num] is not negative. *)
Lemma np_linspace_ok a b num :
  0 <= num ->
  exists y, np_linspace a b num = Ok y /\ length y = Z.to_nat num.
Proof.
  intros Hnum. unfold np_linspace.
  destruct (num <? 0) eqn:Hneg; [lia|].
  eexists; split; [reflexivity|].
  destruct (1 <? num); rewrite ?set_last_length, length_map, length_seq; done.
Qed.

Lemma np_logspace_ok a b num :
  0 <= num ->
  exists y, np_logspace a b num = Ok y /\ length y = Z.to_nat num.
Proof.
  intros Hnum. unfold np_logspace.
  destruct (np_linspace_ok a b num Hnum) as (y & -> & Hlen).
  eexists; split; [reflexivity|]. by rewrite length_map.
Qed.

Lemma first_item_ok c : c <> [] -> exists a, first_item c = Ok a.
Proof. destruct c; [done|]. by eexists. Qed.

Lemma last_item_ok c : c <> [] -> exists a, last_item c = Ok a.
Proof. destruct c; [done|]. by eexists. Qed.

(** On a linear or logarithmic axis of [len] edges, oversampling by [k]
    yields [k * len - 1] edges. *)
Lemma regular_edge_count c k :
  is_linear c || is_logarithmic c = true ->
  c <> [] -> 1 <= k ->
  exists y, oversampled_edges c k = Ok y
            /\ length y = Z.to_nat (k * Z.of_nat (length c) - 1).
Proof.
  intros Hreg Hne Hk. unfold oversampled_edges.
  destruct (first_item_ok c Hne) as [a ->].
  destruct (last_item_ok c Hne) as [b ->].
  assert (0 <= k * Z.of_nat (length c) - 1) as Hnum.
  { destruct c; [done|]. simpl length. nia. }
  destruct (is_linear c); [by apply np_linspace_ok|].
  destruct (is_logarithmic c); [by apply np_logspace_ok|done].
Qed.

Lemma insert_sorted_length x xs :
  length (insert_sorted x xs) = S (length xs).
Proof.
  induction xs as [|y ys IH]; [done|]. simpl.
  destruct (Qle_bool x y); simpl; by rewrite ?IH.
Qed.

Lemma sorted_length xs : length (sorted xs) = length xs.
Proof.
  induction xs as [|x xs IH]; [done|]. simpl.
  by rewrite insert_sorted_length, IH.
Qed.

(** The edges after [n] rounds of point insertion, when every grid has
    one center per bin. *)
Lemma insertion_edge_count n c N :
  (forall e, length (get_bin_centers e) = (length e - 1)%nat) ->
  length c = S N ->
  length (Nat.iter n insert_centers c) = S (2 ^ n * N).
Proof.
  intros Hcen Hc. induction n as [|n IH].
  - simpl. lia.
  - rewrite Nat.iter_succ. unfold insert_centers at 1, np_append.
    rewrite sorted_length, length_app, Hcen, IH.
    rewrite Nat.pow_succ_r'. lia.
Qed.

Lemma oversampled_edges_ok c k :
  c <> [] -> 1 <= k -> exists y, oversampled_edges c k = Ok y.
Proof.
  intros Hne Hk.
  destruct (is_linear c || is_logarithmic c) eqn:Hreg.
  - destruct (regular_edge_count c k Hreg Hne Hk) as (y & ? & _). eauto.
  - apply orb_false_iff in Hreg as [Hlin Hlog].
    unfold oversampled_edges. rewrite Hlin, Hlog. eauto.
Qed.

(** With fine edges given, [check_oversampling] only chooses between
    the two arrays and logs its choice. *)
Lemma check_oversampling_Some w fine coarse f c k :
  heap w !! fine = Some f ->
  heap w !! coarse = Some c ->
  check_oversampling (Some fine) coarse k w
  = (if is_coarser_binning (data c) (data f)
     then (Ok fine,
           {| heap := heap w;
              logs := logs w
                      ++ [(INFO, "Using requested binning for oversampling.")] |})
     else (Ok coarse,
           {| heap := heap w;
              logs := logs w
                      ++ [(WARNING,
                           "Requested oversampled binning is coarser "
                           +:+ "than output binning. Will use output binning.")] |})).
Proof.
  intros Ef Ec.
  unfold check_oversampling, bind. rewrite (load_ok _ _ _ Ec), (load_ok _ _ _ Ef).
  by destruct (is_coarser_binning (data c) (data f)).
Qed.

(** [check_oversampling] appends to the store and logs one record; the
    array it hands back is [fine_axis] of the values it was given. *)
Lemma check_oversampling_value w fine coarse c k :
  heap w !! coarse = Some c ->
  (forall lf, fine = Some lf -> is_Some (heap w !! lf)) ->
  exists ext lg,
    snd (check_oversampling fine coarse k w)
    = {| heap := heap w ++ ext; logs := logs w ++ [lg] |}
    /\ match fst (check_oversampling fine coarse k w),
             fine_axis (fine ≫= fun lf => heap w !! lf) c k with
       | Ok l, Ok a => (heap w ++ ext) !! l = Some a
       | Raise e, Raise e' => e = e'
       | _, _ => False
       end.
Proof.
  intros Ec Hf. destruct fine as [lf|].
  - destruct (Hf lf eq_refl) as [f Ef].
    rewrite (check_oversampling_Some w lf coarse f c k Ef Ec).
    cbn [mbind option_bind]. rewrite Ef. cbn [fine_axis].
    destruct (is_coarser_binning (data c) (data f)); cbn [fst snd];
      eexists [], _; rewrite !app_nil_r; by split.
  - rewrite (check_oversampling_None w coarse c k Ec). cbn [fst snd mbind option_bind fine_axis].
    eexists _, _. split; [done|].
    destruct (oversampled_edges (data c) k) as [y|e] eqn:Hy; [|done].
    destruct (oversampled_lookup (heap w) coarse c k y Ec Hy) as (a & Ha & Hdata).
    rewrite Ha. f_equal.
    unfold oversampled_loc, oversampling_allocs in *. rewrite Hy in *.
    unfold oversampled_edges in Hy.
    destruct (is_linear (data c) || is_logarithmic (data c)) eqn:Hreg.
    + simpl in Ha. rewrite Nat.add_0_r, lookup_fresh in Ha. by injection Ha.
    + apply orb_false_iff in Hreg as [Hlin Hlog]. rewrite Hlin, Hlog in Hy.
      injection Hy as <-. rewrite rounds_length in Ha.
      destruct (Z.to_nat (k - 1)) as [|n] eqn:En.
      * simpl in *. rewrite app_nil_r in Ha. congruence.
      * unfold rounds in Ha |- *. cbn [seq map].
        rewrite lookup_app_r in Ha by lia.
        replace (length (heap w) + n - length (heap w))%nat with n in Ha by lia.
        rewrite list_lookup_fmap, lookup_seq_lt in Ha by lia.
        simpl in Ha. by injection Ha.
Qed.

(** [get_osc_probLT_dict] allocates the twelve arrays of [fresh_table]
    and ends with the call of [fill_osc_prob]. *)
Lemma get_osc_probLT_dict_delegates C self fe fcz k kw w le w1 lcz w2 e cz :
  check_oversampling fe (ebins self) k w = (Ok le, w1) ->
  check_oversampling fcz (czbins self) k w1 = (Ok lcz, w2) ->
  heap w2 !! le = Some e ->
  heap w2 !! lcz = Some cz ->
  let ecen := get_bin_centers (data e) in
  let czcen := get_bin_centers (data cz) in
  get_osc_probLT_dict C self fe fcz k kw w
  = resolve_fill_osc_prob C self
      (fresh_table le lcz (length (heap w2))) ecen czcen kw
      {| heap := heap w2 ++ repeat (np_zeros [length ecen; length czcen]) 12;
         logs := logs w2 |}.
Proof.
  intros He Hcz Ee Ecz ecen czcen.
  unfold get_osc_probLT_dict.
  unfold bind at 1. rewrite He.
  unfold bind at 1. rewrite Hcz.
  unfold bind at 1. rewrite (load_ok _ _ _ Ee).
  unfold bind at 1. rewrite (load_ok _ _ _ Ecz).
  fold ecen czcen.
  unfold bind at 1.
  match goal with |- (let (r, w') := ?m in _) = _ =>
    assert (m = (Ok (fresh_table le lcz (length (heap w2))),
                 {| heap := heap w2 ++ repeat (np_zeros [length ecen; length czcen]) 12;
                    logs := logs w2 |})) as ->
  end; [|done].
  cbn [for_each]. 
  replace (contains "bar" "nue_maps") with false by (by vm_compute).
  replace (contains "bar" "numu_maps") with false by (by vm_compute).
  replace (contains "bar" "nue_bar_maps") with true by (by vm_compute).
  replace (contains "bar" "numu_bar_maps") with true by (by vm_compute).
  unfold bind, alloc, ret. cbn [heap logs dict_set String.eqb Ascii.eqb Bool.eqb].
  rewrite !length_app. cbn [length].
  rewrite <- !app_assoc. cbn [app repeat].
  unfold fresh_table, family_table. cbn [fst snd].
  repeat (f_equal; try lia).
Qed.

Lemma deref_maps_app h ext m ms :
  deref_maps h m = Some ms -> deref_maps (h ++ ext) m = Some ms.
Proof.
  revert ms. induction m as [|[k l] rest IH]; intros ms; [done|].
  simpl. destruct (h !! l) as [a|] eqn:El; [|done].
  destruct (deref_maps h rest) as [rest'|]; [|done].
  intros [= <-]. by rewrite (lookup_app_l_Some _ _ _ _ El), (IH _ eq_refl).
Qed.

Lemma edges_of_ok fine_maps key a x w :
  dict_get key fine_maps = Some (Edges a) ->
  heap w !! a = Some x ->
  edges_of fine_maps key w = (Ok (data x), w).
Proof.
  intros Hk Ea. unfold edges_of. rewrite Hk. unfold bind.
  by rewrite (load_ok _ _ _ Ea).
Qed.

Lemma keys_three (m : dict loc) k1 k2 k3 :
  [k1; k2; k3] = keys m ->
  exists b1 b2 b3, m = [(k1, b1); (k2, b2); (k3, b3)].
Proof.
  destruct m as [|[? b1] [|[? b2] [|[? b3] [|? ?]]]]; try done.
  intros [= -> -> ->]. eauto.
Qed.

(** A table with the keys of a [family_table] is a [family_table]. *)
Lemma same_keys_family a1 a2 f1 f2 f3 f4 t' :
  same_keys (family_table a1 a2 f1 f2 f3 f4) t' ->
  exists a1' a2' f1' f2' f3' f4', t' = family_table a1' a2' f1' f2' f3' f4'.
Proof.
  unfold same_keys, family_table. intros Hk.
  repeat match goal with
         | Hk : Forall2 _ (_ :: _) _ |- _ =>
             apply Forall2_cons_inv_l in Hk as ([? [?|?]] & ? & [? ?] & Hk & ->);
             simpl in *; try done; subst
         | Hk : Forall2 _ [] _ |- _ => apply Forall2_nil_inv_l in Hk as ->
         | Hm : [_; _; _] = keys _ |- _ =>
             apply keys_three in Hm as (? & ? & ? & ->)
         end.
  eexists _, _, (_, _, _), (_, _, _), (_, _, _), (_, _, _). reflexivity.
Qed.

Lemma deref_maps_three h k1 b1 k2 b2 k3 b3 ms :
  deref_maps h [(k1, b1); (k2, b2); (k3, b3)] = Some ms ->
  exists m1 m2 m3,
    ms = [(k1, m1); (k2, m2); (k3, m3)]
    /\ h !! b1 = Some m1 /\ h !! b2 = Some m2 /\ h !! b3 = Some m3.
Proof.
  simpl. destruct (h !! b1), (h !! b2), (h !! b3); try done.
  intros [= <-]. eauto 10.
Qed.

Lemma deref_fresh_table (h arrs : list ndarray) le lcz e cz :
  h !! le = Some e ->
  h !! lcz = Some cz ->
  length arrs = 12%nat ->
  deref (h ++ arrs) (fresh_table le lcz (length h)) = family_table_val e cz arrs.
Proof.
  intros Ee Ecz Hlen.
  do 12 (destruct arrs as [|? arrs]; [done|]). destruct arrs; [|done].
  unfold family_table_val, fresh_table, family_table.
  cbn [deref deref_entry deref_maps fst snd].
  rewrite !(lookup_app_l_Some _ _ _ _ Ee), !(lookup_app_l_Some _ _ _ _ Ecz).
  rewrite !lookup_app_r by lia.
  replace (length h - length h)%nat with 0%nat by lia.
  repeat match goal with
         | |- context [(length h + ?i - length h)%nat] =>
             replace (length h + i - length h)%nat with i by lia
         end.
  reflexivity.
Qed.

(** A table without dangling reference has a value. *)
Lemma valid_deref_maps w m :
  valid_in w (map snd m) -> is_Some (deref_maps (heap w) m).
Proof.
  induction m as [|[k l] rest IH]; [by eexists|].
  intros Hv. cbn [map snd] in Hv. apply Forall_cons in Hv as [Hl Hv].
  destruct (IH Hv) as [ms Hms]. apply lookup_lt_is_Some in Hl as [a Ha].
  cbn [deref_maps]. rewrite Ha, Hms. by eexists.
Qed.

Lemma valid_deref w t :
  valid_in w (table_locs t) -> is_Some (deref (heap w) t).
Proof.
  induction t as [|[k e] rest IH]; [by eexists|].
  unfold valid_in, table_locs. cbn [flat_map snd]. rewrite Forall_app.
  intros [He Hv]. destruct (IH Hv) as [tv Htv].
  cbn [deref]. rewrite Htv.
  destruct e as [a|m]; cbn [deref_entry entry_locs] in *.
  - apply Forall_cons in He as [Hl _].
    apply lookup_lt_is_Some in Hl as [x Hx]. rewrite Hx. by eexists.
  - destruct (valid_deref_maps w m He) as [ms Hms]. rewrite Hms. by eexists.
Qed.

Lemma fine_axis_ok (fv : option ndarray) c k :
  match fv with
  | Some _ => True
  | None => data c <> [] /\ 1 <= k
  end ->
  exists a, fine_axis fv c k = Ok a.
Proof.
  destruct fv as [f|]; [by eexists|]. intros [Hne Hk]. cbn [fine_axis].
  destruct (oversampled_edges_ok (data c) k Hne Hk) as [y ->]. by eexists.
Qed.

(** On arguments that are in order, [check_oversampling] returns. *)
Lemma check_oversampling_returns w fine coarse c k :
  heap w !! coarse = Some c ->
  match fine with
  | Some f => is_Some (heap w !! f)
  | None => data c <> [] /\ 1 <= k
  end ->
  exists l ext lg a,
    check_oversampling fine coarse k w
    = (Ok l, {| heap := heap w ++ ext; logs := logs w ++ [lg] |})
    /\ (heap w ++ ext) !! l = Some a
    /\ fine_axis (fine ≫= fun lf => heap w !! lf) c k = Ok a.
Proof.
  intros Ec Hfine.
  destruct (check_oversampling_value w fine coarse c k Ec) as (ext & lg & Hw & Hr).
  { intros lf ->. done. }
  destruct (fine_axis_ok (fine ≫= fun lf => heap w !! lf) c k) as [a Ha].
  { destruct fine as [lf|]; [|done]. cbn [mbind option_bind].
    by destruct Hfine as [f ->]. }
  rewrite Ha in Hr.
  destruct (check_oversampling fine coarse k w) as [[l|err] w1]; [|done].
  cbn [fst snd] in *. subst w1. by exists l, ext, lg, a.
Qed.

Lemma prob_locs_fresh le lcz n :
  prob_locs (fresh_table le lcz n) = map (fun i => (n + i)%nat) (seq 0 12).
Proof.
  unfold prob_locs, fresh_table, family_table. cbn.
  by rewrite Nat.add_0_r.
Qed.

Lemma table_locs_fresh le lcz n :
  table_locs (fresh_table le lcz n)
  = le :: lcz :: map (fun i => (n + i)%nat) (seq 0 12).
Proof.
  unfold table_locs, fresh_table, family_table. cbn.
  by rewrite Nat.add_0_r.
Qed.

Lemma separate_fresh le lcz n :
  (le < n)%nat -> (lcz < n)%nat -> separate (fresh_table le lcz n).
Proof.
  intros Hle Hlcz. unfold separate. rewrite prob_locs_fresh. split.
  - apply NoDup_fmap_2; [|apply NoDup_seq]. intros i j. lia.
  - unfold edge_locs, fresh_table, family_table.
    cbn [flat_map snd edge_entry_locs app].
    repeat (apply Forall_cons; split); try by constructor.
    all: intros Hin; apply list_elem_of_fmap in Hin as (i & -> & _); lia.
Qed.

(** [__init__] logs, copies its two arguments into new arrays and then
    checks their dimensions, the energy axis first. *)
Lemma init_run C e0 c0 w :
  __init__ C e0 c0 w
  = (if negb (length (np_shape e0) =? 1)%nat then
       Raise (IndexError ("Axes must be 1d! " +:+ str_shape (np_shape e0)))
     else if negb (length (np_shape c0) =? 1)%nat then
       Raise (IndexError ("Axes must be 1d! " +:+ str_shape (np_shape c0)))
     else
       Ok {| cls_name := name C;
             ebins := length (heap w);
             czbins := S (length (heap w)) |},
     {| heap := heap w ++ [np_array e0; np_array c0];
        logs := logs w ++ [(DEBUG, "Instantiating " +:+ name C)] |}).
Proof.
  unfold __init__, bind, logging, alloc. cbn [heap logs for_each].
  unfold bind, load. cbn [heap logs].
  rewrite length_app. cbn [length].
  rewrite <- app_assoc. cbn [app].
  rewrite list_lookup_middle by done. cbn [shape np_array].
  destruct (length (np_shape e0) =? 1)%nat; cbn [negb]; [|done].
  unfold ret at 1. cbn [heap].
  replace (length (heap w) + 1)%nat with (S (length (heap w))) by lia.
  rewrite lookup_app_r by lia.
  replace (S (length (heap w)) - length (heap w))%nat with 1%nat by lia.
  cbn [lookup list_lookup].
  cbn [shape np_array].
  destruct (length (np_shape c0) =? 1)%nat; cbn [negb]; done.
Qed.

(** ** Computations that only append to the store *)

Lemma appends_ret {A} (a : A) : appends (ret a).
Proof. intros w. exists []. by rewrite app_nil_r. Qed.

Lemma appends_raise {A} e : appends (@raise A e).
Proof. intros w. exists []. by rewrite app_nil_r. Qed.

Lemma appends_logging lv msg : appends (logging lv msg).
Proof. intros w. exists []. by rewrite app_nil_r. Qed.

Lemma appends_load l : appends (load l).
Proof.
  intros w. exists []. unfold load.
  destruct (heap w !! l); by rewrite app_nil_r.
Qed.

Lemma appends_alloc a : appends (alloc a).
Proof. intros w. by exists [a]. Qed.

Lemma appends_bind {A B} (m : M A) (k : A -> M B) :
  appends m -> (forall a, appends (k a)) -> appends (bind m k).
Proof.
  intros Hm Hk w. unfold bind. destruct (Hm w) as [ext1 H1].
  destruct (m w) as [[a|e] w1]; cbn [snd] in *.
  - destruct (Hk a w1) as [ext2 H2]. exists (ext1 ++ ext2).
    by rewrite H2, H1, app_assoc.
  - by exists ext1.
Qed.

Lemma appends_for_each {A S} (xs : list A) (body : A -> S -> M S) :
  (forall x s, appends (body x s)) -> forall s, appends (for_each xs body s).
Proof.
  intros Hbody. induction xs as [|x xs IH]; intros s; cbn [for_each].
  - apply appends_ret.
  - apply appends_bind; [apply Hbody|apply IH].
Qed.

Lemma appends_edges_of fine_maps key : appends (edges_of fine_maps key).
Proof.
  unfold edges_of. destruct (dict_get key fine_maps) as [[a|m]|].
  - apply appends_bind; [apply appends_load|intros; apply appends_ret].
  - apply appends_raise.
  - apply appends_raise.
Qed.

Ltac appends_step :=
  first [ apply appends_ret | apply appends_raise | apply appends_logging
        | apply appends_load | apply appends_alloc | apply appends_edges_of
        | apply appends_bind; [|intros ?]
        | apply appends_for_each; intros ? ? ].
Lemma family_table_val_Some e cz arrs :
  length arrs = 12%nat -> is_Some (family_table_val e cz arrs).
Proof.
  intros Hlen.
  do 12 (destruct arrs as [|? arrs]; [done|]). destruct arrs; [|done].
  by eexists.
Qed.

Lemma axis_ok_later w w' fine coarse k :
  (forall l a, heap w !! l = Some a -> heap w' !! l = Some a) ->
  axis_ok w fine coarse k -> axis_ok w' fine coarse k.
Proof.
  intros Hpres (c & Ec & Hf). exists c. split; [by apply Hpres|].
  destruct fine as [lf|]; [|done]. destruct Hf as [f Hf]. exists f. by apply Hpres.
Qed.

Lemma fine_value_later (w w' : world) (fine : option nat) :
  (forall l a, heap w !! l = Some a -> heap w' !! l = Some a) ->
  (forall lf, fine = Some lf -> is_Some (heap w !! lf)) ->
  (fine ≫= fun lf => heap w' !! lf) = (fine ≫= fun lf => heap w !! lf).
Proof.
  intros Hpres Hf. destruct fine as [lf|]; [|done]. cbn [mbind option_bind].
  destruct (Hf lf eq_refl) as [f Ef]. rewrite Ef. by apply Hpres.
Qed.

Lemma axis_ok_fine_valid w fine coarse k :
  axis_ok w fine coarse k -> forall lf, fine = Some lf -> is_Some (heap w !! lf).
Proof. intros (c & _ & Hf) lf ->. done. Qed.

Lemma lookup_repeat {A} (x : A) n i :
  (i < n)%nat -> repeat x n !! i = Some x.
Proof.
  revert i. induction n as [|n IH]; intros i Hi; [lia|].
  destruct i as [|i]; [done|]. cbn. apply IH. lia.
Qed.

(** ** The base hook *)

Lemma bind_raises {A B} (m : M A) (k : A -> M B) w :
  (forall a w1, exists e w', k a w1 = (Raise e, w')) ->
  exists e w', bind m k w = (Raise e, w').
Proof.
  intros Hk. unfold bind. destruct (m w) as [[a|e] w1]; [apply Hk|eauto].
Qed.

(** Without an override, the table builder never hands back a table. *)
Lemma get_osc_probLT_dict_base_raises C self fe fcz k p w :
  fill_override C = None ->
  exists e w', get_osc_probLT_dict C self fe fcz k p w = (Raise e, w').
Proof.
  intros Hov. unfold get_osc_probLT_dict.
  do 5 (apply bind_raises; intros ? ?).
  unfold resolve_fill_osc_prob. rewrite Hov. unfold fill_osc_prob, raise. eauto.
Qed.

Lemma get_osc_prob_maps_base_raises C self kw w :
  fill_override C = None ->
  exists e w', get_osc_prob_maps C self kw w = (Raise e, w').
Proof.
  intros Hov. unfold get_osc_prob_maps.
  unfold bind at 1. unfold logging at 1. unfold bind at 1.
  destruct (get_osc_probLT_dict_base_raises C self (fine_ebins kw)
              (fine_czbins kw) (default default_oversample (oversample kw))
              (params kw)
              {| heap := heap w;
                 logs := logs w ++ [(INFO, "Retrieving finely binned maps")] |}
              Hov) as (e & w' & ->).
  eauto.
Qed.

(** On arguments that are in order, the call reaches the hook, and the
    base hook ends it there. *)
Lemma get_osc_prob_maps_base C self kw w :
  let k := default default_oversample (oversample kw) in
  fill_override C = None ->
  axis_ok w (fine_ebins kw) (ebins self) k ->
  axis_ok w (fine_czbins kw) (czbins self) k ->
  exists ext lg1 lg2,
    get_osc_prob_maps C self kw w
    = (Raise (NotImplementedError
                ("Method not implemented for " +:+ cls_name self)),
       {| heap := heap w ++ ext;
          logs := logs w ++ [(INFO, "Retrieving finely binned maps"); lg1; lg2] |}).
Proof.
  intros k Hov (c1 & Ec1 & Hf1) (c2 & Ec2 & Hf2).
  set (w0 := {| heap := heap w;
                logs := logs w ++ [(INFO, "Retrieving finely binned maps")] |}).
  destruct (check_oversampling_returns w0 (fine_ebins kw) (ebins self) c1 k Ec1 Hf1)
    as (le & ext1 & lg1 & a_e & Hrun1 & Hle & _).
  set (w1 := {| heap := heap w0 ++ ext1; logs := logs w0 ++ [lg1] |}) in *.
  destruct (check_oversampling_returns w1 (fine_czbins kw) (czbins self) c2 k)
    as (lcz & ext2 & lg2 & a_cz & Hrun2 & Hlcz & _).
  { by apply lookup_app_l_Some. }
  { destruct (fine_czbins kw) as [lf|]; [|done].
    destruct Hf2 as [f Hf]. exists f. by apply lookup_app_l_Some. }
  set (w2 := {| heap := heap w1 ++ ext2; logs := logs w1 ++ [lg2] |}) in *.
  assert (heap w2 !! le = Some a_e) as Hle2 by (by apply lookup_app_l_Some).
  pose proof (get_osc_probLT_dict_delegates C self _ _ k (params kw) w0
                le w1 lcz w2 a_e a_cz Hrun1 Hrun2 Hle2 Hlcz) as HLT.
  cbv zeta in HLT. unfold resolve_fill_osc_prob in HLT. rewrite Hov in HLT.
  unfold fill_osc_prob, raise in HLT.
  unfold get_osc_prob_maps.
  unfold bind at 1. unfold logging at 1. unfold bind at 1.
  fold w0. fold k. rewrite HLT.
  exists (ext1 ++ ext2
          ++ repeat (np_zeros [length (get_bin_centers (data a_e));
                               length (get_bin_centers (data a_cz))]) 12),
    lg1, lg2.
  subst w2 w1 w0. cbn [heap logs]. rewrite <- !app_assoc. reflexivity.
Qed.

(** ** Inversion of a computation that returns *)

Lemma bind_Ok {A B} (m : M A) (k : A -> M B) w b w' :
  bind m k w = (Ok b, w') ->
  exists a w1, m w = (Ok a, w1) /\ k a w1 = (Ok b, w').
Proof. unfold bind. destruct (m w) as [[a|e] w1]; [eauto|done]. Qed.

Lemma load_Ok l w a w' :
  load l w = (Ok a, w') -> heap w !! l = Some a /\ w' = w.
Proof. unfold load. destruct (heap w !! l); [|done]. by intros [= <- <-]. Qed.

Lemma edges_of_Ok fine_maps key x w w' :
  edges_of fine_maps key w = (Ok x, w') ->
  exists a arr,
    dict_get key fine_maps = Some (Edges a)
    /\ heap w !! a = Some arr /\ x = data arr /\ w' = w.
Proof.
  unfold edges_of. destruct (dict_get key fine_maps) as [[a|m]|]; [|done..].
  intros Hrun. apply bind_Ok in Hrun as (arr & w1 & Hl & Hret).
  apply load_Ok in Hl as [Hl ->]. injection Hret as <- <-. eauto 10.
Qed.

(** ** The call of the hook *)

(** Whatever its arguments, [check_oversampling] only adds arrays to the
    store. *)
Lemma check_oversampling_appends fine coarse k :
  appends (check_oversampling fine coarse k).
Proof.
  intros w. destruct (heap w !! coarse) as [c|] eqn:Ec.
  - destruct fine as [lf|].
    + destruct (heap w !! lf) as [f|] eqn:Ef.
      * rewrite (check_oversampling_Some w lf coarse f c k Ef Ec).
        exists []. rewrite app_nil_r.
        by destruct (is_coarser_binning (data c) (data f)).
      * exists []. rewrite app_nil_r.
        unfold check_oversampling, bind. rewrite (load_ok _ _ _ Ec).
        unfold load. by rewrite Ef.
    + rewrite (check_oversampling_None w coarse c k Ec). by eexists.
  - exists []. rewrite app_nil_r.
    unfold check_oversampling. destruct fine; unfold bind, load; by rewrite Ec.
Qed.

Lemma check_oversampling_grows fine coarse k w r w' :
  check_oversampling fine coarse k w = (r, w') ->
  exists ext, heap w' = heap w ++ ext.
Proof.
  intros Hrun. destruct (check_oversampling_appends fine coarse k w) as [ext Hext].
  rewrite Hrun in Hext. by exists ext.
Qed.

(** [get_osc_probLT_dict] ends with the call of the hook that
    [hook_call] describes. *)
Lemma hook_call_delegates C self kw w t ecen czcen w2 :
  hook_call self kw w t ecen czcen w2 ->
  get_osc_probLT_dict C self (fine_ebins kw) (fine_czbins kw)
    (default default_oversample (oversample kw)) (params kw)
    {| heap := heap w;
       logs := logs w ++ [(INFO, "Retrieving finely binned maps")] |}
  = resolve_fill_osc_prob C self t ecen czcen (params kw) w2.
Proof.
  unfold hook_call. cbv zeta.
  intros (le & w1 & lcz & w2' & e & cz & H1 & H2 & He & Hcz & -> & -> & -> & ->).
  by apply (get_osc_probLT_dict_delegates C self _ _ _ (params kw) _ le w1 lcz
              w2' e cz).
Qed.

(** When the table builder returns, it has made that call. *)
Lemma get_osc_probLT_dict_Ok C self kw w t' w3 :
  get_osc_probLT_dict C self (fine_ebins kw) (fine_czbins kw)
    (default default_oversample (oversample kw)) (params kw)
    {| heap := heap w;
       logs := logs w ++ [(INFO, "Retrieving finely binned maps")] |}
  = (Ok t', w3) ->
  exists t ecen czcen w2,
    hook_call self kw w t ecen czcen w2
    /\ resolve_fill_osc_prob C self t ecen czcen (params kw) w2 = (Ok t', w3).
Proof.
  intros Hrun. pose proof Hrun as Hrun0.
  unfold get_osc_probLT_dict in Hrun.
  apply bind_Ok in Hrun as (le & w1 & H1 & Hrun).
  apply bind_Ok in Hrun as (lcz & w2' & H2 & Hrun).
  apply bind_Ok in Hrun as (e & ? & He & Hrun). apply load_Ok in He as [He ->].
  apply bind_Ok in Hrun as (cz & ? & Hcz & _). apply load_Ok in Hcz as [Hcz ->].
  assert (hook_call self kw w (fresh_table le lcz (length (heap w2')))
            (get_bin_centers (data e)) (get_bin_centers (data cz))
            {| heap := heap w2'
                       ++ repeat (np_zeros [length (get_bin_centers (data e));
                                            length (get_bin_centers (data cz))])
                            12;
               logs := logs w2' |}) as Hcall.
  { exists le, w1, lcz, w2', e, cz. by repeat split. }
  eexists _, _, _, _. split; [exact Hcall|].
  by rewrite <- (hook_call_delegates C _ _ _ _ _ _ _ Hcall).
Qed.

(** The table of that call is made of new arrays, and every array that
    existed before is still there. *)
Lemma hook_call_table self kw w t ecen czcen w2 :
  hook_call self kw w t ecen czcen w2 ->
  (exists ext, heap w2 = heap w ++ ext)
  /\ valid_in w2 (table_locs t)
  /\ separate t
  /\ (forall l, l ∈ prob_locs t -> (length (heap w) <= l)%nat)
  /\ exists le lcz n, t = fresh_table le lcz n.
Proof.
  unfold hook_call. cbv zeta.
  intros (le & w1 & lcz & w2' & e & cz & H1 & H2 & He & Hcz & -> & -> & -> & ->).
  apply check_oversampling_grows in H1 as [ext1 Hext1]. cbn [heap] in Hext1.
  apply check_oversampling_grows in H2 as [ext2 Hext2].
  pose proof (lookup_lt_Some _ _ _ He) as Hle.
  pose proof (lookup_lt_Some _ _ _ Hcz) as Hlcz.
  cbn [heap]. split; [|split; [|split; [|split]]].
  - rewrite Hext2, Hext1, <- !app_assoc. by eexists.
  - unfold valid_in. rewrite table_locs_fresh. cbn [heap].
    rewrite length_app, repeat_length. cbn [map seq].
    repeat (apply Forall_cons; split; [lia|]). by constructor.
  - by apply separate_fresh.
  - intros l Hl. rewrite prob_locs_fresh in Hl.
    apply list_elem_of_fmap in Hl as (i & -> & _).
    rewrite Hext2, Hext1, !length_app. lia.
  - by eexists _, _, _.
Qed.

(** The values that go into that call are functions of the values of
    the arrays that go into [get_osc_prob_maps]. *)
Lemma hook_call_value self kw w t ecen czcen w2 e0 cz0 :
  let k := default default_oversample (oversample kw) in
  hook_call self kw w t ecen czcen w2 ->
  heap w !! ebins self = Some e0 ->
  heap w !! czbins self = Some cz0 ->
  (forall lf, fine_ebins kw = Some lf -> is_Some (heap w !! lf)) ->
  (forall lf, fine_czbins kw = Some lf -> is_Some (heap w !! lf)) ->
  exists a_e a_cz,
    fine_axis (fine_ebins kw ≫= fun lf => heap w !! lf) e0 k = Ok a_e
    /\ fine_axis (fine_czbins kw ≫= fun lf => heap w !! lf) cz0 k = Ok a_cz
    /\ ecen = get_bin_centers (data a_e)
    /\ czcen = get_bin_centers (data a_cz)
    /\ deref (heap w2) t
       = family_table_val a_e a_cz
           (repeat (np_zeros [length ecen; length czcen]) 12).
Proof.
  intros k. unfold hook_call. cbv zeta. fold k.
  intros (le & w1 & lcz & w2' & e & cz & H1 & H2 & He & Hcz & -> & -> & -> & ->)
    Ee Ecz Hfe Hfcz.
  set (w0 := {| heap := heap w;
                logs := logs w ++ [(INFO, "Retrieving finely binned maps")] |})
    in *.
  destruct (check_oversampling_value w0 (fine_ebins kw) (ebins self) e0 k Ee Hfe)
    as (ext1 & lg1 & Hw1 & Hr1).
  rewrite H1 in Hw1, Hr1. cbn [fst snd] in Hw1, Hr1. subst w1.
  change (heap w0) with (heap w) in *.
  destruct (fine_axis (fine_ebins kw ≫= _) e0 k) as [a_e|] eqn:Ha_e; [|done].
  destruct (check_oversampling_value
              {| heap := heap w ++ ext1; logs := logs w0 ++ [lg1] |}
              (fine_czbins kw) (czbins self) cz0 k)
    as (ext2 & lg2 & Hw2 & Hr2).
  { by apply lookup_app_l_Some. }
  { intros lf Hlf. destruct (Hfcz lf Hlf) as [f Hf]. exists f.
    by apply lookup_app_l_Some. }
  rewrite H2 in Hw2, Hr2. cbn [fst snd heap logs] in Hw2, Hr2. subst w2'.
  cbn [heap logs] in *.
  assert (fine_czbins kw ≫= (fun lf => (heap w ++ ext1) !! lf)
          = fine_czbins kw ≫= (fun lf => heap w !! lf)) as Hsame.
  { destruct (fine_czbins kw) as [lf|]; [|done]. cbn [mbind option_bind].
    destruct (Hfcz lf eq_refl) as [f Hf]. rewrite Hf.
    by apply lookup_app_l_Some. }
  rewrite Hsame in Hr2.
  destruct (fine_axis (fine_czbins kw ≫= _) cz0 k) as [a_cz|] eqn:Ha_cz; [|done].
  assert (e = a_e) as ->.
  { apply (lookup_app_l_Some _ ext2) in Hr1. congruence. }
  assert (cz = a_cz) as -> by congruence.
  exists a_e, a_cz. do 4 (split; [done|]).
  apply deref_fresh_table; [done..|]. by rewrite repeat_length.
Qed.

(** On arguments that are in order, the call is made. *)
Lemma hook_call_exists self kw w :
  let k := default default_oversample (oversample kw) in
  axis_ok w (fine_ebins kw) (ebins self) k ->
  axis_ok w (fine_czbins kw) (czbins self) k ->
  exists t ecen czcen w2, hook_call self kw w t ecen czcen w2.
Proof.
  intros k (c1 & Ec1 & Hf1) (c2 & Ec2 & Hf2).
  set (w0 := {| heap := heap w;
                logs := logs w ++ [(INFO, "Retrieving finely binned maps")] |}).
  destruct (check_oversampling_returns w0 (fine_ebins kw) (ebins self) c1 k Ec1 Hf1)
    as (le & ext1 & lg1 & a_e & Hrun1 & Hle & _).
  set (w1 := {| heap := heap w0 ++ ext1; logs := logs w0 ++ [lg1] |}) in *.
  destruct (check_oversampling_returns w1 (fine_czbins kw) (czbins self) c2 k)
    as (lcz & ext2 & lg2 & a_cz & Hrun2 & Hlcz & _).
  { by apply lookup_app_l_Some. }
  { destruct (fine_czbins kw) as [lf|]; [|done].
    destruct Hf2 as [f Hf]. exists f. by apply lookup_app_l_Some. }
  set (w2 := {| heap := heap w1 ++ ext2; logs := logs w1 ++ [lg2] |}) in *.
  assert (heap w2 !! le = Some a_e) as Hle2 by (by apply lookup_app_l_Some).
  eexists _, _, _, _. unfold hook_call. cbv zeta.
  exists le, w1, lcz, w2, a_e, a_cz. by repeat split.
Qed.

(** ** [get_osc_prob_maps], step by step *)

Lemma get_osc_prob_maps_unfold C self kw w :
  get_osc_prob_maps C self kw w
  = (let* fine_maps :=
       get_osc_probLT_dict C self (fine_ebins kw) (fine_czbins kw)
         (default default_oversample (oversample kw)) (params kw) in
     smoothing_pass self fine_maps)
      {| heap := heap w;
         logs := logs w ++ [(INFO, "Retrieving finely binned maps")] |}.
Proof. reflexivity. Qed.

(** A call that returns has called the hook, which has returned, and
    has smoothed the table of the hook. *)
Lemma get_osc_prob_maps_Ok C hk self kw w d w' :
  fill_override C = Some hk ->
  get_osc_prob_maps C self kw w = (Ok d, w') ->
  exists t ecen czcen w2 t' w3,
    hook_call self kw w t ecen czcen w2
    /\ hk self t ecen czcen (params kw) w2 = (Ok t', w3)
    /\ smoothing_pass self t' w3 = (Ok d, w').
Proof.
  intros Hov Hrun. rewrite get_osc_prob_maps_unfold in Hrun.
  apply bind_Ok in Hrun as (t' & w3 & HLT & Hpass).
  apply get_osc_probLT_dict_Ok in HLT as (t & ecen & czcen & w2 & Hcall & Hhook).
  unfold resolve_fill_osc_prob in Hhook. rewrite Hov in Hhook.
  by exists t, ecen, czcen, w2, t', w3.
Qed.

Lemma smooth_family_nil self fine_maps rebin from_nu acc w r w' :
  smooth_family self fine_maps rebin from_nu [] acc w = (r, w') ->
  r = Ok acc /\ w' = w.
Proof. by intros [= <- <-]. Qed.

Lemma smooth_family_cons self fine_maps rebin from_nu to_nu tomap rest acc w new w' :
  smooth_family self fine_maps rebin from_nu ((to_nu, tomap) :: rest) acc w
  = (Ok new, w') ->
  exists r w1,
    __smoothing_func self fine_maps rebin tomap
      {| heap := heap w;
         logs := logs w ++ [(DEBUG, "Getting smoothed map " +:+ from_nu
                                    +:+ "/" +:+ to_nu)] |}
    = (Ok r, w1)
    /\ smooth_family self fine_maps rebin from_nu rest (dict_set to_nu r acc) w1
       = (Ok new, w').
Proof.
  unfold smooth_family. cbn [for_each]. intros Hrun.
  apply bind_Ok in Hrun as (acc1 & w1 & Hbody & Hrest).
  apply bind_Ok in Hbody as ([] & w0 & Hlog & Hbody). injection Hlog as <-.
  apply bind_Ok in Hbody as (r & w1' & Hcall & Hret). injection Hret as <- <-.
  eauto.
Qed.

Lemma smooth_entry_Ok self fine_maps rebin from_nu ent acc w d w' :
  smooth_entry self fine_maps rebin (from_nu, ent) acc w = (Ok d, w') ->
  (contains "bins" from_nu = true /\ d = acc /\ w' = w)
  \/ (contains "bins" from_nu = false
      /\ exists tomaps new,
           ent = Maps tomaps
           /\ smooth_family self fine_maps rebin from_nu tomaps [] w = (Ok new, w')
           /\ d = dict_set from_nu (Maps new) acc).
Proof.
  unfold smooth_entry. destruct (contains "bins" from_nu).
  - intros [= <- <-]. by left.
  - destruct ent as [a|tomaps]; [done|]. intros Hrun. right. split; [done|].
    apply bind_Ok in Hrun as (new & w1 & Hfam & Hret). injection Hret as <- <-.
    by exists tomaps, new.
Qed.

Lemma for_each_cons_Ok {A S} (x : A) xs (body : A -> S -> M S) s w s' w' :
  for_each (x :: xs) body s w = (Ok s', w') ->
  exists s1 w1, body x s w = (Ok s1, w1) /\ for_each xs body s1 w1 = (Ok s', w').
Proof. cbn [for_each]. apply bind_Ok. Qed.

(** The steps of [smoothing_pass] before and after its loop. *)
Lemma smoothing_pass_Ok self t w d w' :
  smoothing_pass self t w = (Ok d, w') ->
  exists e cz a1 fe a2 fcz w1 w2,
    heap w !! ebins self = Some e
    /\ heap w !! czbins self = Some cz
    /\ dict_get "ebins" t = Some (Edges a1) /\ heap w !! a1 = Some fe
    /\ dict_get "czbins" t = Some (Edges a2) /\ heap w !! a2 = Some fcz
    /\ heap w1 = heap w
    /\ for_each t
         (smooth_entry self t (subbinning [data e; data cz] [data fe; data fcz]))
         [("ebins", Edges (ebins self)); ("czbins", Edges (czbins self))] w1
       = (Ok d, w2)
    /\ heap w' = heap w2.
Proof.
  unfold smoothing_pass. cbv zeta. intros Hrun.
  apply bind_Ok in Hrun as ([] & w0 & Hlog & Hrun). injection Hlog as <-.
  apply bind_Ok in Hrun as (e & ? & He & Hrun). apply load_Ok in He as [He ->].
  apply bind_Ok in Hrun as (cz & ? & Hcz & Hrun). apply load_Ok in Hcz as [Hcz ->].
  apply bind_Ok in Hrun as (? & ? & Hfe & Hrun).
  apply edges_of_Ok in Hfe as (a1 & fe & K1 & E1 & -> & ->).
  apply bind_Ok in Hrun as (? & ? & Hfcz & Hrun).
  apply edges_of_Ok in Hfcz as (a2 & fcz & K2 & E2 & -> & ->).
  apply bind_Ok in Hrun as ([] & w1 & Hm & Hrun).
  apply bind_Ok in Hrun as (d' & w2 & Hloop & Hfin).
  apply bind_Ok in Hfin as ([] & ? & Hlog & Hret). injection Hlog as <-.
  injection Hret as <- <-.
  cbn [heap] in *.
  exists e, cz, a1, fe, a2, fcz, w1, w2. do 6 (split; [done|]).
  split; [|split; [exact Hloop|done]].
  destruct (subbinning _ _) as [[|? ?]|]; by injection Hm as <-.
Qed.

(** ** What the call leaves as it is *)

Lemma appends_grows {A} (m : M A) w r w' :
  appends m -> m w = (r, w') -> exists ext, heap w' = heap w ++ ext.
Proof. intros Hm Hrun. destruct (Hm w) as [ext Hext]. rewrite Hrun in Hext. eauto. Qed.

Lemma allocates_appends m : allocates m -> appends m.
Proof.
  intros Hm w. destruct (m w) as [r w'] eqn:Hrun.
  destruct (Hm w r w' Hrun) as [[ext Hext] _]. by exists ext.
Qed.

Lemma appends_edge_array fine_maps key : appends (edge_array fine_maps key).
Proof.
  unfold edge_array. destruct (dict_get key fine_maps) as [[a|m]|]; appends_step.
Qed.

(** Under the contract of the strategies, [__smoothing_func] is one of
    the computations that return a new array. *)
Lemma smoothing_func_allocates self fine_maps rebin osc_map :
  strategies_allocate ->
  allocates (__smoothing_func self fine_maps rebin osc_map).
Proof.
  intros [Hr Hs]. unfold __smoothing_func.
  assert (allocates
            (let* fe := edge_array fine_maps "ebins" in
             let* fcz := edge_array fine_maps "czbins" in
             get_smoothed_map osc_map fe fcz (ebins self) (czbins self)))
    as Hfallback.
  { intros w r w'. unfold bind, edge_array.
    destruct (dict_get "ebins" fine_maps) as [[a1|?]|]; unfold raise, ret.
    2,3: intros [= <- <-]; split; [exists []; by rewrite app_nil_r|done].
    destruct (dict_get "czbins" fine_maps) as [[a2|?]|].
    2,3: intros [= <- <-]; split; [exists []; by rewrite app_nil_r|done].
    apply Hs. }
  destruct rebin as [[|ax axes]|]; [done|apply Hr|done].
Qed.

Lemma appends_smoothing_func self fine_maps rebin osc_map :
  strategies_allocate ->
  appends (__smoothing_func self fine_maps rebin osc_map).
Proof. intros Ha. by apply allocates_appends, smoothing_func_allocates. Qed.

Lemma appends_smooth_family self fine_maps rebin from_nu tomaps acc :
  strategies_allocate ->
  appends (smooth_family self fine_maps rebin from_nu tomaps acc).
Proof.
  intros Ha. unfold smooth_family. apply appends_for_each.
  intros [to_nu tomap] acc'.
  apply appends_bind; [apply appends_logging|intros _].
  apply appends_bind; [by apply appends_smoothing_func|intros r].
  apply appends_ret.
Qed.

Lemma appends_smooth_entry self fine_maps rebin item acc :
  strategies_allocate ->
  appends (smooth_entry self fine_maps rebin item acc).
Proof.
  intros Ha. destruct item as [from_nu ent]. unfold smooth_entry.
  destruct (contains "bins" from_nu); [apply appends_ret|].
  destruct ent as [a|tomaps]; [apply appends_raise|].
  apply appends_bind; [by apply appends_smooth_family|intros new].
  apply appends_ret.
Qed.

(** Once the fine table is there, [get_osc_prob_maps] only adds arrays
    to the store. *)
Lemma appends_smoothing_pass self t :
  strategies_allocate -> appends (smoothing_pass self t).
Proof.
  intros Ha. unfold smoothing_pass. cbv zeta.
  apply appends_bind; [apply appends_logging|intros _].
  apply appends_bind; [apply appends_load|intros e].
  apply appends_bind; [apply appends_load|intros cz].
  apply appends_bind; [apply appends_edges_of|intros fe].
  apply appends_bind; [apply appends_edges_of|intros fcz].
  apply appends_bind.
  { destruct (subbinning _ _) as [[|? ?]|];
      [apply appends_ret|apply appends_logging|apply appends_ret]. }
  intros _.
  apply appends_bind.
  { apply appends_for_each. intros item acc. by apply appends_smooth_entry. }
  intros d. apply appends_bind; [apply appends_logging|intros _].
  apply appends_ret.
Qed.

(** The table builder leaves every array it finds unchanged, when the
    hook writes into the probability arrays only. *)
Lemma get_osc_probLT_dict_frame C self fe fcz k p w r w' :
  fills_in_place (resolve_fill_osc_prob C) ->
  get_osc_probLT_dict C self fe fcz k p w = (r, w') ->
  forall l a, heap w !! l = Some a -> heap w' !! l = Some a.
Proof.
  intros Hfill Hrun l a El.
  destruct (check_oversampling fe (ebins self) k w) as [r1 w1] eqn:H1.
  destruct (check_oversampling_grows _ _ _ _ _ _ H1) as [ext1 Hext1].
  assert (heap w1 !! l = Some a) as El1.
  { rewrite Hext1. by apply lookup_app_l_Some. }
  destruct r1 as [le|err].
  2: { unfold get_osc_probLT_dict in Hrun. unfold bind at 1 in Hrun.
       rewrite H1 in Hrun. by injection Hrun as _ <-. }
  destruct (check_oversampling fcz (czbins self) k w1) as [r2 w2] eqn:H2.
  destruct (check_oversampling_grows _ _ _ _ _ _ H2) as [ext2 Hext2].
  assert (heap w2 !! l = Some a) as El2.
  { rewrite Hext2. by apply lookup_app_l_Some. }
  destruct r2 as [lcz|err].
  2: { unfold get_osc_probLT_dict in Hrun. unfold bind at 1 in Hrun.
       rewrite H1 in Hrun. unfold bind at 1 in Hrun.
       rewrite H2 in Hrun. by injection Hrun as _ <-. }
  destruct (heap w2 !! le) as [e|] eqn:He.
  2: { unfold get_osc_probLT_dict in Hrun. unfold bind at 1 in Hrun.
       rewrite H1 in Hrun. unfold bind at 1 in Hrun.
       rewrite H2 in Hrun. unfold bind at 1 in Hrun. unfold load at 1 in Hrun.
       rewrite He in Hrun. by injection Hrun as _ <-. }
  destruct (heap w2 !! lcz) as [cz|] eqn:Hcz.
  2: { unfold get_osc_probLT_dict in Hrun. unfold bind at 1 in Hrun.
       rewrite H1 in Hrun. unfold bind at 1 in Hrun.
       rewrite H2 in Hrun. unfold bind at 1 in Hrun.
       rewrite (load_ok _ _ _ He) in Hrun.
       unfold bind at 1 in Hrun. unfold load at 1 in Hrun.
       rewrite Hcz in Hrun. by injection Hrun as _ <-. }
  rewrite (get_osc_probLT_dict_delegates C self fe fcz k p w
             le w1 lcz w2 e cz H1 H2 He Hcz) in Hrun.
  apply (Hfill _ _ _ _ _ _ _ _ Hrun).
  - rewrite prob_locs_fresh. intros Hin.
    apply list_elem_of_fmap in Hin as (i & -> & _).
    apply lookup_lt_Some in El2. lia.
  - cbn [heap]. by apply lookup_app_l_Some.
Qed.

(** [get_osc_prob_maps] leaves every array it finds unchanged. *)
Lemma get_osc_prob_maps_frame C self kw w r w' :
  fills_in_place (resolve_fill_osc_prob C) ->
  strategies_allocate ->
  get_osc_prob_maps C self kw w = (r, w') ->
  forall l a, heap w !! l = Some a -> heap w' !! l = Some a.
Proof.
  intros Hfill Ha Hrun l a El.
  rewrite get_osc_prob_maps_unfold in Hrun. unfold bind in Hrun.
  destruct (get_osc_probLT_dict C self _ _ _ _ _) as [r3 w3] eqn:HLT.
  assert (heap w3 !! l = Some a) as El3.
  { by apply (get_osc_probLT_dict_frame _ _ _ _ _ _ _ _ _ Hfill HLT). }
  destruct r3 as [t'|err]; [|by injection Hrun as _ <-].
  destruct (appends_grows _ _ _ _ (appends_smoothing_pass self t' Ha) Hrun)
    as [ext ->].
  by apply lookup_app_l_Some.
Qed.

(** ** The shape of the table that comes back *)

Lemma dict_get_set_ne {V} k k' (v : V) d :
  k <> k' -> dict_get k (dict_set k' v d) = dict_get k d.
Proof.
  intros Hne.
  assert (String.eqb k k' = false) as Hkk by (by apply String.eqb_neq).
  induction d as [|[k0 v0] rest IH]; cbn [dict_set dict_get].
  - by rewrite Hkk.
  - destruct (String.eqb k' k0) eqn:E'; cbn [dict_get].
    + apply String.eqb_eq in E' as <-. by rewrite Hkk.
    + destruct (String.eqb k k0); [done|apply IH].
Qed.

Lemma dict_set_values {V} k (v : V) d x :
  x ∈ map snd (dict_set k v d) -> x = v \/ x ∈ map snd d.
Proof.
  induction d as [|[k0 v0] rest IH]; cbn [dict_set map snd].
  - intros Hx. apply elem_of_cons in Hx as [->|Hx]; [by left|by right].
  - destruct (String.eqb k k0); cbn [map snd]; intros Hx;
      apply elem_of_cons in Hx as [->|Hx].
    + by left.
    + right. by apply elem_of_cons; right.
    + right. by apply elem_of_cons; left.
    + destruct (IH Hx) as [->|Hin]; [by left|].
      right. by apply elem_of_cons; right.
Qed.

Lemma prob_locs_dict_set k m acc l :
  l ∈ prob_locs (dict_set k (Maps m) acc) ->
  l ∈ map snd m \/ l ∈ prob_locs acc.
Proof.
  unfold prob_locs.
  induction acc as [|[k0 e0] rest IH]; cbn [dict_set flat_map snd prob_entry_locs].
  - rewrite app_nil_r. by left.
  - destruct (String.eqb k k0); cbn [flat_map snd prob_entry_locs];
      rewrite !elem_of_app; intros [Hl|Hl]; auto.
    destruct (IH Hl); auto.
Qed.

(** The keys that contain [bins] keep the entry they have before the
    loop. *)
Lemma smooth_table_bins self fine_maps rebin t : forall acc w d w',
  for_each t (smooth_entry self fine_maps rebin) acc w = (Ok d, w') ->
  forall k, contains "bins" k = true -> dict_get k d = dict_get k acc.
Proof.
  induction t as [|[from_nu ent] rest IH]; intros acc w d w' Hrun k Hk.
  - by injection Hrun as <- _.
  - apply for_each_cons_Ok in Hrun as (acc1 & w1 & Hent & Hrest).
    rewrite (IH _ _ _ _ Hrest k Hk).
    apply smooth_entry_Ok in Hent
      as [(_ & -> & _)|(Hno & tomaps & new & _ & _ & ->)]; [done|].
    apply dict_get_set_ne. intros ->. congruence.
Qed.

(** Whatever the hook and the strategies do, a table that comes back
    holds the two array objects of the service. *)
Lemma smoothing_pass_axes self t w d w' :
  smoothing_pass self t w = (Ok d, w') ->
  dict_get "ebins" d = Some (Edges (ebins self))
  /\ dict_get "czbins" d = Some (Edges (czbins self)).
Proof.
  intros Hrun.
  apply smoothing_pass_Ok in Hrun
    as (e & cz & b1 & fe & b2 & fcz & w1 & w2 & _ & _ & _ & _ & _ & _ & _
        & Hloop & _).
  split; rewrite (smooth_table_bins _ _ _ _ _ _ _ _ Hloop) by (by vm_compute);
    reflexivity.
Qed.

Lemma smooth_family_three self fine_maps rebin from_nu k1 b1 k2 b2 k3 b3 w new w' :
  smooth_family self fine_maps rebin from_nu [(k1, b1); (k2, b2); (k3, b3)] [] w
  = (Ok new, w') ->
  exists o1 o2 o3, new = dict_set k3 o3 (dict_set k2 o2 (dict_set k1 o1 [])).
Proof.
  intros Hrun.
  apply smooth_family_cons in Hrun as (o1 & w1 & _ & Hrun).
  apply smooth_family_cons in Hrun as (o2 & w2 & _ & Hrun).
  apply smooth_family_cons in Hrun as (o3 & w3 & _ & Hrun).
  apply smooth_family_nil in Hrun as [Hnew _].
  exists o1, o2, o3. injection Hnew as Hnew. exact Hnew.
Qed.

(** On a table with the keys of the module, the loop builds a table
    with the keys of the module. *)
Lemma smooth_table_family self fine_maps rebin a1 a2 f1 f2 f3 f4 e0 c0 w d w' :
  for_each (family_table a1 a2 f1 f2 f3 f4) (smooth_entry self fine_maps rebin)
    [("ebins", Edges e0); ("czbins", Edges c0)] w
  = (Ok d, w') ->
  exists g1 g2 g3 g4, d = family_table e0 c0 g1 g2 g3 g4.
Proof.
  destruct f1 as [[b1 b2] b3], f2 as [[b4 b5] b6], f3 as [[b7 b8] b9],
    f4 as [[b10 b11] b12].
  unfold family_table. cbn [fst snd]. intros Hrun.
  apply for_each_cons_Ok in Hrun as (? & ? & Hent & Hrun).
  apply smooth_entry_Ok in Hent as [(_ & -> & ->)|(Hno & _)];
    [|by vm_compute in Hno].
  apply for_each_cons_Ok in Hrun as (? & ? & Hent & Hrun).
  apply smooth_entry_Ok in Hent as [(_ & -> & ->)|(Hno & _)];
    [|by vm_compute in Hno].
  do 4 (apply for_each_cons_Ok in Hrun as (? & ? & Hent & Hrun);
        apply smooth_entry_Ok in Hent
          as [(Hyes & _)|(_ & ? & ? & [= <-] & Hfam & ->)];
        [by vm_compute in Hyes|];
        apply smooth_family_three in Hfam as (? & ? & ? & ->)).
  injection Hrun as <- _.
  eexists (_, _, _), (_, _, _), (_, _, _), (_, _, _). cbn [fst snd].
  reflexivity.
Qed.

Lemma smoothing_pass_family self a1 a2 f1 f2 f3 f4 w d w' :
  smoothing_pass self (family_table a1 a2 f1 f2 f3 f4) w = (Ok d, w') ->
  exists g1 g2 g3 g4, d = family_table (ebins self) (czbins self) g1 g2 g3 g4.
Proof.
  intros Hrun.
  apply smoothing_pass_Ok in Hrun
    as (e & cz & b1 & fe & b2 & fcz & w1 & w2 & _ & _ & _ & _ & _ & _ & _
        & Hloop & _).
  by apply smooth_table_family in Hloop.
Qed.

(** ** New arrays *)

Lemma smooth_family_fresh self fine_maps rebin from_nu :
  strategies_allocate ->
  forall tomaps acc w new w',
    smooth_family self fine_maps rebin from_nu tomaps acc w = (Ok new, w') ->
    (length (heap w) <= length (heap w'))%nat
    /\ forall l, l ∈ map snd new ->
         l ∈ map snd acc \/ (length (heap w) <= l < length (heap w'))%nat.
Proof.
  intros Ha. induction tomaps as [|[to_nu tomap] rest IH]; intros acc w new w' Hrun.
  - apply smooth_family_nil in Hrun as [[= <-] ->]. split; [done|]. by left.
  - apply smooth_family_cons in Hrun as (r & w1 & Hcall & Hrest).
    destruct (smoothing_func_allocates self fine_maps rebin tomap Ha _ _ _ Hcall)
      as [[ext Hext] Hnew].
    specialize (Hnew r eq_refl). cbn [heap] in Hext, Hnew.
    destruct (IH _ _ _ _ Hrest) as [Hgrow Hin].
    split; [lia|]. intros l Hl. destruct (Hin l Hl) as [Hacc|Hrange].
    + apply dict_set_values in Hacc as [->|Hacc]; [right; lia|by left].
    + right. lia.
Qed.

Lemma smooth_table_fresh self fine_maps rebin :
  strategies_allocate ->
  forall t acc w d w',
    for_each t (smooth_entry self fine_maps rebin) acc w = (Ok d, w') ->
    (length (heap w) <= length (heap w'))%nat
    /\ forall l, l ∈ prob_locs d ->
         l ∈ prob_locs acc \/ (length (heap w) <= l < length (heap w'))%nat.
Proof.
  intros Ha. induction t as [|[from_nu ent] rest IH]; intros acc w d w' Hrun.
  - injection Hrun as <- <-. split; [done|]. by left.
  - apply for_each_cons_Ok in Hrun as (acc1 & w1 & Hent & Hrest).
    destruct (IH _ _ _ _ Hrest) as [Hgrow Hin].
    apply smooth_entry_Ok in Hent
      as [(_ & -> & ->)|(_ & tomaps & new & _ & Hfam & ->)]; [done|].
    destruct (smooth_family_fresh self fine_maps rebin from_nu Ha _ _ _ _ _ Hfam)
      as [Hgrow1 Hnew].
    split; [lia|]. intros l Hl. destruct (Hin l Hl) as [Hacc|Hrange].
    + apply prob_locs_dict_set in Hacc as [Hm|Hacc]; [|by left].
      destruct (Hnew l Hm) as [Hnil|Hrange]; [by apply elem_of_nil in Hnil|].
      right. lia.
    + right. lia.
Qed.

(** Under the contract of the strategies, every map of a table that
    comes back is an array added to the store by the smoothing. *)
Lemma smoothing_pass_fresh self t w d w' :
  strategies_allocate ->
  smoothing_pass self t w = (Ok d, w') ->
  forall l, l ∈ prob_locs d -> (length (heap w) <= l < length (heap w'))%nat.
Proof.
  intros Ha Hrun l Hl.
  apply smoothing_pass_Ok in Hrun
    as (e & cz & b1 & fe & b2 & fcz & w1 & w2 & _ & _ & _ & _ & _ & _ & Hw1
        & Hloop & Hw2).
  destruct (smooth_table_fresh _ _ _ Ha _ _ _ _ _ Hloop) as [_ Hin].
  rewrite Hw2, <- Hw1.
  destruct (Hin l Hl) as [Hnil|Hrange]; [|done].
  cbn in Hnil. by apply elem_of_nil in Hnil.
Qed.

(** ** The values of the table that comes back *)

Lemma deref_app h ext t tv :
  deref h t = Some tv -> deref (h ++ ext) t = Some tv.
Proof.
  revert tv. induction t as [|[k e] rest IH]; intros tv; [done|].
  cbn [deref]. destruct (deref_entry h e) as [v|] eqn:He; [|done].
  destruct (deref h rest) as [rest'|]; [|done]. intros [= <-].
  rewrite (IH _ eq_refl).
  assert (deref_entry (h ++ ext) e = Some v) as ->; [|done].
  destruct e as [a|m]; cbn [deref_entry] in *.
  - destruct (h !! a) eqn:Ea; [|done]. by rewrite (lookup_app_l_Some _ _ _ _ Ea).
  - destruct (deref_maps h m) eqn:Em; [|done].
    by rewrite (deref_maps_app _ _ _ _ Em).
Qed.

Lemma deref_maps_dict_set h acc accv k l a :
  deref_maps h acc = Some accv ->
  h !! l = Some a ->
  deref_maps h (dict_set k l acc) = Some (dict_set k a accv).
Proof.
  revert accv. induction acc as [|[k0 l0] rest IH]; intros accv.
  - intros [= <-] Hl. cbn [dict_set deref_maps]. by rewrite Hl.
  - cbn [deref_maps]. destruct (h !! l0) as [a0|] eqn:E0; [|done].
    destruct (deref_maps h rest) as [rest'|] eqn:Er; [|done]. intros [= <-] Hl.
    cbn [dict_set]. destruct (String.eqb k k0); cbn [deref_maps].
    + by rewrite Hl, Er.
    + by rewrite E0, (IH _ eq_refl Hl).
Qed.

Lemma deref_dict_set h acc accv k e ev :
  deref h acc = Some accv ->
  deref_entry h e = Some ev ->
  deref h (dict_set k e acc) = Some (dict_set k ev accv).
Proof.
  revert accv. induction acc as [|[k0 e0] rest IH]; intros accv.
  - intros [= <-] He. cbn [dict_set deref]. by rewrite He.
  - cbn [deref]. destruct (deref_entry h e0) as [v0|] eqn:E0; [|done].
    destruct (deref h rest) as [rest'|] eqn:Er; [|done]. intros [= <-] He.
    cbn [dict_set]. destruct (String.eqb k k0); cbn [deref].
    + by rewrite He, Er.
    + by rewrite E0, (IH _ eq_refl He).
Qed.

Lemma deref_dict_get h t tv k :
  deref h t = Some tv ->
  match dict_get k t with
  | Some e => exists ev, dict_get k tv = Some ev /\ deref_entry h e = Some ev
  | None => dict_get k tv = None
  end.
Proof.
  revert tv. induction t as [|[k0 e0] rest IH]; intros tv.
  - by intros [= <-].
  - cbn [deref]. destruct (deref_entry h e0) as [v0|] eqn:E0; [|done].
    destruct (deref h rest) as [rest'|] eqn:Er; [|done]. intros [= <-].
    cbn [dict_get]. destruct (String.eqb k k0); [by exists v0|].
    by apply IH.
Qed.

(** Under the contract of the strategies, [__smoothing_func] hands back
    an array that holds [smoothed] of the value of the fine map. *)
Lemma smoothing_func_value self fine_maps rebin osc_map w l w' m e cz a1 fe a2 fcz :
  strategies_compute ->
  heap w !! ebins self = Some e ->
  heap w !! czbins self = Some cz ->
  dict_get "ebins" fine_maps = Some (Edges a1) ->
  heap w !! a1 = Some fe ->
  dict_get "czbins" fine_maps = Some (Edges a2) ->
  heap w !! a2 = Some fcz ->
  heap w !! osc_map = Some m ->
  __smoothing_func self fine_maps rebin osc_map w = (Ok l, w') ->
  heap w' !! l
  = Some (smoothed rebin (data fe) (data fcz) (data e) (data cz) m).
Proof.
  intros [Hr Hs] Ee Ecz K1 E1 K2 E2 Em. unfold __smoothing_func, smoothed.
  destruct rebin as [[|ax axes]|].
  2: { intros Hrun. by apply (Hr _ _ _ _ _ _ Em Hrun). }
  all: unfold bind, edge_array; rewrite K1, K2; unfold ret; intros Hrun;
    by apply (Hs _ _ _ _ _ _ _ _ _ _ _ _ _ Em E1 E2 Ee Ecz Hrun).
Qed.

Section smoothing_values.
Variables (self : service) (fine_maps : table) (rebin : option rebin_info).
Variables (e cz fe fcz : ndarray) (a1 a2 : nat).
Hypothesis Ha : strategies_allocate.
Hypothesis Hc : strategies_compute.
Hypothesis K1 : dict_get "ebins" fine_maps = Some (Edges a1).
Hypothesis K2 : dict_get "czbins" fine_maps = Some (Edges a2).

Let f := smoothed rebin (data fe) (data fcz) (data e) (data cz).

Let axes_in (w : world) : Prop :=
  heap w !! ebins self = Some e /\ heap w !! czbins self = Some cz
  /\ heap w !! a1 = Some fe /\ heap w !! a2 = Some fcz.

Lemma axes_in_later w w' ext :
  heap w' = heap w ++ ext -> axes_in w -> axes_in w'.
Proof.
  intros Hext (Ee & Ecz & E1 & E2). unfold axes_in. rewrite Hext.
  repeat split; by apply lookup_app_l_Some.
Qed.

Lemma smooth_family_value from_nu : forall tomaps acc w new w' ms accv,
  axes_in w ->
  deref_maps (heap w) tomaps = Some ms ->
  deref_maps (heap w) acc = Some accv ->
  smooth_family self fine_maps rebin from_nu tomaps acc w = (Ok new, w') ->
  (exists ext, heap w' = heap w ++ ext)
  /\ deref_maps (heap w') new = Some (smoothed_maps_val f ms accv).
Proof.
  induction tomaps as [|[to_nu tomap] rest IH];
    intros acc w new w' ms accv Hax Hms Hacc Hrun.
  - apply smooth_family_nil in Hrun as [[= <-] ->]. injection Hms as <-.
    split; [exists []; by rewrite app_nil_r|done].
  - cbn [deref_maps] in Hms. destruct (heap w !! tomap) as [m|] eqn:Em; [|done].
    destruct (deref_maps (heap w) rest) as [ms'|] eqn:Hrest; [|done].
    injection Hms as <-.
    apply smooth_family_cons in Hrun as (r & w1 & Hcall & Hloop).
    destruct (smoothing_func_allocates self fine_maps rebin tomap Ha _ _ _ Hcall)
      as [[ext Hext] _].
    cbn [heap] in Hext.
    destruct Hax as (Ee & Ecz & E1 & E2).
    pose proof (smoothing_func_value self fine_maps rebin tomap
                  {| heap := heap w;
                     logs := logs w
                             ++ [(DEBUG, "Getting smoothed map " +:+ from_nu
                                         +:+ "/" +:+ to_nu)] |}
                  r w1 m e cz a1 fe a2 fcz Hc Ee Ecz K1 E1 K2 E2 Em Hcall) as Hr.
    fold f in Hr.
    destruct (IH (dict_set to_nu r acc) w1 new w' ms' (dict_set to_nu (f m) accv))
      as [[ext' Hext'] Hnew].
    + by apply (axes_in_later w w1 ext).
    + rewrite Hext. by apply deref_maps_app.
    + apply deref_maps_dict_set; [|done]. rewrite Hext. by apply deref_maps_app.
    + done.
    + split; [|done]. exists (ext ++ ext'). by rewrite Hext', Hext, app_assoc.
Qed.

Lemma smooth_table_value : forall t acc w d w' tv accv,
  axes_in w ->
  deref (heap w) t = Some tv ->
  deref (heap w) acc = Some accv ->
  for_each t (smooth_entry self fine_maps rebin) acc w = (Ok d, w') ->
  (exists ext, heap w' = heap w ++ ext)
  /\ exists v, smoothed_table_val f tv accv = Ok v /\ deref (heap w') d = Some v.
Proof.
  induction t as [|[from_nu ent] rest IH];
    intros acc w d w' tv accv Hax Htv Hacc Hrun.
  - injection Hrun as <- <-. injection Htv as <-.
    split; [exists []; by rewrite app_nil_r|]. by exists accv.
  - cbn [deref] in Htv.
    destruct (deref_entry (heap w) ent) as [ev|] eqn:Hent; [|done].
    destruct (deref (heap w) rest) as [tv'|] eqn:Hrest; [|done].
    injection Htv as <-.
    apply for_each_cons_Ok in Hrun as (acc1 & w1 & Hentry & Hloop).
    cbn [smoothed_table_val].
    apply smooth_entry_Ok in Hentry
      as [(Hyes & -> & ->)|(Hno & tomaps & new & -> & Hfam & ->)].
    + rewrite Hyes. by apply (IH acc w d w' tv' accv).
    + rewrite Hno. cbn [deref_entry] in Hent.
      destruct (deref_maps (heap w) tomaps) as [ms|] eqn:Hms; [|done].
      injection Hent as <-.
      destruct (smooth_family_value from_nu tomaps [] w new w1 ms [] Hax Hms
                  eq_refl Hfam) as [[ext Hext] Hnew].
      destruct (IH (dict_set from_nu (Maps new) acc) w1 d w' tv'
                  (dict_set from_nu (MapsV (smoothed_maps_val f ms [])) accv))
        as [[ext' Hext'] Hv].
      * by apply (axes_in_later w w1 ext).
      * rewrite Hext. by apply deref_app.
      * apply deref_dict_set; [rewrite Hext; by apply deref_app|].
        cbn [deref_entry]. by rewrite Hnew.
      * done.
      * split; [|done]. exists (ext ++ ext'). by rewrite Hext', Hext, app_assoc.
Qed.

End smoothing_values.

(** Under the contract of the strategies, the value of a table that
    comes back is [smoothed_table_val] of the value of the table of the
    hook. *)
Lemma smoothing_pass_value self t w d w' tv :
  strategies_allocate ->
  strategies_compute ->
  deref (heap w) t = Some tv ->
  smoothing_pass self t w = (Ok d, w') ->
  exists e cz fe fcz v,
    heap w !! ebins self = Some e
    /\ heap w !! czbins self = Some cz
    /\ dict_get "ebins" tv = Some (EdgesV fe)
    /\ dict_get "czbins" tv = Some (EdgesV fcz)
    /\ smoothed_table_val
         (smoothed (subbinning [data e; data cz] [data fe; data fcz])
            (data fe) (data fcz) (data e) (data cz))
         tv [("ebins", EdgesV e); ("czbins", EdgesV cz)]
       = Ok v
    /\ deref (heap w') d = Some v.
Proof.
  intros Ha Hc Htv Hrun.
  apply smoothing_pass_Ok in Hrun
    as (e & cz & a1 & fe & a2 & fcz & w1 & w2 & Ee & Ecz & K1 & E1 & K2 & E2
        & Hw1 & Hloop & Hw2).
  pose proof (deref_dict_get _ _ _ "ebins" Htv) as G1. rewrite K1 in G1.
  destruct G1 as (ev1 & G1 & D1). cbn [deref_entry] in D1. rewrite E1 in D1.
  injection D1 as <-.
  pose proof (deref_dict_get _ _ _ "czbins" Htv) as G2. rewrite K2 in G2.
  destruct G2 as (ev2 & G2 & D2). cbn [deref_entry] in D2. rewrite E2 in D2.
  injection D2 as <-.
  destruct (smooth_table_value self t
              (subbinning [data e; data cz] [data fe; data fcz])
              e cz fe fcz a1 a2 Ha Hc K1 K2 t
              [("ebins", Edges (ebins self)); ("czbins", Edges (czbins self))]
              w1 d w2 tv [("ebins", EdgesV e); ("czbins", EdgesV cz)])
    as [_ (v & Hv & Hd)].
  - rewrite Hw1. done.
  - by rewrite Hw1.
  - rewrite Hw1. cbn [deref deref_entry]. by rewrite Ee, Ecz.
  - exact Hloop.
  - exists e, cz, fe, fcz, v. rewrite Hw2. done.
Qed.

(** ** When the call returns *)

Lemma valid_in_later w w' ext ls :
  heap w' = heap w ++ ext -> valid_in w ls -> valid_in w' ls.
Proof.
  intros Hext Hv. unfold valid_in in *. eapply Forall_impl; [exact Hv|].
  intros l Hl. cbn beta in *. rewrite Hext, length_app. lia.
Qed.

Lemma valid_in_lookup w l ls :
  valid_in w ls -> l ∈ ls -> is_Some (heap w !! l).
Proof.
  intros Hv Hl. apply lookup_lt_is_Some.
  unfold valid_in in Hv. rewrite Forall_forall in Hv. by apply Hv.
Qed.

Lemma smoothing_func_returns self fine_maps rebin osc_map w a1 a2 :
  strategies_return ->
  dict_get "ebins" fine_maps = Some (Edges a1) ->
  dict_get "czbins" fine_maps = Some (Edges a2) ->
  valid_in w [osc_map; a1; a2; ebins self; czbins self] ->
  exists l w', __smoothing_func self fine_maps rebin osc_map w = (Ok l, w').
Proof.
  intros [Hr Hs] K1 K2 Hv.
  assert (forall l, l ∈ [osc_map; a1; a2; ebins self; czbins self] ->
                    is_Some (heap w !! l)) as Hl.
  { intros l. by apply valid_in_lookup. }
  unfold __smoothing_func.
  destruct rebin as [[|ax axes]|].
  2: { apply Hr, Hl. rewrite ?elem_of_cons; auto 10. }
  all: unfold bind, edge_array; rewrite K1, K2; unfold ret;
    apply Hs; apply Hl; rewrite ?elem_of_cons; auto 10.
Qed.

Lemma smooth_family_step self fine_maps rebin from_nu to_nu tomap rest acc w :
  smooth_family self fine_maps rebin from_nu ((to_nu, tomap) :: rest) acc w
  = match __smoothing_func self fine_maps rebin tomap
            {| heap := heap w;
               logs := logs w ++ [(DEBUG, "Getting smoothed map " +:+ from_nu
                                          +:+ "/" +:+ to_nu)] |} with
    | (Ok r, w1) =>
        smooth_family self fine_maps rebin from_nu rest (dict_set to_nu r acc) w1
    | (Raise err, w1) => (Raise err, w1)
    end.
Proof.
  unfold smooth_family. cbn [for_each]. unfold bind, logging, ret.
  by destruct (__smoothing_func _ _ _ _ _) as [[r|err] w1].
Qed.

Lemma smooth_entry_bins self fine_maps rebin from_nu ent acc w :
  contains "bins" from_nu = true ->
  smooth_entry self fine_maps rebin (from_nu, ent) acc w = (Ok acc, w).
Proof. intros Hk. unfold smooth_entry. by rewrite Hk. Qed.

Lemma smooth_entry_maps self fine_maps rebin from_nu tomaps acc w :
  contains "bins" from_nu = false ->
  smooth_entry self fine_maps rebin (from_nu, Maps tomaps) acc w
  = match smooth_family self fine_maps rebin from_nu tomaps [] w with
    | (Ok new, w1) => (Ok (dict_set from_nu (Maps new) acc), w1)
    | (Raise err, w1) => (Raise err, w1)
    end.
Proof.
  intros Hk. unfold smooth_entry. rewrite Hk. unfold bind, ret.
  by destruct (smooth_family _ _ _ _ _ _ _) as [[new|err] w1].
Qed.

Section smoothing_returns.
Variables (self : service) (fine_maps : table) (rebin : option rebin_info).
Variables (a1 a2 : nat).
Hypothesis Ha : strategies_allocate.
Hypothesis Hret : strategies_return.
Hypothesis K1 : dict_get "ebins" fine_maps = Some (Edges a1).
Hypothesis K2 : dict_get "czbins" fine_maps = Some (Edges a2).

Lemma smooth_family_returns from_nu : forall tomaps acc w,
  valid_in w (map snd tomaps) ->
  valid_in w [a1; a2; ebins self; czbins self] ->
  exists new w',
    smooth_family self fine_maps rebin from_nu tomaps acc w = (Ok new, w')
    /\ exists ext, heap w' = heap w ++ ext.
Proof.
  induction tomaps as [|[to_nu tomap] rest IH]; intros acc w Hv Hax.
  - exists acc, w. split; [done|]. exists []. by rewrite app_nil_r.
  - cbn [map snd] in Hv. apply Forall_cons in Hv as [Hl Hv].
    rewrite smooth_family_step.
    destruct (smoothing_func_returns self fine_maps rebin tomap
                {| heap := heap w;
                   logs := logs w ++ [(DEBUG, "Getting smoothed map " +:+ from_nu
                                              +:+ "/" +:+ to_nu)] |}
                a1 a2 Hret K1 K2) as (r & w1 & Hcall).
    { apply Forall_cons. split; [exact Hl|exact Hax]. }
    rewrite Hcall.
    destruct (smoothing_func_allocates self fine_maps rebin tomap Ha _ _ _ Hcall)
      as [[ext Hext] _].
    cbn [heap] in Hext.
    destruct (IH (dict_set to_nu r acc) w1) as (new & w' & Hrun & ext' & Hext').
    + by apply (valid_in_later w w1 ext).
    + by apply (valid_in_later w w1 ext).
    + exists new, w'. split; [done|]. exists (ext ++ ext').
      by rewrite Hext', Hext, app_assoc.
Qed.

Lemma smooth_table_returns : forall t acc w,
  Forall (fun kv => contains "bins" (fst kv) = true \/ exists m, snd kv = Maps m) t ->
  valid_in w (prob_locs t) ->
  valid_in w [a1; a2; ebins self; czbins self] ->
  exists d w', for_each t (smooth_entry self fine_maps rebin) acc w = (Ok d, w').
Proof.
  induction t as [|[from_nu ent] rest IH]; intros acc w Hshape Hv Hax.
  - by exists acc, w.
  - apply Forall_cons in Hshape as [Hent Hshape]. cbn [fst snd] in Hent.
    unfold valid_in, prob_locs in Hv. cbn [flat_map snd] in Hv.
    apply Forall_app in Hv as [Hv1 Hv].
    cbn [for_each]. unfold bind at 1.
    destruct (contains "bins" from_nu) eqn:Hk.
    + rewrite smooth_entry_bins by done. by apply IH.
    + destruct Hent as [?|[m ->]]; [done|].
      rewrite smooth_entry_maps by done.
      destruct (smooth_family_returns from_nu m [] w Hv1 Hax)
        as (new & w1 & -> & ext & Hext).
      apply IH; [done|by apply (valid_in_later w w1 ext)..].
Qed.

End smoothing_returns.

(** On a table of the hook whose entries are in order, the smoothing
    returns, when the strategies return. *)
Lemma smoothing_pass_returns self t w a1 a2 :
  strategies_allocate ->
  strategies_return ->
  dict_get "ebins" t = Some (Edges a1) ->
  dict_get "czbins" t = Some (Edges a2) ->
  Forall (fun kv => contains "bins" (fst kv) = true \/ exists m, snd kv = Maps m) t ->
  valid_in w (prob_locs t) ->
  valid_in w [a1; a2; ebins self; czbins self] ->
  exists d w', smoothing_pass self t w = (Ok d, w').
Proof.
  intros Ha Hret K1 K2 Hshape Hv Hax.
  destruct (valid_in_lookup w a1 _ Hax ltac:(rewrite ?elem_of_cons; auto 10)) as [fe E1].
  destruct (valid_in_lookup w a2 _ Hax ltac:(rewrite ?elem_of_cons; auto 10)) as [fcz E2].
  destruct (valid_in_lookup w (ebins self) _ Hax ltac:(rewrite ?elem_of_cons; auto 10)) as [e Ee].
  destruct (valid_in_lookup w (czbins self) _ Hax ltac:(rewrite ?elem_of_cons; auto 10)) as [cz Ecz].
  unfold smoothing_pass. cbv zeta.
  unfold bind at 1. unfold logging at 1.
  unfold bind at 1. rewrite load_ok with (a := e) by done.
  unfold bind at 1. rewrite load_ok with (a := cz) by done.
  unfold bind at 1. rewrite edges_of_ok with (a := a1) (x := fe) by done.
  unfold bind at 1. rewrite edges_of_ok with (a := a2) (x := fcz) by done.
  set (rebin := subbinning _ _).
  set (w0 := {| heap := heap w;
                logs := logs w ++ [(INFO, "Smoothing fine maps...")] |}).
  unfold bind at 1.
  assert (exists w1, (match rebin with
                      | Some (_ :: _) =>
                          logging DEBUG ("Coarse map is true submap of fine map, "
                                         +:+ "using numpy array magic for smoothing.")
                      | _ => ret tt
                      end) w0 = (Ok tt, w1) /\ heap w1 = heap w)
    as (w1 & -> & Hw1).
  { destruct rebin as [[|? ?]|]; eexists; split; reflexivity. }
  destruct (smooth_table_returns self t rebin a1 a2 Ha Hret K1 K2 t
              (dict_set "czbins" (Edges (czbins self))
                 (dict_set "ebins" (Edges (ebins self)) [])) w1)
    as (d & w2 & Hloop).
  - done.
  - unfold valid_in. by rewrite Hw1.
  - unfold valid_in. by rewrite Hw1.
  - unfold bind at 1. rewrite Hloop. by eexists _, _.
Qed.

(** ** The whole call *)

(** The call returns what the smoothing returns on the table of the
    hook. *)
Lemma get_osc_prob_maps_returns C hk self kw w t ecen czcen w2 t' w3 :
  fill_override C = Some hk ->
  hook_call self kw w t ecen czcen w2 ->
  hk self t ecen czcen (params kw) w2 = (Ok t', w3) ->
  get_osc_prob_maps C self kw w = smoothing_pass self t' w3.
Proof.
  intros Hov Hcall Hhook.
  rewrite get_osc_prob_maps_unfold. unfold bind at 1.
  rewrite (hook_call_delegates C self kw w t ecen czcen w2 Hcall).
  unfold resolve_fill_osc_prob. by rewrite Hov, Hhook.
Qed.

Lemma family_table_shape a1 a2 f1 f2 f3 f4 :
  Forall (fun kv : string * entry =>
            contains "bins" (fst kv) = true \/ exists m, snd kv = Maps m)
    (family_table a1 a2 f1 f2 f3 f4).
Proof.
  unfold family_table. repeat apply Forall_cons_2; try apply Forall_nil_2.
  1,2: by left.
  all: right; by eexists.
Qed.

(** What the hook leaves of the arrays that existed before the call. *)
Lemma hook_call_frame hk self kw w t ecen czcen w2 r w3 :
  fills_in_place hk ->
  hook_call self kw w t ecen czcen w2 ->
  hk self t ecen czcen (params kw) w2 = (r, w3) ->
  forall l a, heap w !! l = Some a -> heap w3 !! l = Some a.
Proof.
  intros Hfill Hcall Hhook l a El.
  destruct (hook_call_table self kw w t ecen czcen w2 Hcall)
    as ([ext Hext] & _ & _ & Hnew & _).
  apply (Hfill _ _ _ _ _ _ _ _ Hhook).
  - intros Hin. apply Hnew in Hin. apply lookup_lt_Some in El. lia.
  - rewrite Hext. by apply lookup_app_l_Some.
Qed.

(** The call returns when its arguments are in order, the hook returns a
    table with the keys of its own whose arrays exist, and the
    strategies return. *)
Lemma get_osc_prob_maps_total C hk self kw w :
  let k := default default_oversample (oversample kw) in
  fill_override C = Some hk ->
  fills_in_place hk ->
  strategies_allocate ->
  strategies_return ->
  axis_ok w (fine_ebins kw) (ebins self) k ->
  axis_ok w (fine_czbins kw) (czbins self) k ->
  (forall t ecen czcen w2,
      hook_call self kw w t ecen czcen w2 ->
      exists t' w3,
        hk self t ecen czcen (params kw) w2 = (Ok t', w3)
        /\ same_keys t t'
        /\ valid_in w3 (table_locs t')) ->
  exists d w', get_osc_prob_maps C self kw w = (Ok d, w').
Proof.
  intros k Hov Hfill Ha Hret Hok1 Hok2 Hhk.
  destruct (hook_call_exists self kw w Hok1 Hok2)
    as (t & ecen & czcen & w2 & Hcall).
  destruct (Hhk t ecen czcen w2 Hcall) as (t' & w3 & Hhook & Hsame & Hvalid).
  rewrite (get_osc_prob_maps_returns C hk self kw w t ecen czcen w2 t' w3
             Hov Hcall Hhook).
  pose proof (hook_call_frame hk self kw w t ecen czcen w2 _ w3 Hfill Hcall Hhook)
    as Hframe.
  destruct (hook_call_table self kw w t ecen czcen w2 Hcall)
    as (_ & _ & _ & _ & le & lcz & n & ->).
  apply same_keys_family in Hsame as (a1 & a2 & f1 & f2 & f3 & f4 & ->).
  destruct Hok1 as (c1 & Ec1 & _). destruct Hok2 as (c2 & Ec2 & _).
  apply Hframe in Ec1, Ec2.
  unfold valid_in, table_locs, family_table in Hvalid.
  cbn [flat_map snd entry_locs map app] in Hvalid.
  apply Forall_cons in Hvalid as [Hv1 Hvalid].
  apply Forall_cons in Hvalid as [Hv2 Hvalid].
  apply (smoothing_pass_returns self _ w3 a1 a2 Ha Hret).
  - reflexivity.
  - reflexivity.
  - apply family_table_shape.
  - exact Hvalid.
  - repeat apply Forall_cons_2; try apply Forall_nil_2; try done.
    all: by eapply lookup_lt_Some.
Qed.

(** The value of the table a call returns, from the values of the axes
    of the service and of the fine edges: the hook computes [phi] on the
    table of zeros, and the smoothing works on what the hook returns. *)
Lemma get_osc_prob_maps_value C hk phi self kw w e cz d w' :
  let k := default default_oversample (oversample kw) in
  fill_override C = Some hk ->
  fills_in_place hk ->
  strategies_allocate ->
  strategies_compute ->
  computes phi hk ->
  heap w !! ebins self = Some e ->
  heap w !! czbins self = Some cz ->
  (forall lf, fine_ebins kw = Some lf -> is_Some (heap w !! lf)) ->
  (forall lf, fine_czbins kw = Some lf -> is_Some (heap w !! lf)) ->
  get_osc_prob_maps C self kw w = (Ok d, w') ->
  exists a_e a_cz tv0 fe fcz v,
    fine_axis (fine_ebins kw ≫= fun lf => heap w !! lf) e k = Ok a_e
    /\ fine_axis (fine_czbins kw ≫= fun lf => heap w !! lf) cz k = Ok a_cz
    /\ let ecen := get_bin_centers (data a_e) in
       let czcen := get_bin_centers (data a_cz) in
       let tv := phi self tv0 ecen czcen (params kw) in
       family_table_val a_e a_cz (repeat (np_zeros [length ecen; length czcen]) 12)
       = Some tv0
       /\ dict_get "ebins" tv = Some (EdgesV fe)
       /\ dict_get "czbins" tv = Some (EdgesV fcz)
       /\ smoothed_table_val
            (smoothed (subbinning [data e; data cz] [data fe; data fcz])
               (data fe) (data fcz) (data e) (data cz))
            tv [("ebins", EdgesV e); ("czbins", EdgesV cz)]
          = Ok v
       /\ deref (heap w') d = Some v.
Proof.
  intros k Hov Hfill Ha Hc Hphi Ee Ecz Hfe Hfcz Hrun.
  destruct (get_osc_prob_maps_Ok C hk self kw w d w' Hov Hrun)
    as (t & ecen & czcen & w2 & t' & w3 & Hcall & Hhook & Hpass).
  destruct (hook_call_value self kw w t ecen czcen w2 e cz Hcall Ee Ecz Hfe Hfcz)
    as (a_e & a_cz & Hae & Hacz & -> & -> & Hd).
  destruct (family_table_val_Some a_e a_cz
              (repeat (np_zeros [length (get_bin_centers (data a_e));
                                 length (get_bin_centers (data a_cz))]) 12))
    as [tv0 Htv0]; [by rewrite repeat_length|].
  rewrite Htv0 in Hd.
  destruct (hook_call_table self kw w t _ _ w2 Hcall) as (_ & _ & Hsep & _ & _).
  pose proof (Hphi _ _ _ _ _ _ _ _ _ Hsep Hd Hhook) as Htv.
  pose proof (hook_call_frame hk self kw w t _ _ w2 _ w3 Hfill Hcall Hhook)
    as Hframe.
  destruct (smoothing_pass_value self t' w3 d w' _ Ha Hc Htv Hpass)
    as (e' & cz' & fe & fcz & v & Ee' & Ecz' & K1 & K2 & Hv & Hdv).
  rewrite (Hframe _ _ Ee) in Ee'. rewrite (Hframe _ _ Ecz) in Ecz'.
  injection Ee' as <-. injection Ecz' as <-.
  exists a_e, a_cz, tv0, fe, fcz, v. cbv zeta. done.
Qed.

(** ** The strategies of the specification meet their contract *)

Lemma spec_strategies_allocate (L : Libm) tol :
  @strategies_allocate (@SpecUtils.spec_utils L tol).
Proof.
  split.
  - intros osc_map info w r w'. cbn [integer_rebin_map SpecUtils.spec_utils].
    unfold SpecUtils.integer_rebin_map, bind, load, alloc.
    destruct (heap w !! osc_map); intros [= <- <-]; cbn [heap].
    + split; [by eexists|]. intros l [= <-]. rewrite length_app. cbn. lia.
    + split; [exists []; by rewrite app_nil_r|done].
  - intros osc_map fe fcz e cz w r w'. cbn [get_smoothed_map SpecUtils.spec_utils].
    unfold SpecUtils.get_smoothed_map, bind, load, alloc.
    destruct (heap w !! osc_map);
      [|intros [= <- <-]; split; [exists []; by rewrite app_nil_r|done]].
    destruct (heap w !! fe);
      [|intros [= <- <-]; split; [exists []; by rewrite app_nil_r|done]].
    destruct (heap w !! fcz);
      [|intros [= <- <-]; split; [exists []; by rewrite app_nil_r|done]].
    destruct (heap w !! e);
      [|intros [= <- <-]; split; [exists []; by rewrite app_nil_r|done]].
    destruct (heap w !! cz);
      [|intros [= <- <-]; split; [exists []; by rewrite app_nil_r|done]].
    intros [= <- <-]. cbn [heap].
    split; [by eexists|]. intros l [= <-]. rewrite length_app. cbn. lia.
Qed.

Lemma spec_strategies_compute (L : Libm) tol :
  @strategies_compute (@SpecUtils.spec_utils L tol).
Proof.
  split.
  - intros osc_map info w m l w' Em.
    cbn [integer_rebin_map integer_rebin_value SpecUtils.spec_utils].
    unfold SpecUtils.integer_rebin_map, bind, load, alloc. rewrite Em.
    intros [= <- <-]. cbn [heap]. apply lookup_fresh.
  - intros osc_map a1 a2 a3 a4 w m fe fcz e cz l w' Em E1 E2 E3 E4.
    cbn [get_smoothed_map smoothed_value SpecUtils.spec_utils].
    unfold SpecUtils.get_smoothed_map, bind, load, alloc.
    rewrite Em, E1, E2, E3, E4.
    intros [= <- <-]. cbn [heap]. apply lookup_fresh.
Qed.

Lemma spec_strategies_return (L : Libm) tol :
  @strategies_return (@SpecUtils.spec_utils L tol).
Proof.
  split.
  - intros osc_map info w [m Em].
    cbn [integer_rebin_map SpecUtils.spec_utils].
    unfold SpecUtils.integer_rebin_map, bind, load, alloc. rewrite Em.
    by eexists _, _.
  - intros osc_map a1 a2 a3 a4 w [m Em] [fe E1] [fcz E2] [e E3] [cz E4].
    cbn [get_smoothed_map SpecUtils.spec_utils].
    unfold SpecUtils.get_smoothed_map, bind, load, alloc.
    rewrite Em, E1, E2, E3, E4. by eexists _, _.
Qed.

(** ** Two tables of the same value *)

Lemma deref_maps_keys h m ms : deref_maps h m = Some ms -> keys ms = keys m.
Proof.
  revert ms. induction m as [|[k l] m IH]; intros ms Hd.
  - by injection Hd as <-.
  - cbn [deref_maps] in Hd. destruct (h !! l) as [a|]; [|done].
    destruct (deref_maps h m) as [ms'|]; [|done].
    injection Hd as <-. cbn [keys map fst]. f_equal. by apply IH.
Qed.

Lemma deref_entry_keys h1 h2 e1 e2 v :
  deref_entry h1 e1 = Some v -> deref_entry h2 e2 = Some v ->
  same_entry_keys e1 e2.
Proof.
  destruct e1 as [a1|m1], e2 as [a2|m2]; cbn [deref_entry same_entry_keys];
    intros H1 H2; [done|..].
  - destruct (h1 !! a1); [|done]. destruct (deref_maps h2 m2); [|done].
    cbn in H1, H2. congruence.
  - destruct (deref_maps h1 m1); [|done]. destruct (h2 !! a2); [|done].
    cbn in H1, H2. congruence.
  - destruct (deref_maps h1 m1) as [ms1|] eqn:E1; [|done].
    destruct (deref_maps h2 m2) as [ms2|] eqn:E2; [|done].
    cbn in H1, H2. injection H1 as <-. injection H2 as ->.
    apply deref_maps_keys in E1, E2. congruence.
Qed.

Lemma deref_same_keys h1 h2 t1 : forall t2 tv,
  deref h1 t1 = Some tv -> deref h2 t2 = Some tv -> same_keys t1 t2.
Proof.
  unfold same_keys.
  induction t1 as [|[k1 e1] t1 IH]; intros [|[k2 e2] t2] tv H1 H2.
  - constructor.
  - cbn [deref] in H1, H2. injection H1 as <-.
    destruct (deref_entry h2 e2); [|done]. by destruct (deref h2 t2).
  - cbn [deref] in H1, H2. injection H2 as <-.
    destruct (deref_entry h1 e1); [|done]. by destruct (deref h1 t1).
  - cbn [deref] in H1, H2.
    destruct (deref_entry h1 e1) as [v1|] eqn:E1; [|done].
    destruct (deref h1 t1) as [tv1|] eqn:D1; [|done].
    destruct (deref_entry h2 e2) as [v2|] eqn:E2; [|done].
    destruct (deref h2 t2) as [tv2|] eqn:D2; [|done].
    injection H1 as <-. injection H2 as -> -> ->.
    constructor; [|by eapply IH].
    cbn [fst snd]. split; [done|]. by eapply deref_entry_keys.
Qed.

Lemma same_keys_shape t1 t2 :
  same_keys t1 t2 ->
  Forall (fun kv : string * entry =>
            contains "bins" (fst kv) = true \/ exists m, snd kv = Maps m) t1 ->
  Forall (fun kv : string * entry =>
            contains "bins" (fst kv) = true \/ exists m, snd kv = Maps m) t2.
Proof.
  unfold same_keys. induction 1 as [|[k1 e1] [k2 e2] t1 t2 [Hk He] _ IH];
    intros Hs; [constructor|].
  apply Forall_cons in Hs as [Hs1 Hs]. cbn [fst snd] in *. subst k2.
  constructor; [|by apply IH]. cbn [fst snd].
  destruct Hs1 as [?|[m ->]]; [by left|]. right.
  destruct e2 as [a|m2]; [done|by eexists].
Qed.

Lemma same_keys_edges t1 t2 k a :
  same_keys t1 t2 ->
  dict_get k t1 = Some (Edges a) ->
  exists a', dict_get k t2 = Some (Edges a').
Proof.
  unfold same_keys. induction 1 as [|[k1 e1] [k2 e2] t1 t2 [Hk He] _ IH];
    [done|].
  cbn [fst snd] in *. subst k2. cbn [dict_get].
  destruct (String.eqb k k1); [|exact IH].
  intros [= ->]. destruct e2 as [a'|]; [by eexists|done].
Qed.

Lemma deref_valid_prob w t tv :
  deref (heap w) t = Some tv -> valid_in w (prob_locs t).
Proof.
  unfold valid_in, prob_locs. revert tv.
  induction t as [|[k e] rest IH]; intros tv Hd; [by constructor|].
  cbn [deref] in Hd.
  destruct (deref_entry (heap w) e) as [v|] eqn:He; [|done].
  destruct (deref (heap w) rest) as [rest'|]; [|done].
  cbn [flat_map snd]. apply Forall_app. split; [|by eapply IH].
  destruct e as [a|m]; [by constructor|]. cbn [deref_entry prob_entry_locs] in *.
  destruct (deref_maps (heap w) m) as [ms|] eqn:Hm; [|done]. clear He.
  revert ms Hm. induction m as [|[to_nu l] m IHm]; intros ms Hm; [by constructor|].
  cbn [deref_maps] in Hm. destruct (heap w !! l) as [a|] eqn:Hl; [|done].
  destruct (deref_maps (heap w) m) as [ms'|]; [|done].
  cbn [map snd]. apply Forall_cons. split; [by eapply lookup_lt_Some|].
  by eapply IHm.
Qed.

Lemma deref_edges_valid w t tv k a :
  deref (heap w) t = Some tv ->
  dict_get k t = Some (Edges a) ->
  (a < length (heap w))%nat.
Proof.
  intros Hd Hk. pose proof (deref_dict_get (heap w) t tv k Hd) as Hget.
  rewrite Hk in Hget. destruct Hget as (ev & _ & Hev).
  cbn [deref_entry] in Hev.
  destruct (heap w !! a) as [x|] eqn:Ea; [|done].
  by eapply lookup_lt_Some.
Qed.

(** The loop over the fine table returns only on a table whose entries
    are dicts of maps, the keys with [bins] apart. *)
Lemma smooth_table_shape self fine_maps rebin : forall t acc w d w',
  for_each t (smooth_entry self fine_maps rebin) acc w = (Ok d, w') ->
  Forall (fun kv : string * entry =>
            contains "bins" (fst kv) = true \/ exists m, snd kv = Maps m) t.
Proof.
  induction t as [|[from_nu ent] rest IH]; intros acc w d w' Hrun; [constructor|].
  apply for_each_cons_Ok in Hrun as (s1 & w1 & Hbody & Hrest).
  constructor; [|by eapply IH]. cbn [fst snd].
  apply smooth_entry_Ok in Hbody as [(Hk & _)|(_ & tomaps & new & -> & _)].
  - by left.
  - right. by eexists.
Qed.

(** What the hook hands back, when it computes [phi]: the value of [phi]
    on the table of zeros over the fine axes. *)
Lemma hook_result_value hk phi self kw w e cz t ecen czcen w2 t' w3 :
  let k := default default_oversample (oversample kw) in
  computes phi hk ->
  heap w !! ebins self = Some e ->
  heap w !! czbins self = Some cz ->
  (forall lf, fine_ebins kw = Some lf -> is_Some (heap w !! lf)) ->
  (forall lf, fine_czbins kw = Some lf -> is_Some (heap w !! lf)) ->
  hook_call self kw w t ecen czcen w2 ->
  hk self t ecen czcen (params kw) w2 = (Ok t', w3) ->
  exists a_e a_cz tv0,
    fine_axis (fine_ebins kw ≫= fun lf => heap w !! lf) e k = Ok a_e
    /\ fine_axis (fine_czbins kw ≫= fun lf => heap w !! lf) cz k = Ok a_cz
    /\ family_table_val a_e a_cz
         (repeat (np_zeros [length (get_bin_centers (data a_e));
                            length (get_bin_centers (data a_cz))]) 12)
       = Some tv0
    /\ deref (heap w3) t'
       = Some (phi self tv0 (get_bin_centers (data a_e))
                 (get_bin_centers (data a_cz)) (params kw)).
Proof.
  intros k Hphi Ee Ecz Hfe Hfcz Hcall Hhook.
  destruct (hook_call_value self kw w t ecen czcen w2 e cz Hcall Ee Ecz Hfe Hfcz)
    as (a_e & a_cz & Hae & Hacz & -> & -> & Hd).
  destruct (family_table_val_Some a_e a_cz
              (repeat (np_zeros [length (get_bin_centers (data a_e));
                                 length (get_bin_centers (data a_cz))]) 12))
    as [tv0 Htv0]; [by rewrite repeat_length|].
  rewrite Htv0 in Hd.
  destruct (hook_call_table self kw w t _ _ w2 Hcall) as (_ & _ & Hsep & _ & _).
  exists a_e, a_cz, tv0. split; [done|]. split; [done|]. split; [done|].
  by apply (Hphi _ _ _ _ _ _ _ _ _ Hsep Hd Hhook).
Qed.

(** After a call that has returned, a second call with the same
    arguments returns too, when the hook computes a function of its
    arguments and returns once more. *)
Lemma get_osc_prob_maps_again C hk phi self kw w d1 w1 :
  let k := default default_oversample (oversample kw) in
  fill_override C = Some hk ->
  fills_in_place hk ->
  strategies_allocate ->
  strategies_return ->
  computes phi hk ->
  axis_ok w (fine_ebins kw) (ebins self) k ->
  axis_ok w (fine_czbins kw) (czbins self) k ->
  get_osc_prob_maps C self kw w = (Ok d1, w1) ->
  (forall t ecen czcen w2,
      hook_call self kw w1 t ecen czcen w2 ->
      exists t' w3, hk self t ecen czcen (params kw) w2 = (Ok t', w3)) ->
  exists d2 w2, get_osc_prob_maps C self kw w1 = (Ok d2, w2).
Proof.
  intros k Hov Hfill Ha Hret Hphi Hok1 Hok2 Hrun1 Hhk.
  assert (fills_in_place (resolve_fill_osc_prob C)) as Hfill'.
  { unfold resolve_fill_osc_prob. by rewrite Hov. }
  pose proof (get_osc_prob_maps_frame C self kw w _ w1 Hfill' Ha Hrun1) as Hpres.
  pose proof (axis_ok_fine_valid w _ _ _ Hok1) as Hfe.
  pose proof (axis_ok_fine_valid w _ _ _ Hok2) as Hfcz.
  pose proof Hok1 as (e & Ee & _). pose proof Hok2 as (cz & Ecz & _).
  destruct (get_osc_prob_maps_Ok C hk self kw w d1 w1 Hov Hrun1)
    as (t1 & ecen1 & czcen1 & v2 & t1' & v3 & Hcall1 & Hhook1 & Hpass1).
  destruct (hook_result_value hk phi self kw w e cz _ _ _ _ _ _
              Hphi Ee Ecz Hfe Hfcz Hcall1 Hhook1)
    as (a_e & a_cz & tv0 & Hae & Hacz & Htv0 & Hd1).
  destruct (hook_call_exists self kw w1
              (axis_ok_later w w1 _ _ _ Hpres Hok1)
              (axis_ok_later w w1 _ _ _ Hpres Hok2))
    as (t2 & ecen2 & czcen2 & u2 & Hcall2).
  destruct (Hhk _ _ _ _ Hcall2) as (t2' & u3 & Hhook2).
  destruct (hook_result_value hk phi self kw w1 e cz _ _ _ _ _ _
              Hphi (Hpres _ _ Ee) (Hpres _ _ Ecz)
              (fun lf E => let '(ex_intro _ a Ea) := Hfe lf E in
                           ex_intro _ a (Hpres _ _ Ea))
              (fun lf E => let '(ex_intro _ a Ea) := Hfcz lf E in
                           ex_intro _ a (Hpres _ _ Ea))
              Hcall2 Hhook2)
    as (a_e' & a_cz' & tv0' & Hae' & Hacz' & Htv0' & Hd2).
  rewrite (fine_value_later w w1 _ Hpres Hfe) in Hae'.
  rewrite (fine_value_later w w1 _ Hpres Hfcz) in Hacz'.
  fold k in Hae, Hacz, Hae', Hacz'.
  assert (a_e' = a_e) as -> by congruence.
  assert (a_cz' = a_cz) as -> by congruence.
  assert (tv0' = tv0) as -> by congruence.
  pose proof (deref_same_keys _ _ _ _ _ Hd1 Hd2) as Hsame.
  apply smoothing_pass_Ok in Hpass1
    as (e1 & cz1 & a1 & fe1 & a2 & fcz1 & x1 & x2
        & _ & _ & K1 & _ & K2 & _ & _ & Hloop & _).
  apply smooth_table_shape in Hloop.
  destruct (same_keys_edges _ _ _ _ Hsame K1) as [a1' K1'].
  destruct (same_keys_edges _ _ _ _ Hsame K2) as [a2' K2'].
  pose proof (hook_call_frame hk self kw w1 _ _ _ _ _ _ Hfill Hcall2 Hhook2)
    as Hframe2.
  rewrite (get_osc_prob_maps_returns C hk self kw w1 _ _ _ _ _ _
             Hov Hcall2 Hhook2).
  apply (smoothing_pass_returns self t2' u3 a1' a2' Ha Hret K1' K2').
  - by apply (same_keys_shape t1').
  - by eapply deref_valid_prob.
  - repeat apply Forall_cons_2; try apply Forall_nil_2.
    + by eapply deref_edges_valid.
    + by eapply deref_edges_valid.
    + eapply lookup_lt_Some. apply Hframe2, Hpres, Ee.
    + eapply lookup_lt_Some. apply Hframe2, Hpres, Ecz.
Qed.

(** ** Claims on [check_oversampling] *)

(** C2.  With explicit fine edges, [check_oversampling] hands back the
    fine array itself when [is_coarser_binning(coarse, fine)] holds,
    and otherwise logs a warning and hands back the coarse array; the
    store is unchanged, no exception is raised, and [oversample] does
    not enter the outcome. *)
Theorem explicit_fine_edges w fine coarse f c k :
  heap w !! fine = Some f ->
  heap w !! coarse = Some c ->
  check_oversampling (Some fine) coarse k w
  = (if is_coarser_binning (data c) (data f)
     then (Ok fine,
           {| heap := heap w;
              logs := logs w
                      ++ [(INFO, "Using requested binning for oversampling.")] |})
     else (Ok coarse,
           {| heap := heap w;
              logs := logs w
                      ++ [(WARNING,
                           "Requested oversampled binning is coarser "
                           +:+ "than output binning. Will use output binning.")] |}))
  /\ forall k', check_oversampling (Some fine) coarse k' w
                = check_oversampling (Some fine) coarse k w.
Proof.
  intros Ef Ec. split; [by apply check_oversampling_Some|done].
Qed.

(** C9.  On a linear or logarithmic axis of [N + 1] edges and with
    [oversample = 1], [check_oversampling] hands back a new array of
    [N] edges, [len(coarse_bins) - 1]: one bin fewer than the coarse
    axis. *)
Theorem oversample_one_loses_a_bin w coarse c N :
  heap w !! coarse = Some c ->
  length (data c) = S N ->
  is_linear (data c) || is_logarithmic (data c) = true ->
  exists l w' a,
    check_oversampling None coarse 1 w = (Ok l, w')
    /\ heap w' !! l = Some a
    /\ l <> coarse
    /\ length (data a) = (length (data c) - 1)%nat
    /\ length (data a) = N
    /\ (1 <= N -> length (data a) - 1 < length (data c) - 1)%nat.
Proof.
  intros Ec Hlen Hreg.
  assert (data c <> []) as Hne by (by destruct (data c)).
  destruct (regular_edge_count (data c) 1 Hreg Hne ltac:(lia)) as (y & Hy & Hcount).
  destruct (oversampled_lookup (heap w) coarse c 1 y Ec Hy) as (a & Ha & Hdata).
  rewrite (check_oversampling_None w coarse c 1 Ec), Hy.
  eexists _, _, a. split; [reflexivity|]. cbn [heap].
  split; [done|]. subst y. rewrite Hcount, Hlen.
  split; [|lia].
  apply lookup_lt_Some in Ec.
  unfold oversampled_loc, oversampling_allocs. rewrite Hreg, Hy. simpl. lia.
Qed.

(** C10.  On an irregular axis of [N] bins and with [oversample = k >= 1],
    the insertion loop runs [k - 1] times, one new array per round;
    round [j] leaves [2^j * N] bins, whether or not an inserted center
    coincides with an edge, and the array handed back has
    [2^(k-1) * N] bins, which is not [k * N] once [k >= 3]. *)
Theorem irregular_axis_doubles w coarse c N k :
  (forall e, length (get_bin_centers e) = (length e - 1)%nat) ->
  heap w !! coarse = Some c ->
  length (data c) = S N ->
  is_linear (data c) = false ->
  is_logarithmic (data c) = false ->
  1 <= k ->
  exists l w' a,
    check_oversampling None coarse k w = (Ok l, w')
    /\ length (heap w') = (length (heap w) + Z.to_nat (k - 1))%nat
    /\ (forall j, (j < Z.to_nat (k - 1))%nat ->
          exists r, heap w' !! (length (heap w) + j)%nat = Some r
                    /\ length (data r) = S (2 ^ S j * N))
    /\ heap w' !! l = Some a
    /\ length (data a) = S (2 ^ Z.to_nat (k - 1) * N)
    /\ (3 <= k -> (1 <= N)%nat ->
        (2 ^ Z.to_nat (k - 1) * N)%nat <> (Z.to_nat k * N)%nat).
Proof.
  intros Hcen Ec Hlen Hlin Hlog Hk.
  assert (oversampled_edges (data c) k
          = Ok (Nat.iter (Z.to_nat (k - 1)) insert_centers (data c))) as Hy.
  { unfold oversampled_edges. by rewrite Hlin, Hlog. }
  destruct (oversampled_lookup (heap w) coarse c k _ Ec Hy) as (a & Ha & Hdata).
  rewrite (check_oversampling_None w coarse c k Ec), Hy.
  assert (oversampling_allocs (data c) k = rounds (Z.to_nat (k - 1)) (data c))
    as Hallocs.
  { unfold oversampling_allocs. by rewrite Hlin, Hlog. }
  eexists _, _, a. split; [reflexivity|]. cbn [heap].
  rewrite Hallocs in *.
  split; [by rewrite length_app, rounds_length|].
  split.
  { intros j Hj. eexists. split.
    - rewrite lookup_app_r by lia.
      replace (length (heap w) + j - length (heap w))%nat with j by lia.
      unfold rounds. rewrite list_lookup_fmap, lookup_seq_lt by done.
      reflexivity.
    - cbn [data vec]. by apply insertion_edge_count. }
  split; [done|].
  split; [rewrite Hdata; by apply insertion_edge_count|].
  intros Hk3 HN.
  assert (Z.to_nat k < 2 ^ Z.to_nat (k - 1))%nat as Hpow.
  { replace (Z.to_nat k) with (S (Z.to_nat (k - 1))) by lia.
    assert (2 <= Z.to_nat (k - 1))%nat as Hge by lia.
    generalize dependent (Z.to_nat (k - 1)). intros n _ _ _ _ Hn.
    induction Hn as [|n Hn IH]; [simpl; lia|].
    rewrite Nat.pow_succ_r'. lia. }
  nia.
Qed.


(** ** Claims on the service *)

(** C1.  On a service whose hook hands back a table with the keys of
    the table it is given, every dict [get_osc_prob_maps] returns has
    exactly the keys [ebins], [czbins] and the four families; each
    family holds exactly three maps, named after the three destination
    flavors, and [ebins] and [czbins] hold the two arrays of the
    service.  Those still hold what the constructor has made of its
    arguments when the hook writes into the probability arrays of its
    table only and the strategies return new arrays.  The call does
    return when its arguments are in order, the hook returns a table
    whose arrays exist, and the strategies return. *)
Theorem maps_have_the_six_keys C hk self kw w ebins0 czbins0 :
  let k := default default_oversample (oversample kw) in
  fill_override C = Some hk ->
  (forall t ecen czcen w2 t' w3,
      hook_call self kw w t ecen czcen w2 ->
      hk self t ecen czcen (params kw) w2 = (Ok t', w3) ->
      same_keys t t') ->
  (forall d w',
      get_osc_prob_maps C self kw w = (Ok d, w') ->
      keys d = ["ebins"; "czbins"; "nue_maps"; "numu_maps";
                "nue_bar_maps"; "numu_bar_maps"]
      /\ (forall fam, fam ∈ ["nue_maps"; "numu_maps"] ->
            exists m, dict_get fam d = Some (Maps m)
                      /\ keys m = ["nue"; "numu"; "nutau"])
      /\ (forall fam, fam ∈ ["nue_bar_maps"; "numu_bar_maps"] ->
            exists m, dict_get fam d = Some (Maps m)
                      /\ keys m = ["nue_bar"; "numu_bar"; "nutau_bar"])
      /\ dict_get "ebins" d = Some (Edges (ebins self))
      /\ dict_get "czbins" d = Some (Edges (czbins self))
      /\ (fills_in_place hk ->
          strategies_allocate ->
          heap w !! ebins self = Some (np_array ebins0) ->
          heap w !! czbins self = Some (np_array czbins0) ->
          heap w' !! ebins self = Some (np_array ebins0)
          /\ heap w' !! czbins self = Some (np_array czbins0)
          /\ valid_in w' (prob_locs d)))
  /\ (fills_in_place hk ->
      strategies_allocate ->
      strategies_return ->
      axis_ok w (fine_ebins kw) (ebins self) k ->
      axis_ok w (fine_czbins kw) (czbins self) k ->
      (forall t ecen czcen w2,
          hook_call self kw w t ecen czcen w2 ->
          exists t' w3,
            hk self t ecen czcen (params kw) w2 = (Ok t', w3)
            /\ valid_in w3 (table_locs t')) ->
      exists d w', get_osc_prob_maps C self kw w = (Ok d, w')).
Proof.
  intros k Hov Hkeys. split.
  - intros d w' Hrun.
    destruct (get_osc_prob_maps_Ok C hk self kw w d w' Hov Hrun)
      as (t & ecen & czcen & w2 & t' & w3 & Hcall & Hhook & Hpass).
    pose proof (Hkeys _ _ _ _ _ _ Hcall Hhook) as Hsame.
    destruct (hook_call_table self kw w t ecen czcen w2 Hcall)
      as (_ & _ & _ & _ & le & lcz & n & ->).
    apply same_keys_family in Hsame as (a1 & a2 & f1 & f2 & f3 & f4 & ->).
    destruct (smoothing_pass_family self a1 a2 f1 f2 f3 f4 w3 d w' Hpass)
      as (g1 & g2 & g3 & g4 & ->).
    split; [done|]. split; [|split; [|split; [done|split; [done|]]]].
    + intros fam Hfam.
      apply elem_of_cons in Hfam as [->|Hfam];
        [|apply elem_of_cons in Hfam as [->|Hfam]; [|by apply elem_of_nil in Hfam]].
      all: by eexists.
    + intros fam Hfam.
      apply elem_of_cons in Hfam as [->|Hfam];
        [|apply elem_of_cons in Hfam as [->|Hfam]; [|by apply elem_of_nil in Hfam]].
      all: by eexists.
    + intros Hfill Ha Ee Ecz.
      assert (fills_in_place (resolve_fill_osc_prob C)) as Hfill'.
      { unfold resolve_fill_osc_prob. by rewrite Hov. }
      pose proof (get_osc_prob_maps_frame C self kw w _ w' Hfill' Ha Hrun)
        as Hframe.
      split; [by apply Hframe|]. split; [by apply Hframe|].
      unfold valid_in. apply Forall_forall. intros l Hl.
      by apply (smoothing_pass_fresh self _ w3 _ w' Ha Hpass).
  - intros Hfill Ha Hret Hok1 Hok2 Hhk.
    apply (get_osc_prob_maps_total C hk self kw w Hov Hfill Ha Hret Hok1 Hok2).
    intros t ecen czcen w2 Hcall.
    destruct (Hhk t ecen czcen w2 Hcall) as (t' & w3 & Hhook & Hvalid).
    exists t', w3. split; [done|]. split; [by eapply Hkeys|done].
Qed.



(** C5, as amended.  Before it calls the hook, the table builder
    allocates twelve arrays of zeros of shape [(len(ecen), len(czcen))],
    three destination flavors for each of the four families
    [nue_maps], [numu_maps], [nue_bar_maps] and [numu_bar_maps]; the
    call of the hook on that table is its last step. *)
Theorem builder_allocates_twelve_maps C self fe fcz k p w :
  axis_ok w fe (ebins self) k ->
  axis_ok w fcz (czbins self) k ->
  exists le lcz e cz w2,
    let ecen := get_bin_centers (data e) in
    let czcen := get_bin_centers (data cz) in
    let zeros := np_zeros [length ecen; length czcen] in
    let t := fresh_table le lcz (length (heap w2)) in
    let w3 := {| heap := heap w2 ++ repeat zeros 12; logs := logs w2 |} in
    heap w2 !! le = Some e
    /\ heap w2 !! lcz = Some cz
    /\ (length (heap w) <= length (heap w2))%nat
    /\ get_osc_probLT_dict C self fe fcz k p w
       = resolve_fill_osc_prob C self t ecen czcen p w3
    /\ keys t = ["ebins"; "czbins"; "nue_maps"; "numu_maps";
                 "nue_bar_maps"; "numu_bar_maps"]
    /\ (forall fam, fam ∈ ["nue_maps"; "numu_maps"] ->
          exists m, dict_get fam t = Some (Maps m)
                    /\ keys m = ["nue"; "numu"; "nutau"])
    /\ (forall fam, fam ∈ ["nue_bar_maps"; "numu_bar_maps"] ->
          exists m, dict_get fam t = Some (Maps m)
                    /\ keys m = ["nue_bar"; "numu_bar"; "nutau_bar"])
    /\ length (prob_locs t) = 12%nat
    /\ NoDup (prob_locs t)
    /\ (forall l, l ∈ prob_locs t ->
          (length (heap w2) <= l)%nat /\ heap w3 !! l = Some zeros)
    /\ shape zeros = [length ecen; length czcen]
    /\ data zeros = repeat 0%Q (length ecen * length czcen).
Proof.
  intros (c1 & Ec1 & Hf1) (c2 & Ec2 & Hf2).
  destruct (check_oversampling_returns w fe (ebins self) c1 k Ec1 Hf1)
    as (le & ext1 & lg1 & a_e & Hrun1 & Hle & _).
  set (w1 := {| heap := heap w ++ ext1; logs := logs w ++ [lg1] |}) in *.
  destruct (check_oversampling_returns w1 fcz (czbins self) c2 k)
    as (lcz & ext2 & lg2 & a_cz & Hrun2 & Hlcz & _).
  { by apply lookup_app_l_Some. }
  { destruct fcz as [lf|]; [|done].
    destruct Hf2 as [f Hf]. exists f. by apply lookup_app_l_Some. }
  set (w2 := {| heap := heap w1 ++ ext2; logs := logs w1 ++ [lg2] |}) in *.
  assert (heap w2 !! le = Some a_e) as Hle2 by (by apply lookup_app_l_Some).
  exists le, lcz, a_e, a_cz, w2. cbv zeta.
  split; [done|]. split; [done|].
  split; [subst w2 w1; cbn [heap]; rewrite !length_app; lia|].
  split; [by apply (get_osc_probLT_dict_delegates C self fe fcz k p w
                      le w1 lcz w2 a_e a_cz)|].
  split; [done|].
  split.
  { intros fam Hfam.
    apply elem_of_cons in Hfam as [->|Hfam];
      [|apply elem_of_cons in Hfam as [->|Hfam]; [|by apply elem_of_nil in Hfam]].
    all: by eexists. }
  split.
  { intros fam Hfam.
    apply elem_of_cons in Hfam as [->|Hfam];
      [|apply elem_of_cons in Hfam as [->|Hfam]; [|by apply elem_of_nil in Hfam]].
    all: by eexists. }
  rewrite prob_locs_fresh.
  split; [by rewrite length_map, length_seq|].
  split.
  { apply NoDup_fmap_2; [|apply NoDup_seq]. intros i j. lia. }
  split.
  { intros l Hl. apply list_elem_of_fmap in Hl as (i & -> & Hi).
    apply elem_of_seq in Hi. split; [lia|]. cbn [heap].
    rewrite lookup_app_r by lia.
    replace (length (heap w2) + i - length (heap w2))%nat with i by lia.
    apply lookup_repeat. lia. }
  split; [done|]. cbn [data np_zeros fold_right]. by rewrite Nat.mul_1_r.
Qed.


(** C6.  In a class that does not override it, [fill_osc_prob] raises
    [NotImplementedError] with a message that names the class of the
    object; [get_osc_prob_maps] then never hands back a table, and on
    arguments that are in order it ends with that very exception, right
    after the two records of the oversampling and before any
    smoothing. *)
Theorem base_hook_is_not_implemented C self kw w :
  let k := default default_oversample (oversample kw) in
  fill_override C = None ->
  (forall t ecen czcen p w1,
      resolve_fill_osc_prob C self t ecen czcen p w1
      = (Raise (NotImplementedError
                  ("Method not implemented for " +:+ cls_name self)), w1))
  /\ (forall ebins0 czbins0 w0 w1,
        __init__ C ebins0 czbins0 w0 = (Ok self, w1) -> cls_name self = name C)
  /\ (exists e w', get_osc_prob_maps C self kw w = (Raise e, w'))
  /\ (axis_ok w (fine_ebins kw) (ebins self) k ->
      axis_ok w (fine_czbins kw) (czbins self) k ->
      exists ext lg1 lg2,
        get_osc_prob_maps C self kw w
        = (Raise (NotImplementedError
                    ("Method not implemented for " +:+ cls_name self)),
           {| heap := heap w ++ ext;
              logs := logs w
                      ++ [(INFO, "Retrieving finely binned maps"); lg1; lg2] |})).
Proof.
  intros k Hov. split; [|split; [|split]].
  - intros t ecen czcen p w1. unfold resolve_fill_osc_prob. by rewrite Hov.
  - intros ebins0 czbins0 w0 w1. rewrite init_run.
    destruct (negb _); [done|]. destruct (negb _); [done|].
    by intros [= <- _].
  - by apply get_osc_prob_maps_base_raises.
  - by apply get_osc_prob_maps_base.
Qed.

(** C8.  [get_osc_prob_maps] changes no array that exists when it is
    called, neither the two axes of the service nor the fine edges it
    is given, when the hook writes into the probability arrays of its
    table only and the strategies meet their contract: each returns a
    new array and changes none that exists.  Under that contract
    [__smoothing_func] hands back a new array and leaves every array it
    has been given as it is, and the strategies of the specification
    meet the contract.  When moreover the hook and the strategies
    compute functions of the values they are given, a call that follows
    a call with the same arguments returns a table of the same value,
    and it does return when the hook returns once more and the
    strategies return. *)
Theorem call_changes_no_input C hk phi self kw w e cz :
  let k := default default_oversample (oversample kw) in
  fill_override C = Some hk ->
  fills_in_place hk ->
  strategies_allocate ->
  heap w !! ebins self = Some e ->
  heap w !! czbins self = Some cz ->
  (forall lf, fine_ebins kw = Some lf -> is_Some (heap w !! lf)) ->
  (forall lf, fine_czbins kw = Some lf -> is_Some (heap w !! lf)) ->
  (forall r w',
      get_osc_prob_maps C self kw w = (r, w') ->
      heap w' !! ebins self = Some e
      /\ heap w' !! czbins self = Some cz
      /\ forall l a, heap w !! l = Some a -> heap w' !! l = Some a)
  /\ (forall fine_maps rebin osc_map w1 r w1',
        __smoothing_func self fine_maps rebin osc_map w1 = (Ok r, w1') ->
        (length (heap w1) <= r < length (heap w1'))%nat
        /\ forall l a, heap w1 !! l = Some a -> r <> l /\ heap w1' !! l = Some a)
  /\ (forall (L : Libm) tol,
        @strategies_allocate (@SpecUtils.spec_utils L tol)
        /\ @strategies_compute (@SpecUtils.spec_utils L tol)
        /\ @strategies_return (@SpecUtils.spec_utils L tol))
  /\ (strategies_compute ->
      computes phi hk ->
      forall d1 w1,
        get_osc_prob_maps C self kw w = (Ok d1, w1) ->
        (forall d2 w2,
            get_osc_prob_maps C self kw w1 = (Ok d2, w2) ->
            exists v,
              deref (heap w1) d1 = Some v /\ deref (heap w2) d2 = Some v)
        /\ (strategies_return ->
            axis_ok w (fine_ebins kw) (ebins self) k ->
            axis_ok w (fine_czbins kw) (czbins self) k ->
            (forall t ecen czcen u2,
                hook_call self kw w1 t ecen czcen u2 ->
                exists t' u3,
                  hk self t ecen czcen (params kw) u2 = (Ok t', u3)) ->
            exists d2 w2, get_osc_prob_maps C self kw w1 = (Ok d2, w2))).
Proof.
  intros k Hov Hfill Ha Ee Ecz Hfe Hfcz.
  assert (fills_in_place (resolve_fill_osc_prob C)) as Hfill'.
  { unfold resolve_fill_osc_prob. by rewrite Hov. }
  assert (forall r w', get_osc_prob_maps C self kw w = (r, w') ->
            forall l a, heap w !! l = Some a -> heap w' !! l = Some a) as Hframe.
  { intros r w' Hrun. by apply (get_osc_prob_maps_frame C self kw w r w'). }
  split; [|split; [|split; [|]]].
  - intros r w' Hrun. pose proof (Hframe r w' Hrun). auto.
  - intros fine_maps rebin osc_map w1 r w1' Hrun.
    destruct (smoothing_func_allocates self fine_maps rebin osc_map Ha _ _ _ Hrun)
      as [[ext Hext] Hnew].
    specialize (Hnew r eq_refl). split; [done|].
    intros l a El. split.
    + apply lookup_lt_Some in El. lia.
    + rewrite Hext. by apply lookup_app_l_Some.
  - intros L tol. split; [apply spec_strategies_allocate|].
    split; [apply spec_strategies_compute|apply spec_strategies_return].
  - intros Hc Hphi d1 w1 Hrun1. split.
    + intros d2 w2 Hrun2.
      pose proof (Hframe _ w1 Hrun1) as Hpres.
      destruct (get_osc_prob_maps_value C hk phi self kw w e cz d1 w1
                  Hov Hfill Ha Hc Hphi Ee Ecz Hfe Hfcz Hrun1)
        as (a_e & a_cz & tv0 & fe & fcz & v & Hae & Hacz & Hobs).
      destruct (get_osc_prob_maps_value C hk phi self kw w1 e cz d2 w2
                  Hov Hfill Ha Hc Hphi (Hpres _ _ Ee) (Hpres _ _ Ecz)
                  (fun lf E => let '(ex_intro _ a Ea) := Hfe lf E in
                               ex_intro _ a (Hpres _ _ Ea))
                  (fun lf E => let '(ex_intro _ a Ea) := Hfcz lf E in
                               ex_intro _ a (Hpres _ _ Ea))
                  Hrun2)
        as (a_e' & a_cz' & tv0' & fe' & fcz' & v' & Hae' & Hacz' & Hobs').
      cbv zeta in Hobs, Hobs'.
      destruct Hobs as (Ht0 & K1 & K2 & Hv & Hd1).
      destruct Hobs' as (Ht0' & K1' & K2' & Hv' & Hd2).
      rewrite (fine_value_later w w1 _ Hpres Hfe) in Hae'.
      rewrite (fine_value_later w w1 _ Hpres Hfcz) in Hacz'.
      fold k in Hae, Hacz, Hae', Hacz'.
      assert (a_e' = a_e) as -> by congruence.
      assert (a_cz' = a_cz) as -> by congruence.
      assert (tv0' = tv0) as -> by congruence.
      assert (fe' = fe) as -> by congruence.
      assert (fcz' = fcz) as -> by congruence.
      assert (v' = v) as -> by congruence.
      by exists v.
    + intros Hret Hok1 Hok2 Hhk.
      by apply (get_osc_prob_maps_again C hk phi self kw w d1 w1
                  Hov Hfill Ha Hret Hphi Hok1 Hok2 Hrun1).
Qed.

End generic.

(** ** The sample class meets the contracts *)

Section sample_contracts.
Variable prob : string -> string -> Q -> Q -> osc_params -> Q.
Variables (ecen czcen : list Q) (kw : osc_params).

Let write (c : string * string * nat) : nat * ndarray :=
  (snd c, prob_array prob (fst (fst c)) (snd (fst c)) ecen czcen kw).

Let ins (h : list ndarray) (la : nat * ndarray) : list ndarray :=
  <[fst la := snd la]> h.

Lemma prob_cells_locs t : map snd (prob_cells t) = prob_locs t.
Proof.
  unfold prob_cells, prob_locs. induction t as [|[k [a|m]] rest IH]; [done|..].
  - cbn [flat_map snd app]. done.
  - cbn [flat_map snd prob_entry_locs]. rewrite map_app, IH. f_equal.
    rewrite map_map. done.
Qed.

Lemma foldl_ins_length cells h :
  length (foldl ins h (map write cells)) = length h.
Proof.
  revert h. induction cells as [|c cells IH]; intros h; [done|].
  cbn [map foldl]. rewrite IH. unfold ins. by rewrite length_insert.
Qed.

Lemma foldl_ins_other cells h l :
  l ∉ map snd cells -> foldl ins h (map write cells) !! l = h !! l.
Proof.
  revert h. induction cells as [|c cells IH]; intros h Hl; [done|].
  cbn [map foldl]. apply not_elem_of_cons in Hl as [Hne Hl].
  rewrite IH by done. unfold ins, write. cbn [fst snd].
  by apply list_lookup_insert_ne.
Qed.

Lemma foldl_ins_written cells h c :
  NoDup (map snd cells) ->
  Forall (fun c => (snd c < length h)%nat) cells ->
  c ∈ cells ->
  foldl ins h (map write cells) !! snd c = Some (snd (write c)).
Proof.
  revert h. induction cells as [|c0 cells IH]; intros h Hnd Hv Hc.
  - by apply elem_of_nil in Hc.
  - cbn [map] in Hnd. apply NoDup_cons in Hnd as [Hfresh Hnd].
    apply Forall_cons in Hv as [Hv0 Hv].
    cbn [map foldl]. apply elem_of_cons in Hc as [->|Hc].
    + rewrite foldl_ins_other by done. unfold ins. cbn [fst snd write].
      by apply list_lookup_insert_eq.
    + apply IH; [done| |done].
      eapply Forall_impl; [exact Hv|]. intros c1 Hc1. cbn beta in *.
      unfold ins. by rewrite length_insert.
Qed.

(** With valid references, the loop of [fill_with] stores every array. *)
Lemma store_all cells : forall w,
  Forall (fun c => (snd c < length (heap w))%nat) cells ->
  for_each cells
    (fun '(from_nu, to_nu, l) _ =>
       store l (prob_array prob from_nu to_nu ecen czcen kw)) tt w
  = (Ok tt, {| heap := foldl ins (heap w) (map write cells); logs := logs w |}).
Proof.
  induction cells as [|[[f t'] l] cells IH]; intros w Hv.
  - cbn. unfold ret. by destruct w.
  - apply Forall_cons in Hv as [Hl Hv]. cbn [snd] in Hl.
    cbn [for_each]. unfold bind at 1. unfold store at 1.
    apply lookup_lt_is_Some in Hl as [a Ha]. rewrite Ha.
    rewrite IH; cbn [heap logs].
    + done.
    + eapply Forall_impl; [exact Hv|]. intros c Hc. cbn beta in *.
      by rewrite length_insert.
Qed.

(** Whatever the outcome, the loop writes at the references of its cells
    only. *)
Lemma store_all_frame cells : forall w r w' l,
  for_each cells
    (fun '(from_nu, to_nu, l) _ =>
       store l (prob_array prob from_nu to_nu ecen czcen kw)) tt w
  = (r, w') ->
  l ∉ map snd cells ->
  heap w' !! l = heap w !! l.
Proof.
  induction cells as [|[[f t'] l0] cells IH]; intros w r w' l Hrun Hl.
  - cbn in Hrun. by injection Hrun as _ <-.
  - cbn [map snd] in Hl. apply not_elem_of_cons in Hl as [Hne Hl].
    cbn [for_each] in Hrun. unfold bind at 1 in Hrun. unfold store at 1 in Hrun.
    destruct (heap w !! l0) as [a|] eqn:Ha.
    + rewrite (IH _ _ _ l Hrun Hl). cbn [heap].
      by apply list_lookup_insert_ne.
    + by injection Hrun as _ <-.
Qed.

Lemma deref_maps_filled (h h' : list ndarray) from_nu m ms :
  deref_maps h m = Some ms ->
  (forall tl, tl ∈ m ->
     h' !! snd tl = Some (prob_array prob from_nu (fst tl) ecen czcen kw)) ->
  deref_maps h' m = Some (filled_maps prob from_nu ecen czcen kw ms).
Proof.
  revert ms. induction m as [|[to_nu l] rest IH]; intros ms Hd Hw.
  - by injection Hd as <-.
  - cbn [deref_maps] in Hd |- *.
    destruct (h !! l) as [a|]; [|done].
    destruct (deref_maps h rest) as [rest'|]; [|done]. injection Hd as <-.
    pose proof (Hw (to_nu, l) ltac:(by left)) as Hl. cbn [fst snd] in Hl.
    rewrite Hl, (IH rest' eq_refl).
    + done.
    + intros tl Htl. apply Hw. by right.
Qed.

Lemma deref_filled (h h' : list ndarray) t tv :
  deref h t = Some tv ->
  (forall l, l ∈ edge_locs t -> h' !! l = h !! l) ->
  (forall c, c ∈ prob_cells t -> h' !! snd c = Some (snd (write c))) ->
  deref h' t = Some (filled prob ecen czcen kw tv).
Proof.
  revert tv. induction t as [|[k e] rest IH]; intros tv Hd Hedges Hcells.
  - by injection Hd as <-.
  - cbn [deref] in Hd |- *.
    destruct (deref_entry h e) as [v|] eqn:He; [|done].
    destruct (deref h rest) as [rest'|] eqn:Hrest; [|done]. injection Hd as <-.
    rewrite (IH rest' eq_refl).
    + destruct e as [a|m]; cbn [deref_entry] in He |- *.
      * rewrite Hedges by (unfold edge_locs; cbn; by left).
        destruct (h !! a); [|done]. by injection He as <-.
      * destruct (deref_maps h m) as [ms|] eqn:Hm; [|done].
        injection He as <-.
        rewrite (deref_maps_filled h h' k m ms Hm); [done|].
        intros tl Htl.
        apply (Hcells (k, fst tl, snd tl)).
        unfold prob_cells. cbn [flat_map snd fst]. apply elem_of_app. left.
        apply list_elem_of_fmap. by exists tl.
    + intros l Hl. apply Hedges. unfold edge_locs in *. cbn [flat_map].
      apply elem_of_app. by right.
    + intros c Hc. apply Hcells. unfold prob_cells in *. cbn [flat_map].
      apply elem_of_app. by right.
Qed.

Lemma same_keys_refl t : same_keys t t.
Proof.
  unfold same_keys. induction t as [|[k e] rest IH]; constructor; [|done].
  split; [done|]. by destruct e.
Qed.

Lemma valid_prob_cells w t :
  valid_in w (prob_locs t) ->
  Forall (fun c : string * string * nat => (snd c < length (heap w))%nat)
    (prob_cells t).
Proof.
  unfold valid_in. rewrite <- prob_cells_locs. by rewrite Forall_fmap.
Qed.

Lemma valid_table_prob w t :
  valid_in w (table_locs t) -> valid_in w (prob_locs t).
Proof.
  unfold valid_in, table_locs, prob_locs.
  induction t as [|[k [a|m]] rest IH]; cbn [flat_map snd entry_locs prob_entry_locs].
  - done.
  - intros Hv. apply Forall_app in Hv as [_ Hv]. by apply IH.
  - intros Hv. apply Forall_app in Hv as [Hm Hv]. apply Forall_app. auto.
Qed.

End sample_contracts.

(** [fill_with] hands back the table it is given, and it returns when
    the probability arrays of that table exist. *)
Lemma fill_with_same_table prob self t ecen czcen kw w t' w' :
  fill_with prob self t ecen czcen kw w = (Ok t', w') -> t' = t.
Proof.
  unfold fill_with, bind.
  destruct (for_each (prob_cells t) _ tt w) as [[[]|err] w0]; [|done].
  by intros [= <- _].
Qed.

Lemma fill_with_returns prob self t ecen czcen kw w :
  valid_in w (prob_locs t) ->
  exists w',
    fill_with prob self t ecen czcen kw w = (Ok t, w')
    /\ length (heap w') = length (heap w).
Proof.
  intros Hv. unfold fill_with, bind.
  rewrite store_all by (by apply valid_prob_cells).
  eexists. split; [reflexivity|]. cbn [heap]. by rewrite foldl_ins_length.
Qed.

(** [fill_with] writes into the probability arrays of its table only. *)
Lemma fill_with_fills_in_place prob : fills_in_place (fill_with prob).
Proof.
  intros self t ecen czcen kw w r w' Hrun l a Hl Ha.
  unfold fill_with, bind in Hrun.
  destruct (for_each (prob_cells t) _ tt w) as [r0 w0] eqn:Hloop.
  assert (heap w0 !! l = heap w !! l) as Hsame.
  { apply (store_all_frame prob ecen czcen kw _ _ _ _ _ Hloop).
    by rewrite prob_cells_locs. }
  destruct r0; injection Hrun as _ <-; by rewrite Hsame.
Qed.

(** [fill_with] computes [filled]: a function of the bin centers, the
    parameters and the value of the table. *)
Lemma fill_with_computes prob :
  computes (fun _ tv ecen czcen kw => filled prob ecen czcen kw tv)
    (fill_with prob).
Proof.
  intros self t ecen czcen kw w tv t' w' [Hnd Hedges] Hd.
  pose proof (deref_valid_prob w t tv Hd) as Hv.
  unfold fill_with, bind.
  rewrite store_all by (by apply valid_prob_cells).
  unfold ret. intros [= <- <-]. cbn [heap].
  apply (deref_filled prob ecen czcen kw (heap w)); [done|..].
  - intros l Hl. apply foldl_ins_other. rewrite prob_cells_locs.
    by eapply Forall_forall in Hedges.
  - intros c Hc. apply foldl_ins_written; [|by apply valid_prob_cells|done].
    by rewrite prob_cells_locs.
Qed.

(** In a call of [get_osc_prob_maps], [fill_with] returns the table it
    is given, whose arrays exist. *)
Lemma fill_with_hook_call `{Libm} `{Utils} prob self kw w t ecen czcen w2 :
  hook_call self kw w t ecen czcen w2 ->
  exists t' w3,
    fill_with prob self t ecen czcen (params kw) w2 = (Ok t', w3)
    /\ valid_in w3 (table_locs t').
Proof.
  intros Hcall.
  destruct (hook_call_table self kw w t ecen czcen w2 Hcall) as (_ & Hv & _).
  destruct (fill_with_returns prob self t ecen czcen (params kw) w2
              (valid_table_prob w2 t Hv)) as (w3 & Hrun & Hlen).
  exists t, w3. split; [exact Hrun|].
  unfold valid_in in *. by rewrite Hlen.
Qed.

Lemma fill_with_hook_keys prob self t ecen czcen kw w t' w' :
  fill_with prob self t ecen czcen kw w = (Ok t', w') -> same_keys t t'.
Proof.
  intros Hrun. apply fill_with_same_table in Hrun as ->. apply same_keys_refl.
Qed.

(** * The claims on the sample scenario *)

Example sample_construction :
  OscillationServiceBase.__init__ ToyOscillationService sample_ebins
    sample_czbins empty_world
  = (Ok sample_service, built_world).
Proof. reflexivity. Qed.

(** The utilities of the specification give one center per bin. *)
Lemma spec_centers_length (L : Libm) tol e :
  length (@SpecUtils.get_bin_centers L tol e) = (length e - 1)%nat.
Proof.
  unfold SpecUtils.get_bin_centers, SpecUtils.pairwise.
  destruct (_ && _); rewrite length_zip_with, length_tl; lia.
Qed.

Lemma sample_axis_ok coarse :
  (coarse < 2)%nat ->
  @axis_ok built_world None coarse 2.
Proof.
  intros Hc. destruct coarse as [|[|?]]; [| |lia].
  all: eexists; split; [reflexivity|]; split; [discriminate|lia].
Qed.

(** ** Witnesses of the claims on [check_oversampling] *)

Lemma explicit_fine_edges_witness :
  @check_oversampling decimal_libm toy_utils (Some 1%nat) 0%nat 7 edges_world
  = (Ok 1%nat,
     {| heap := heap edges_world;
        logs := [(INFO, "Using requested binning for oversampling.")] |})
  /\ @check_oversampling decimal_libm toy_utils (Some 2%nat) 0%nat 7 edges_world
     = (Ok 0%nat,
        {| heap := heap edges_world;
           logs := [(WARNING,
                     "Requested oversampled binning is coarser than output binning. Will use output binning.")] |}).
Proof.
  split.
  - apply (@explicit_fine_edges decimal_libm toy_utils edges_world 1%nat 0%nat
             _ _ 7 eq_refl eq_refl).
  - apply (@explicit_fine_edges decimal_libm toy_utils edges_world 2%nat 0%nat
             _ _ 7 eq_refl eq_refl).
Defined.

Lemma oversample_one_loses_a_bin_witness :
  exists l w' a,
    @check_oversampling decimal_libm toy_utils None 0%nat 1 edges_world = (Ok l, w')
    /\ heap w' !! l = Some a
    /\ length (data a) = 3%nat.
Proof.
  destruct (@oversample_one_loses_a_bin decimal_libm toy_utils edges_world 0%nat
              (vec [1; 2; 3; 4]%Q) 3%nat eq_refl eq_refl eq_refl)
    as (l & w' & a & Hrun & Ha & _ & _ & Hlen & _).
  exists l, w', a. split; [exact Hrun|]. split; [exact Ha|exact Hlen].
Defined.

Lemma irregular_axis_doubles_witness :
  exists l w' a,
    @check_oversampling decimal_libm toy_utils None 3%nat 3 edges_world = (Ok l, w')
    /\ length (heap w') = 6%nat
    /\ heap w' !! l = Some a
    /\ length (data a) = 13%nat.
Proof.
  destruct (@irregular_axis_doubles decimal_libm toy_utils edges_world 3%nat
              (vec [1; 2; 4; 7]%Q) 3%nat 3
              (spec_centers_length decimal_libm (1 # 100000))
              eq_refl eq_refl eq_refl eq_refl ltac:(lia))
    as (l & w' & a & Hrun & Hheap & _ & Ha & Hlen & _).
  exists l, w', a.
  split; [exact Hrun|]. split; [exact Hheap|]. split; [exact Ha|exact Hlen].
Defined.

(** ** Witnesses of the claims on the service *)

Lemma maps_have_the_six_keys_witness :
  exists d w',
    @OscillationServiceBase.get_osc_prob_maps decimal_libm toy_utils
      ToyOscillationService sample_service default_kwargs built_world = (Ok d, w')
    /\ keys d = ["ebins"; "czbins"; "nue_maps"; "numu_maps";
                 "nue_bar_maps"; "numu_bar_maps"]
    /\ dict_get "ebins" d = Some (Edges 0%nat)
    /\ heap w' !! 0%nat = Some (np_array sample_ebins)
    /\ valid_in w' (prob_locs d).
Proof.
  destruct (@maps_have_the_six_keys decimal_libm toy_utils
              ToyOscillationService (fill_with toy_prob) sample_service
              default_kwargs built_world sample_ebins sample_czbins
              eq_refl
              (fun t ecen czcen w2 t' w3 _ Hrun =>
                 fill_with_hook_keys toy_prob sample_service t ecen czcen
                   no_params w2 t' w3 Hrun))
    as [Hshape Hreturns].
  destruct (Hreturns (fill_with_fills_in_place toy_prob)
              (spec_strategies_allocate decimal_libm (1 # 100000))
              (spec_strategies_return decimal_libm (1 # 100000))
              (sample_axis_ok 0 ltac:(lia)) (sample_axis_ok 1 ltac:(lia))
              (@fill_with_hook_call decimal_libm toy_utils toy_prob
                 sample_service default_kwargs built_world))
    as (d & w' & Hrun).
  destruct (Hshape d w' Hrun) as (Hkeys & _ & _ & Hebins & _ & Hvalues).
  destruct (Hvalues (fill_with_fills_in_place toy_prob)
              (spec_strategies_allocate decimal_libm (1 # 100000))
              eq_refl eq_refl)
    as (He & _ & Hvalid).
  exists d, w'. split; [exact Hrun|]. split; [exact Hkeys|].
  split; [exact Hebins|]. split; [exact He|exact Hvalid].
Defined.


Lemma builder_allocates_twelve_maps_witness :
  exists t ecen czcen w3,
    @OscillationServiceBase.get_osc_probLT_dict decimal_libm toy_utils
      ToyOscillationService sample_service None None 2 no_params built_world
    = fill_with toy_prob sample_service t ecen czcen no_params w3
    /\ length (prob_locs t) = 12%nat.
Proof.
  destruct (@builder_allocates_twelve_maps decimal_libm toy_utils
              ToyOscillationService sample_service None None 2 no_params
              built_world (sample_axis_ok 0 ltac:(lia)) (sample_axis_ok 1 ltac:(lia)))
    as (le & lcz & e & cz & w2 & Hrun).
  cbv zeta in Hrun.
  destruct Hrun as (_ & _ & _ & Hrun & _ & _ & _ & Hlen & _).
  eexists _, _, _, _. split; [exact Hrun|exact Hlen].
Defined.

Lemma base_hook_is_not_implemented_witness :
  exists w',
    @OscillationServiceBase.get_osc_prob_maps decimal_libm toy_utils
      BareOscillationService
      {| cls_name := "BareOscillationService"; ebins := 0%nat; czbins := 1%nat |}
      default_kwargs built_world
    = (Raise (NotImplementedError
                "Method not implemented for BareOscillationService"), w').
Proof.
  destruct (@base_hook_is_not_implemented decimal_libm toy_utils
              BareOscillationService
              {| cls_name := "BareOscillationService"; ebins := 0%nat;
                 czbins := 1%nat |}
              default_kwargs built_world eq_refl)
    as (_ & _ & _ & Hrun).
  destruct (Hrun (sample_axis_ok 0 ltac:(lia)) (sample_axis_ok 1 ltac:(lia)))
    as (ext & lg1 & lg2 & Hrun').
  eexists. exact Hrun'.
Defined.

Lemma call_changes_no_input_witness :
  exists d1 w1 d2 w2 v,
    @OscillationServiceBase.get_osc_prob_maps decimal_libm toy_utils
      ToyOscillationService sample_service default_kwargs built_world
    = (Ok d1, w1)
    /\ @OscillationServiceBase.get_osc_prob_maps decimal_libm toy_utils
         ToyOscillationService sample_service default_kwargs w1
       = (Ok d2, w2)
    /\ heap w1 !! 0%nat = Some (np_array sample_ebins)
    /\ heap w1 !! 1%nat = Some (np_array sample_czbins)
    /\ deref (heap w1) d1 = Some v
    /\ deref (heap w2) d2 = Some v.
Proof.
  destruct (@call_changes_no_input decimal_libm toy_utils
              ToyOscillationService (fill_with toy_prob)
              (fun _ tv ecen czcen kw => filled toy_prob ecen czcen kw tv)
              sample_service default_kwargs built_world
              (np_array sample_ebins) (np_array sample_czbins)
              eq_refl (fill_with_fills_in_place toy_prob)
              (spec_strategies_allocate decimal_libm (1 # 100000))
              eq_refl eq_refl
              ltac:(discriminate) ltac:(discriminate))
    as (Hframe & _ & _ & Hsame).
  assert (first_call = (Ok first_table, snd first_call)) as Hrun1
    by (vm_compute; reflexivity).
  destruct (Hframe (Ok first_table) (snd first_call) Hrun1) as (He & Hcz & _).
  destruct (Hsame (spec_strategies_compute decimal_libm (1 # 100000))
              (fill_with_computes toy_prob) first_table (snd first_call) Hrun1)
    as (Hequal & Hagain).
  destruct (Hagain (spec_strategies_return decimal_libm (1 # 100000))
              (sample_axis_ok 0 ltac:(lia)) (sample_axis_ok 1 ltac:(lia))
              (fun t ecen czcen u2 Hcall =>
                 let '(ex_intro _ t' (ex_intro _ u3 (conj Hhook _))) :=
                   @fill_with_hook_call decimal_libm toy_utils toy_prob
                     sample_service default_kwargs (snd first_call)
                     t ecen czcen u2 Hcall in
                 ex_intro _ t' (ex_intro _ u3 Hhook)))
    as (d2 & w2 & Hrun2).
  destruct (Hequal d2 w2 Hrun2) as (v & Hv1 & Hv2).
  exists first_table, (snd first_call), d2, w2, v.
  split; [exact Hrun1|]. split; [exact Hrun2|]. split; [exact He|].
  split; [exact Hcz|]. split; [exact Hv1|exact Hv2].
Defined.

(** ** The claims that fail on the code *)

(** C3, at the failing input.  On the linear axis [1, 2, 3, 4] with
    [oversample = 3], [check_oversampling] asks [np.linspace] for
    [3 * 4 - 1 = 11] samples: the fine grid has ten bins, which is no
    multiple of the three coarse bins, the coarse edge 2 is not among its
    edges, and it is no refinement of the coarse grid. *)
Theorem oversample_three_is_no_refinement :
  exists w',
    @check_oversampling decimal_libm toy_utils None 0%nat 3 edges_world
    = (Ok 4%nat, w')
    /\ heap w' !! 4%nat
       = Some (vec [1; 13 # 10; 8 # 5; 19 # 10; 11 # 5; 5 # 2; 14 # 5;
                    31 # 10; 17 # 5; 37 # 10; 4]%Q)
    /\ (10 mod 3 <> 0)%nat
    /\ existsb (Qeq_bool 2)
         [1; 13 # 10; 8 # 5; 19 # 10; 11 # 5; 5 # 2; 14 # 5;
          31 # 10; 17 # 5; 37 # 10; 4]%Q = false
    /\ @is_coarser_binning toy_utils [1; 2; 3; 4]%Q
         [1; 13 # 10; 8 # 5; 19 # 10; 11 # 5; 5 # 2; 14 # 5;
          31 # 10; 17 # 5; 37 # 10; 4]%Q = false.
Proof. eexists. repeat split; try reflexivity. by vm_compute. Qed.


(** C5, as stated, fails: the table handed to the hook holds twelve
    probability arrays, not eight. *)
Lemma builder_does_not_allocate_eight :
  ~ exists t ecen czcen w3,
      (forall ov,
          @OscillationServiceBase.get_osc_probLT_dict decimal_libm toy_utils
            {| name := "ToyOscillationService"; fill_override := ov |}
            sample_service None None 2 no_params built_world
          = OscillationServiceBase.resolve_fill_osc_prob
              {| name := "ToyOscillationService"; fill_override := ov |}
              sample_service t ecen czcen no_params w3)
      /\ length (prob_locs t) = 8%nat.
Proof.
  intros (t & ecen & czcen & w3 & Hcall & Hlen).
  specialize (Hcall (Some (fun _ t0 _ _ _ => ret t0))).
  vm_compute in Hcall. injection Hcall as <- _. vm_compute in Hlen. discriminate.
Qed.

(** ** The example of the specification *)

(** C7.  With [ebins = [1, 2, 3, 4]], [czbins = [-1, 0, 1]], no fine
    edges and [oversample = 2], the fine grid has seven energy edges and
    five cosine-zenith edges, six bins by four; the fine maps have shape
    [(6, 4)]; [subbinning] answers with the factor 2 on both axes, so the
    exact rebinning is the strategy of the call, and every coarse cell is
    the aggregate of its block of two by two fine cells. *)
Theorem example_scenario :
  OscillationServiceBase.__init__ ToyOscillationService sample_ebins
    sample_czbins empty_world = (Ok sample_service, built_world)
  /\ (exists w',
        @check_oversampling decimal_libm toy_utils None (ebins sample_service) 2
          built_world = (Ok 2%nat, w')
        /\ heap w' !! 2%nat = Some (vec fine_e_example))
  /\ (exists w',
        @check_oversampling decimal_libm toy_utils None (czbins sample_service) 2
          built_world = (Ok 2%nat, w')
        /\ heap w' !! 2%nat = Some (vec fine_cz_example))
  /\ (length fine_e_example - 1 = 6 /\ length fine_cz_example - 1 = 4)%nat
  /\ @subbinning toy_utils [np_ravel sample_ebins; np_ravel sample_czbins]
       [fine_e_example; fine_cz_example]
     = Some [(2%nat, 0%nat); (2%nat, 0%nat)]
  /\ (forall x0 x1 x2 x3 x4 x5 x6 x7 x8 x9 x10 x11 x12 x13 x14 x15 x16 x17
             x18 x19 x20 x21 x22 x23 : Q,
        let m := {| shape := [6; 4]%nat;
                    data := [x0; x1; x2; x3; x4; x5; x6; x7; x8; x9; x10; x11;
                             x12; x13; x14; x15; x16; x17; x18; x19; x20; x21;
                             x22; x23] |} in
        let r := @smoothed toy_utils (Some [(2%nat, 0%nat); (2%nat, 0%nat)])
                   fine_e_example fine_cz_example (np_ravel sample_ebins)
                   (np_ravel sample_czbins) m in
        shape r = [3; 2]%nat
        /\ Forall2 Qeq (data r)
             [(x0 + x1 + x4 + x5) / 4; (x2 + x3 + x6 + x7) / 4;
              (x8 + x9 + x12 + x13) / 4; (x10 + x11 + x14 + x15) / 4;
              (x16 + x17 + x20 + x21) / 4; (x18 + x19 + x22 + x23) / 4]%Q)
  /\ (exists d w' fine,
        first_call = (Ok d, w')
        /\ In (DEBUG, "Coarse map is true submap of fine map, using numpy array magic for smoothing.")
             (logs w')
        /\ heap w' !! 4%nat = Some fine
        /\ shape fine = [6; 4]%nat
        /\ dict_get "nue_maps" d
           = Some (Maps [("nue", 16); ("numu", 17); ("nutau", 18)]%nat)
        /\ heap w' !! 16%nat
           = Some {| shape := [3; 2]%nat;
                     data := [3 # 8; 1 # 2; 1 # 2; 5 # 8; 5 # 8; 3 # 4]%Q |}).
Proof.
  split; [reflexivity|].
  split; [eexists; split; reflexivity|].
  split; [eexists; split; reflexivity|].
  split; [split; reflexivity|].
  split; [by vm_compute|].
  split.
  - intros. subst m r. split; [reflexivity|].
    cbv -[Qred Qplus Qdiv Qeq].
    repeat constructor; rewrite Qred_correct; field.
  - eexists _, _, _. split; [by vm_compute|].
    split; [cbn; tauto|].
    split; [reflexivity|]. split; [reflexivity|]. split; reflexivity.
Qed.

(** * Further properties of the oscillation service *)

Section more_properties.
Context `{Libm} `{Utils}.
Import OscillationServiceBase.

(** ** [check_oversampling] without fine edges *)

(** The run on a linear or logarithmic axis with at least one edge. *)
Lemma check_oversampling_regular w coarse c k :
  heap w !! coarse = Some c ->
  is_linear (data c) || is_logarithmic (data c) = true ->
  data c <> [] ->
  1 <= k ->
  exists y,
    oversampled_edges (data c) k = Ok y
    /\ length y = Z.to_nat (k * Z.of_nat (length (data c)) - 1)
    /\ check_oversampling None coarse k w
       = (Ok (length (heap w)),
          {| heap := heap w ++ [vec y];
             logs := logs w ++ [oversampling_record (data c) k] |}).
Proof.
  intros Ec Hreg Hne Hk.
  destruct (regular_edge_count (data c) k Hreg Hne Hk) as (y & Hy & Hlen).
  exists y. split; [done|]. split; [done|].
  rewrite (check_oversampling_None w coarse c k Ec).
  unfold oversampled_loc, oversampling_allocs. rewrite Hreg, Hy.
  cbn [length]. by rewrite Nat.add_0_r.
Qed.

Lemma regular_record_is_info c k :
  is_linear c || is_logarithmic c = true ->
  exists msg, oversampling_record c k = (INFO, msg).
Proof.
  unfold oversampling_record. intros Hreg.
  destruct (is_linear c); [by eexists|].
  destruct (is_logarithmic c); [by eexists|done].
Qed.

(** X1.  On a linear or logarithmic axis of [N + 1] edges and with
    [oversample = k >= 1], [check_oversampling] logs one INFO record and
    hands back one new array of [k * (N + 1) - 1] edges: the fine grid
    has [k * N + k - 2] bins. *)
Theorem regular_axis_edge_count w coarse c N k :
  heap w !! coarse = Some c ->
  length (data c) = S N ->
  is_linear (data c) || is_logarithmic (data c) = true ->
  1 <= k ->
  exists l w' a msg,
    check_oversampling None coarse k w = (Ok l, w')
    /\ heap w' = heap w ++ [a]
    /\ logs w' = logs w ++ [(INFO, msg)]
    /\ heap w' !! l = Some a
    /\ l <> coarse
    /\ shape a = [length (data a)]
    /\ Z.of_nat (length (data a)) = k * (Z.of_nat N + 1) - 1
    /\ Z.of_nat (length (data a)) - 1 = k * Z.of_nat N + k - 2.
Proof.
  intros Ec Hlen Hreg Hk.
  destruct (check_oversampling_regular w coarse c k Ec Hreg) as (y & _ & Hy & Hrun);
    [by destruct (data c)|done|].
  destruct (regular_record_is_info (data c) k Hreg) as [msg Hmsg].
  rewrite Hmsg in Hrun.
  exists (length (heap w)), {| heap := heap w ++ [vec y];
                               logs := logs w ++ [(INFO, msg)] |}, (vec y), msg.
  cbn [heap logs data shape vec].
  split; [done|]. split; [done|]. split; [done|].
  split; [apply lookup_fresh|].
  split; [apply lookup_lt_Some in Ec; lia|].
  split; [done|].
  rewrite Hy, Hlen. lia.
Qed.


Lemma set_last_head x y ys z :
  set_last (x :: y :: ys) z = x :: set_last (y :: ys) z.
Proof. done. Qed.

Lemma set_last_last xs z :
  xs <> [] -> List.last (set_last xs z) 0%Q = z.
Proof.
  destruct xs as [|x xs]; [done|]. intros _. unfold set_last.
  by rewrite last_last.
Qed.

(** [np.linspace] with two samples or more starts at [start] and ends
    with [stop] itself. *)
Lemma np_linspace_ends a b num :
  2 <= num ->
  exists x rest,
    np_linspace a b num = Ok (x :: rest)
    /\ (x == a)%Q
    /\ List.last (x :: rest) 0%Q = b.
Proof.
  intros Hnum. unfold np_linspace.
  destruct (num <? 0) eqn:Hneg; [lia|].
  destruct (1 <? num) eqn:Hone; [|lia].
  destruct (0 <? num - 1) eqn:Hdiv; [|lia].
  destruct (Z.to_nat num) as [|[|n]] eqn:En; [lia|lia|].
  cbn [seq map]. rewrite set_last_head.
  eexists _, _. split; [reflexivity|]. split.
  - unfold fadd, fmul, of_int. rewrite !Qred_correct. cbn [Z.of_nat]. ring.
  - rewrite <- set_last_head. by apply set_last_last.
Qed.

(** X3.  On a linear axis, once [k * len(coarse_bins) - 1] is at least
    two, the fine grid spans the range of the coarse grid: it starts at
    the first coarse edge and ends with the last one. *)
Theorem linear_axis_keeps_range w coarse c k :
  heap w !! coarse = Some c ->
  is_linear (data c) = true ->
  3 <= k * Z.of_nat (length (data c)) ->
  exists l w' a a0 b0 x0,
    check_oversampling None coarse k w = (Ok l, w')
    /\ heap w' !! l = Some a
    /\ first_item (data c) = Ok a0
    /\ last_item (data c) = Ok b0
    /\ first_item (data a) = Ok x0
    /\ (x0 == a0)%Q
    /\ last_item (data a) = Ok b0.
Proof.
  intros Ec Hlin Hnum.
  assert (data c <> []) as Hne.
  { intros Hc. rewrite Hc in Hnum. cbn [length Z.of_nat] in Hnum. lia. }
  destruct (first_item_ok (data c) Hne) as [a0 Ha0].
  destruct (last_item_ok (data c) Hne) as [b0 Hb0].
  destruct (np_linspace_ends a0 b0 (k * Z.of_nat (length (data c)) - 1))
    as (x & rest & Hy & Hx & Hlast); [lia|].
  assert (oversampled_edges (data c) k = Ok (x :: rest)) as Hedges.
  { unfold oversampled_edges. by rewrite Hlin, Ha0, Hb0. }
  exists (length (heap w)),
    {| heap := heap w ++ [vec (x :: rest)];
       logs := logs w ++ [oversampling_record (data c) k] |},
    (vec (x :: rest)), a0, b0, x.
  split.
  { rewrite (check_oversampling_None w coarse c k Ec), Hedges.
    unfold oversampled_loc, oversampling_allocs. rewrite Hlin, Hedges.
    cbn [orb length]. by rewrite Nat.add_0_r. }
  cbn [heap data vec]. split; [apply lookup_fresh|].
  split; [done|]. split; [done|]. split; [done|]. split; [done|].
  unfold last_item. by rewrite Hlast.
Qed.

(** The run on an empty axis that passes for linear or logarithmic. *)
Lemma check_oversampling_empty w coarse c k :
  heap w !! coarse = Some c ->
  data c = [] ->
  is_linear (data c) || is_logarithmic (data c) = true ->
  check_oversampling None coarse k w
  = (Raise (IndexError "index 0 is out of bounds for axis 0 with size 0"),
     {| heap := heap w; logs := logs w ++ [oversampling_record (data c) k] |}).
Proof.
  intros Ec Hc Hreg.
  rewrite (check_oversampling_None w coarse c k Ec).
  unfold oversampling_allocs, oversampled_edges. rewrite Hreg.
  generalize (oversampling_record (data c) k). intros lg.
  rewrite Hc in Hreg |- *. cbn [first_item].
  destruct (is_linear []); [by rewrite app_nil_r|].
  destruct (is_logarithmic []); [by rewrite app_nil_r|done].
Qed.

(** X4.  On an empty axis that passes for linear or logarithmic,
    [coarse_bins[0]] fails: the call logs its INFO record and ends with
    an [IndexError], and no array is allocated. *)
Theorem empty_regular_axis_raises w coarse c k :
  heap w !! coarse = Some c ->
  data c = [] ->
  is_linear (data c) || is_logarithmic (data c) = true ->
  exists msg,
    check_oversampling None coarse k w
    = (Raise (IndexError "index 0 is out of bounds for axis 0 with size 0"),
       {| heap := heap w; logs := logs w ++ [(INFO, msg)] |}).
Proof.
  intros Ec Hc Hreg.
  destruct (regular_record_is_info (data c) k Hreg) as [msg Hmsg].
  exists msg. rewrite <- Hmsg. by apply check_oversampling_empty.
Qed.

(** X5.  On an irregular axis with [oversample <= 1] the loop does not
    run: after the warning the coarse array itself is handed back, and
    the fine grid and the coarse grid are one object. *)
Theorem irregular_axis_small_factor w coarse c k :
  heap w !! coarse = Some c ->
  is_linear (data c) = false ->
  is_logarithmic (data c) = false ->
  k <= 1 ->
  check_oversampling None coarse k w
  = (Ok coarse,
     {| heap := heap w;
        logs := logs w
                ++ [(WARNING, "Irregular binning detected! Evenly oversampling "
                              +:+ "by factor " +:+ string_of_Z k)] |}).
Proof.
  intros Ec Hlin Hlog Hk.
  rewrite (check_oversampling_None w coarse c k Ec).
  unfold oversampled_loc, oversampling_allocs, oversampled_edges,
    oversampling_record.
  rewrite Hlin, Hlog. cbn [orb].
  replace (Z.to_nat (k - 1)) with 0%nat by lia.
  unfold rounds. cbn [seq map length]. by rewrite app_nil_r.
Qed.

(** X6.  Whatever its arguments, [check_oversampling] only adds arrays
    to the store: the in-place sort of the insertion loop works on the
    copy that [np.append] has made, never on an array of the caller. *)
Theorem check_oversampling_only_appends fine coarse k w :
  exists ext,
    heap (snd (check_oversampling fine coarse k w)) = heap w ++ ext
    /\ forall l a, heap w !! l = Some a ->
                   heap (snd (check_oversampling fine coarse k w)) !! l = Some a.
Proof.
  assert (exists ext,
             heap (snd (check_oversampling fine coarse k w)) = heap w ++ ext)
    as [ext Hext].
  { destruct (heap w !! coarse) as [c|] eqn:Ec.
    - destruct fine as [lf|].
      + destruct (heap w !! lf) as [f|] eqn:Ef.
        * rewrite (check_oversampling_Some w lf coarse f c k Ef Ec).
          exists []. rewrite app_nil_r.
          by destruct (is_coarser_binning (data c) (data f)).
        * exists []. rewrite app_nil_r.
          unfold check_oversampling, bind. rewrite (load_ok _ _ _ Ec).
          unfold load. by rewrite Ef.
      + rewrite (check_oversampling_None w coarse c k Ec). by eexists.
    - exists []. rewrite app_nil_r.
      unfold check_oversampling. destruct fine; unfold bind, load; by rewrite Ec. }
  exists ext. split; [done|].
  intros l a El. rewrite Hext. by apply lookup_app_l_Some.
Qed.

(** ** The constructor *)

(** X7.  On rectangular numeric arguments the constructor checks
    [ebins] first: the message of its [IndexError] shows the shape of
    [ebins] when that is not one-dimensional, whatever the shape of
    [czbins], and the shape of [czbins] otherwise.  Both copies are in
    the store by then. *)
Theorem constructor_reports_first_bad_axis C ebins0 czbins0 w :
  rectangular ebins0 = true ->
  rectangular czbins0 = true ->
  let w' := {| heap := heap w ++ [np_array ebins0; np_array czbins0];
               logs := logs w ++ [(DEBUG, "Instantiating " +:+ name C)] |} in
  (length (np_shape ebins0) <> 1%nat ->
     __init__ C ebins0 czbins0 w
     = (Raise (IndexError ("Axes must be 1d! " +:+ str_shape (np_shape ebins0))),
        w'))
  /\ (length (np_shape ebins0) = 1%nat ->
      length (np_shape czbins0) <> 1%nat ->
      __init__ C ebins0 czbins0 w
      = (Raise (IndexError ("Axes must be 1d! " +:+ str_shape (np_shape czbins0))),
         w')).
Proof.
  intros _ _ w'. rewrite init_run. fold w'. split.
  - intros He. apply Nat.eqb_neq in He. by rewrite He.
  - intros He Hcz. apply Nat.eqb_eq in He. apply Nat.eqb_neq in Hcz.
    by rewrite He, Hcz.
Qed.

(** X8.  A service that has been constructed holds two new arrays of
    its own, distinct from each other and from every array that existed
    before, and the constructor changes none of those. *)
Theorem constructor_copies_axes C ebins0 czbins0 w self w' :
  __init__ C ebins0 czbins0 w = (Ok self, w') ->
  ebins self = length (heap w)
  /\ czbins self = S (length (heap w))
  /\ ebins self <> czbins self
  /\ heap w' = heap w ++ [np_array ebins0; np_array czbins0]
  /\ forall l a, heap w !! l = Some a ->
                 heap w' !! l = Some a /\ l <> ebins self /\ l <> czbins self.
Proof.
  rewrite init_run.
  destruct (negb (length (np_shape ebins0) =? 1)%nat); [done|].
  destruct (negb (length (np_shape czbins0) =? 1)%nat); [done|].
  intros [= <- <-]. cbn [ebins czbins heap].
  split; [done|]. split; [done|]. split; [lia|]. split; [done|].
  intros l a El. split; [by apply lookup_app_l_Some|].
  apply lookup_lt_Some in El. lia.
Qed.

(** ** The table builder with explicit fine edges *)

(** X9.  With fine edges given on both axes, the builder allocates no
    edge array: the table it hands to the hook holds, per axis, the
    caller's fine array itself when it refines the coarse axis and the
    array of the service otherwise; its twelve maps are the only new
    objects, and [oversample] does not enter. *)
Theorem explicit_fine_edges_reach_the_hook C self lf lcz k p w e cz fe fcz :
  heap w !! ebins self = Some e ->
  heap w !! czbins self = Some cz ->
  heap w !! lf = Some fe ->
  heap w !! lcz = Some fcz ->
  let le' := if is_coarser_binning (data e) (data fe) then lf else ebins self in
  let lcz' := if is_coarser_binning (data cz) (data fcz) then lcz
              else czbins self in
  exists a_e a_cz lg1 lg2,
    heap w !! le' = Some a_e
    /\ heap w !! lcz' = Some a_cz
    /\ get_osc_probLT_dict C self (Some lf) (Some lcz) k p w
       = resolve_fill_osc_prob C self
           (fresh_table le' lcz' (length (heap w)))
           (get_bin_centers (data a_e)) (get_bin_centers (data a_cz)) p
           {| heap := heap w
                      ++ repeat (np_zeros [length (get_bin_centers (data a_e));
                                           length (get_bin_centers (data a_cz))])
                           12;
              logs := logs w ++ [lg1; lg2] |}.
Proof.
  intros Ee Ecz Efe Efcz le' lcz'.
  pose proof (check_oversampling_Some w lf (ebins self) fe e k Efe Ee) as Hrun1.
  set (w1 := {| heap := heap w;
                logs := logs w
                        ++ [if is_coarser_binning (data e) (data fe)
                            then (INFO, "Using requested binning for oversampling.")
                            else (WARNING,
                                  "Requested oversampled binning is coarser "
                                  +:+ "than output binning. Will use output binning.")] |}).
  assert (check_oversampling (Some lf) (ebins self) k w = (Ok le', w1)) as Hrun1'.
  { rewrite Hrun1. subst le' w1.
    by destruct (is_coarser_binning (data e) (data fe)). }
  pose proof (check_oversampling_Some w1 lcz (czbins self) fcz cz k Efcz Ecz)
    as Hrun2.
  set (w2 := {| heap := heap w;
                logs := logs w1
                        ++ [if is_coarser_binning (data cz) (data fcz)
                            then (INFO, "Using requested binning for oversampling.")
                            else (WARNING,
                                  "Requested oversampled binning is coarser "
                                  +:+ "than output binning. Will use output binning.")] |}).
  assert (check_oversampling (Some lcz) (czbins self) k w1 = (Ok lcz', w2))
    as Hrun2'.
  { rewrite Hrun2. subst lcz' w2.
    by destruct (is_coarser_binning (data cz) (data fcz)). }
  assert (exists a_e, heap w !! le' = Some a_e) as [a_e Ha_e].
  { subst le'. destruct (is_coarser_binning (data e) (data fe)); eauto. }
  assert (exists a_cz, heap w !! lcz' = Some a_cz) as [a_cz Ha_cz].
  { subst lcz'. destruct (is_coarser_binning (data cz) (data fcz)); eauto. }
  eexists a_e, a_cz, _, _. split; [done|]. split; [done|].
  rewrite (get_osc_probLT_dict_delegates C self (Some lf) (Some lcz) k p w
             le' w1 lcz' w2 a_e a_cz Hrun1' Hrun2' Ha_e Ha_cz).
  subst w2 w1. cbn [heap logs]. by rewrite <- app_assoc.
Qed.

(** ** The result of [get_osc_prob_maps] *)

(** The call, for any class: the table builder, then the smoothing. *)
Lemma get_osc_prob_maps_two_steps C self kw w d w' :
  get_osc_prob_maps C self kw w = (Ok d, w') ->
  exists t' w3,
    get_osc_probLT_dict C self (fine_ebins kw) (fine_czbins kw)
      (default default_oversample (oversample kw)) (params kw)
      {| heap := heap w;
         logs := logs w ++ [(INFO, "Retrieving finely binned maps")] |}
    = (Ok t', w3)
    /\ smoothing_pass self t' w3 = (Ok d, w').
Proof.
  rewrite get_osc_prob_maps_unfold. intros Hrun.
  apply bind_Ok in Hrun as (t' & w3 & HLT & Hpass). by exists t', w3.
Qed.

(** X10.  The table [get_osc_prob_maps] returns shares its two edge
    arrays with the service: [ebins] and [czbins] hold the very objects
    [self.ebins] and [self.czbins], whatever the hook and the
    strategies.  When the hook writes into the probability arrays of
    its table only and the strategies return new arrays, every map of
    the result is an object that did not exist before the call. *)
Theorem result_shares_service_axes C self kw w d w' :
  get_osc_prob_maps C self kw w = (Ok d, w') ->
  dict_get "ebins" d = Some (Edges (ebins self))
  /\ dict_get "czbins" d = Some (Edges (czbins self))
  /\ (fills_in_place (resolve_fill_osc_prob C) ->
      strategies_allocate ->
      forall l, l ∈ prob_locs d ->
                (length (heap w) <= l < length (heap w'))%nat).
Proof.
  intros Hrun.
  destruct (get_osc_prob_maps_two_steps C self kw w d w' Hrun)
    as (t' & w3 & HLT & Hpass).
  destruct (smoothing_pass_axes self t' w3 d w' Hpass) as [He Hcz].
  split; [done|]. split; [done|].
  intros Hfill Ha l Hl.
  pose proof (smoothing_pass_fresh self t' w3 d w' Ha Hpass l Hl) as Hnew.
  pose proof (get_osc_probLT_dict_frame C self _ _ _ _ _ _ w3 Hfill HLT)
    as Hframe.
  cbn [heap] in Hframe.
  assert (length (heap w) <= length (heap w3))%nat; [|lia].
  destruct (decide (length (heap w) <= length (heap w3))%nat) as [|Hlt]; [done|].
  assert (is_Some (heap w !! length (heap w3))) as [a Hlook].
  { apply lookup_lt_is_Some. lia. }
  apply Hframe in Hlook. apply lookup_lt_Some in Hlook. lia.
Qed.

(** X11.  Whenever [get_osc_prob_maps] returns, the value of its table
    is the smoothing of the value of the table the hook has handed
    back, map by map and in the order of that table, with one strategy
    for the whole call: the integer rebinning when [subbinning] of the
    coarse axes and the fine axes of the hook's table gives a non-empty
    answer, [get_smoothed_map] otherwise.  That holds for any hook, when
    the strategies meet their contract. *)
Theorem result_maps_are_smoothed_fine_maps C self kw w t' w3 tv d w' :
  strategies_allocate ->
  strategies_compute ->
  get_osc_probLT_dict C self (fine_ebins kw) (fine_czbins kw)
    (default default_oversample (oversample kw)) (params kw)
    {| heap := heap w;
       logs := logs w ++ [(INFO, "Retrieving finely binned maps")] |}
  = (Ok t', w3) ->
  deref (heap w3) t' = Some tv ->
  get_osc_prob_maps C self kw w = (Ok d, w') ->
  exists e cz fe fcz v,
    heap w3 !! ebins self = Some e
    /\ heap w3 !! czbins self = Some cz
    /\ dict_get "ebins" tv = Some (EdgesV fe)
    /\ dict_get "czbins" tv = Some (EdgesV fcz)
    /\ smoothed_table_val
         (fun m =>
            match subbinning [data e; data cz] [data fe; data fcz] with
            | Some (ax :: axes) => integer_rebin_value m (ax :: axes)
            | _ => smoothed_value m (data fe) (data fcz) (data e) (data cz)
            end)
         tv [("ebins", EdgesV e); ("czbins", EdgesV cz)]
       = Ok v
    /\ deref (heap w') d = Some v.
Proof.
  intros Ha Hc HLT Htv Hrun.
  destruct (get_osc_prob_maps_two_steps C self kw w d w' Hrun)
    as (t'' & w3' & HLT' & Hpass).
  rewrite HLT in HLT'. injection HLT' as <- <-.
  destruct (smoothing_pass_value self t' w3 d w' tv Ha Hc Htv Hpass)
    as (e & cz & fe & fcz & v & Ee & Ecz & K1 & K2 & Hv & Hd).
  exists e, cz, fe, fcz, v. done.
Qed.

(** X12.  A hook that hands back its table without the key [ebins]
    makes the call fail: [fine_maps['ebins']] raises [KeyError] right
    after the record that announces the smoothing, and nothing is
    allocated after the hook. *)
Theorem hook_without_ebins_key_fails C self kw w t' w3 e cz :
  get_osc_probLT_dict C self (fine_ebins kw) (fine_czbins kw)
    (default default_oversample (oversample kw)) (params kw)
    {| heap := heap w;
       logs := logs w ++ [(INFO, "Retrieving finely binned maps")] |}
  = (Ok t', w3) ->
  heap w3 !! ebins self = Some e ->
  heap w3 !! czbins self = Some cz ->
  dict_get "ebins" t' = None ->
  get_osc_prob_maps C self kw w
  = (Raise (KeyError "ebins"),
     {| heap := heap w3;
        logs := logs w3 ++ [(INFO, "Smoothing fine maps...")] |}).
Proof.
  intros HLT Ee Ecz Hkey.
  unfold get_osc_prob_maps.
  unfold bind at 1. unfold logging at 1.
  unfold bind at 1. rewrite HLT.
  unfold bind at 1. unfold logging at 1.
  unfold bind at 1. rewrite load_ok with (a := e) by done.
  unfold bind at 1. rewrite load_ok with (a := cz) by done.
  unfold bind at 1. unfold edges_of at 1. by rewrite Hkey.
Qed.


End more_properties.

(** * Properties of the post-processing helpers *)

(** ** Dictionaries *)

Lemma dict_mem_true {V} k (d : dict V) :
  dict_mem k d = true -> exists v, dict_get k d = Some v /\ In v (map snd d).
Proof.
  unfold dict_mem, keys. induction d as [|[k' v] rest IH]; [done|].
  cbn [map fst snd existsb dict_get].
  destruct (String.eqb k k'); [intros _; exists v; split; [done|by left]|].
  cbn [orb]. intros Hm. destruct (IH Hm) as (v' & Hv' & Hin).
  exists v'. split; [done|by right].
Qed.

Lemma dict_mem_false {V} k (d : dict V) :
  dict_mem k d = false -> dict_get k d = None.
Proof.
  unfold dict_mem, keys. induction d as [|[k' v] rest IH]; [done|].
  cbn [map fst snd existsb dict_get].
  destruct (String.eqb k k'); [done|]. cbn [orb]. apply IH.
Qed.

Lemma dict_get_In {V} k (d : dict V) v :
  dict_get k d = Some v -> In (k, v) d.
Proof.
  induction d as [|[k' v'] rest IH]; [done|]. cbn [dict_get].
  destruct (String.eqb k k') eqn:E.
  - apply String.eqb_eq in E as ->. intros [= ->]. by left.
  - intros Hg. right. by apply IH.
Qed.

Lemma values_determine_keys {V} (d : dict V) k1 k2 v :
  List.NoDup (map snd d) -> In (k1, v) d -> In (k2, v) d -> k1 = k2.
Proof.
  induction d as [|[k' v'] rest IH]; [done|].
  cbn [map snd]. intros Hnd. inversion Hnd as [|? ? Hnotin Hnd']; subst.
  intros [[= -> ->]|H1] [[= ->]|H2]; try done.
  - destruct Hnotin. change v with (snd (k2, v)). by apply in_map.
  - subst. destruct Hnotin. change v with (snd (k1, v)). by apply in_map.
  - by apply IH.
Qed.

Lemma filter_all {A} (f : A -> bool) (l : list A) :
  (forall x, In x l -> f x = true) -> List.filter f l = l.
Proof.
  induction l as [|x l IH]; [done|]. intros Hall. cbn [List.filter].
  rewrite (Hall x) by (by left). f_equal. apply IH. intros y Hy.
  apply Hall. by right.
Qed.

Lemma filter_none {A} (f : A -> bool) (l : list A) :
  (forall x, In x l -> f x = false) -> List.filter f l = [].
Proof.
  induction l as [|x l IH]; [done|]. intros Hall. cbn [List.filter].
  rewrite (Hall x) by (by left). apply IH. intros y Hy. apply Hall. by right.
Qed.

Lemma filter_twice {A} (f g : A -> bool) (l : list A) :
  List.filter f (List.filter g l) = List.filter (fun x => g x && f x) l.
Proof.
  induction l as [|x l IH]; [done|]. cbn [List.filter].
  destruct (g x); cbn [andb List.filter]; [|done].
  destruct (f x); by rewrite IH.
Qed.

Lemma keys_filter {V} (f : string -> bool) (d : dict V) :
  keys (List.filter (fun kv => f (fst kv)) d) = List.filter f (keys d).
Proof.
  unfold keys. induction d as [|[k v] rest IH]; [done|].
  cbn [List.filter map fst]. destruct (f k); cbn [map fst]; by rewrite IH.
Qed.

Lemma NoDup_filter_keys {V} (f : string -> bool) (d : dict V) :
  List.NoDup (keys d) -> List.NoDup (keys (List.filter (fun kv => f (fst kv)) d)).
Proof. rewrite keys_filter. apply List.NoDup_filter. Qed.

Lemma dict_get_filter {V} (f : string -> bool) (d : dict V) k :
  dict_get k (List.filter (fun kv => f (fst kv)) d)
  = if f k then dict_get k d else None.
Proof.
  induction d as [|[k' v] rest IH]; [by destruct (f k)|].
  cbn [List.filter fst dict_get].
  destruct (String.eqb k k') eqn:E.
  - apply String.eqb_eq in E as ->.
    destruct (f k') eqn:Ef; cbn [dict_get].
    + by rewrite String.eqb_refl.
    + rewrite IH. by rewrite ?Ef.
  - destruct (f k') eqn:Ef; cbn [dict_get]; [by rewrite E|done].
Qed.

(** On a dict, [pop] removes the entry of the key. *)
Lemma dict_pop_filter {V} k (d : dict V) :
  List.NoDup (keys d) ->
  dict_pop k d = List.filter (fun kv => negb (String.eqb k (fst kv))) d.
Proof.
  unfold keys. induction d as [|[k' v] rest IH]; [done|].
  cbn [map fst]. intros Hnd. inversion Hnd as [|? ? Hnotin Hnd']; subst.
  cbn [dict_pop List.filter fst].
  destruct (String.eqb k k') eqn:E; cbn [negb].
  - apply String.eqb_eq in E as ->. symmetry. apply filter_all.
    intros [k v'] Hin. cbn [fst].
    destruct (String.eqb k' k) eqn:E'; [|done].
    apply String.eqb_eq in E' as ->. destruct Hnotin.
    change k with (fst (k, v')). by apply in_map.
  - f_equal. by apply IH.
Qed.

(** The loop of [extract_fit] over a list of keys. *)
Lemma extract_loop {V} (keep : string -> bool) (l : list string) :
  forall (d : dict V) w,
    List.NoDup (keys d) ->
    for_each l
      (fun key (info : dict V) =>
         if negb (keep key) then ret (dict_pop key info) else ret info)
      d w
    = (Ok (List.filter
             (fun kv => keep (fst kv) || negb (existsb (String.eqb (fst kv)) l))
             d), w).
Proof.
  induction l as [|a l IH]; intros d w Hnd.
  - cbn [for_each existsb]. unfold ret. f_equal. f_equal. symmetry.
    apply filter_all. intros x _. by rewrite orb_true_r.
  - cbn [for_each existsb]. unfold bind.
    destruct (keep a) eqn:Ka; cbn [negb]; unfold ret at 1.
    + rewrite IH by done. f_equal. f_equal. apply List.filter_ext.
      intros [k v]. cbn [fst].
      destruct (String.eqb k a) eqn:E; [|done].
      apply String.eqb_eq in E as ->. by rewrite Ka.
    + rewrite dict_pop_filter by done.
      rewrite IH by (by apply (NoDup_filter_keys (fun k => negb (String.eqb a k)))).
      f_equal. f_equal. rewrite filter_twice. apply List.filter_ext.
      intros [k v]. cbn [fst]. rewrite (String.eqb_sym a k).
      destruct (String.eqb k a) eqn:E; cbn [negb andb orb]; [|done].
      apply String.eqb_eq in E as ->. by rewrite Ka.
Qed.

Lemma extract_fit_run {V} (from_file : string -> M (dict V)) fpath keys0 info w w' :
  from_file fpath w = (Ok info, w') ->
  List.NoDup (keys info) ->
  let wanted := match keys0 with
                | KeyString key => [key]
                | KeyList ks => ks
                end in
  extract_fit from_file fpath (Some keys0) w
  = (Ok (List.filter (fun kv => existsb (String.eqb (fst kv)) wanted) info), w').
Proof.
  intros Hfile Hnd wanted. unfold extract_fit, bind. rewrite Hfile.
  fold wanted.
  rewrite (extract_loop (fun key => existsb (String.eqb key) wanted)) by done.
  f_equal. f_equal. apply List.filter_ext_in. intros [k v] Hin. cbn [fst].
  assert (existsb (String.eqb k) (keys info) = true) as ->.
  { apply existsb_exists. exists k. split; [|apply String.eqb_refl].
    change k with (fst (k, v)). by apply in_map. }
  by rewrite orb_false_r.
Qed.

Lemma filter_one_key {V} key (d : dict V) :
  List.NoDup (keys d) ->
  List.filter (fun kv => existsb (String.eqb (fst kv)) [key]) d
  = match dict_get key d with
    | Some v => [(key, v)]
    | None => []
    end.
Proof.
  unfold keys. induction d as [|[k v] rest IH]; [done|].
  cbn [map fst]. intros Hnd. inversion Hnd as [|? ? Hnotin Hnd']; subst.
  cbn [List.filter fst existsb dict_get]. rewrite orb_false_r.
  rewrite (String.eqb_sym key k).
  destruct (String.eqb k key) eqn:E.
  - apply String.eqb_eq in E as ->. f_equal. apply filter_none.
    intros [k' v'] Hin. cbn [fst existsb]. rewrite orb_false_r.
    destruct (String.eqb k' key) eqn:E'; [|done].
    apply String.eqb_eq in E' as ->. destruct Hnotin.
    change key with (fst (key, v')). by apply in_map.
  - by apply IH.
Qed.

(** ** make_pretty *)

Lemma pretty_values_are_no_labels :
  Forall (fun pretty => dict_mem pretty pretty_labels = false)
    (map snd pretty_labels).
Proof. vm_compute. repeat constructor. Qed.

Lemma pretty_values_distinct : List.NoDup (map snd pretty_labels).
Proof. apply NoDup_ListNoDup, (bool_decide_unpack _). by vm_compute. Qed.

Lemma make_pretty_unknown label w :
  dict_mem label pretty_labels = false ->
  make_pretty label w
  = (Ok label,
     {| heap := heap w;
        logs := logs w
                ++ [(WARNING, "I don't know what to do with " +:+ label
                              +:+ ". Returning as is.")] |}).
Proof. intros Hm. unfold make_pretty. by rewrite Hm. Qed.

Lemma make_pretty_known label w :
  dict_mem label pretty_labels = true ->
  exists pretty,
    dict_get label pretty_labels = Some pretty
    /\ dict_mem pretty pretty_labels = false
    /\ make_pretty label w = (Ok pretty, w).
Proof.
  intros Hm. destruct (dict_mem_true _ _ Hm) as (pretty & Hget & Hin).
  exists pretty. split; [done|]. split.
  - pose proof pretty_values_are_no_labels as Hall.
    rewrite List.Forall_forall in Hall. by apply Hall.
  - unfold make_pretty. by rewrite Hm, Hget.
Qed.

(** X14.  [make_pretty] never raises and touches no array.  What it
    returns is a fixed point: no plot label is itself a key of the
    table, so a second call on the result returns it as it is, with the
    warning. *)
Theorem make_pretty_is_idempotent label w :
  exists pretty w1,
    make_pretty label w = (Ok pretty, w1)
    /\ heap w1 = heap w
    /\ make_pretty pretty w1
       = (Ok pretty,
          {| heap := heap w;
             logs := logs w1
                     ++ [(WARNING, "I don't know what to do with " +:+ pretty
                                   +:+ ". Returning as is.")] |}).
Proof.
  destruct (dict_mem label pretty_labels) eqn:Hm.
  - destruct (make_pretty_known label w Hm) as (pretty & _ & Hno & Hrun).
    exists pretty, w. split; [done|]. split; [done|].
    by apply make_pretty_unknown.
  - eexists _, _. split; [by apply make_pretty_unknown|].
    split; [done|]. by rewrite make_pretty_unknown.
Qed.

(** X15.  The warning is logged exactly for the labels the table does
    not know, and those come back unchanged. *)
Theorem make_pretty_warns_iff_unknown label w :
  (snd (make_pretty label w) = w <-> dict_mem label pretty_labels = true)
  /\ (dict_mem label pretty_labels = false ->
      fst (make_pretty label w) = Ok label).
Proof.
  split; [|intros Hm; by rewrite make_pretty_unknown].
  destruct (dict_mem label pretty_labels) eqn:Hm.
  - destruct (make_pretty_known label w Hm) as (pretty & _ & _ & ->). done.
  - rewrite make_pretty_unknown by done. cbn [snd]. split; [|done].
    intros Hw. apply (f_equal (fun w0 => length (logs w0))) in Hw.
    cbn [logs] in Hw. rewrite length_app in Hw. cbn [length] in Hw. lia.
Qed.

(** X16.  Two distinct labels of the table never share a plot label:
    on known labels [make_pretty] is injective, so the test
    [make_pretty(xsystkey) not in Systs] of the correlation plots drops
    no systematic. *)
Theorem make_pretty_separates_known_labels l1 l2 w1 w2 :
  dict_mem l1 pretty_labels = true ->
  dict_mem l2 pretty_labels = true ->
  l1 <> l2 ->
  fst (make_pretty l1 w1) <> fst (make_pretty l2 w2).
Proof.
  intros H1 H2 Hne.
  destruct (make_pretty_known l1 w1 H1) as (p1 & Hg1 & _ & ->).
  destruct (make_pretty_known l2 w2 H2) as (p2 & Hg2 & _ & ->).
  cbn [fst]. intros [= ->]. apply Hne.
  apply (values_determine_keys pretty_labels l1 l2 p2 pretty_values_distinct);
    by apply dict_get_In.
Qed.

(** ** get_num_rows *)

Lemma quot4_nonneg n : 0 <= n -> 4 * Z.quot n 4 + n mod 4 = n.
Proof.
  intros Hn. rewrite Z.quot_div_nonneg by lia.
  pose proof (Z.div_mod n 4). lia.
Qed.

(** X17.  Without [omit_metric], the number of rows is the least one
    whose four columns hold every key of the data. *)
Theorem get_num_rows_is_ceiling {V} (data : dict V) :
  let len := Z.of_nat (length (keys data)) in
  let num_rows := get_num_rows data false in
  len <= 4 * num_rows < len + 4.
Proof.
  intros len num_rows. subst num_rows. unfold get_num_rows. fold len.
  assert (0 <= len) as Hlen by lia.
  pose proof (quot4_nonneg len Hlen) as Hq.
  pose proof (Z.mod_pos_bound len 4 ltac:(lia)) as Hm.
  destruct (len mod 4 =? 0) eqn:E; cbn [negb]; lia.
Qed.

(** X18.  With [omit_metric], the remainder is still taken of the full
    number of keys: when that is a positive multiple of four the result
    is one less than a quarter of it, and its four columns cannot hold
    the keys that are left after the metric is taken out; for every
    other number of keys they can. *)
Theorem get_num_rows_omit_metric {V} (data : dict V) :
  let len := Z.of_nat (length (keys data)) in
  let num_rows := get_num_rows data true in
  (len - 1 <= 4 * num_rows <-> len mod 4 <> 0 \/ len = 0)
  /\ (len mod 4 = 0 -> 0 < len -> 4 * num_rows = len - 4).
Proof.
  intros len num_rows. subst num_rows. unfold get_num_rows. fold len.
  assert (0 <= len) as Hlen by lia. clearbody len.
  destruct (decide (len = 0)) as [->|Hpos].
  { replace (Z.quot (0 - 1) 4) with 0 by reflexivity.
    replace (0 mod 4 =? 0) with true by reflexivity. cbn [negb]. lia. }
  pose proof (quot4_nonneg (len - 1) ltac:(lia)) as Hq.
  pose proof (Z.mod_pos_bound (len - 1) 4 ltac:(lia)) as Hm1.
  pose proof (Z.mod_pos_bound len 4 ltac:(lia)) as Hm.
  pose proof (Z.div_mod len 4 ltac:(lia)) as Hd.
  pose proof (Z.div_mod (len - 1) 4 ltac:(lia)) as Hd1.
  assert (len mod 4 = 0 -> (len - 1) mod 4 = 3) as Hrem.
  { intros E. symmetry.
    apply (Z.mod_unique_pos (len - 1) 4 (len / 4 - 1) 3); lia. }
  destruct (len mod 4 =? 0) eqn:E; cbn [negb].
  - apply Z.eqb_eq in E. specialize (Hrem E). lia.
  - apply Z.eqb_neq in E. lia.
Qed.

(** ** extract_fit *)

(** X19.  With keys given, [extract_fit] returns the entries of the
    file whose key is wanted, in the order of the file and with their
    values, and nothing else: popping from the dict while the loop runs
    over the list of its keys skips no entry. *)
Theorem extract_fit_selects {V} (from_file : string -> M (dict V)) fpath keys0
    info w w' :
  from_file fpath w = (Ok info, w') ->
  List.NoDup (keys info) ->
  let wanted := match keys0 with
                | KeyString key => [key]
                | KeyList ks => ks
                end in
  exists out,
    extract_fit from_file fpath (Some keys0) w = (Ok out, w')
    /\ keys out
       = List.filter (fun k => existsb (String.eqb k) wanted) (keys info)
    /\ forall k, dict_get k out
                 = if existsb (String.eqb k) wanted then dict_get k info
                   else None.
Proof.
  intros Hfile Hnd wanted. eexists. split.
  - by apply extract_fit_run.
  - fold wanted. split.
    + apply (keys_filter (fun k => existsb (String.eqb k) wanted)).
    + intros k.
      apply (dict_get_filter (fun k => existsb (String.eqb k) wanted)).
Qed.

(** X20.  A string stands for the list of that one key, not for its
    characters: the result holds the entry of that key when the file
    has it and is empty otherwise. *)
Theorem extract_fit_string_key {V} (from_file : string -> M (dict V)) fpath key
    info w w' :
  from_file fpath w = (Ok info, w') ->
  List.NoDup (keys info) ->
  extract_fit from_file fpath (Some (KeyString key)) w
  = (Ok match dict_get key info with
        | Some v => [(key, v)]
        | None => []
        end, w')
  /\ extract_fit from_file fpath (Some (KeyString key)) w
     = extract_fit from_file fpath (Some (KeyList [key])) w.
Proof.
  intros Hfile Hnd.
  rewrite (extract_fit_run from_file fpath (KeyString key) info w w' Hfile Hnd).
  rewrite (extract_fit_run from_file fpath (KeyList [key]) info w w' Hfile Hnd).
  split; [|done]. by rewrite filter_one_key.
Qed.

(** * The further properties on sample inputs *)

Lemma sample_fit_is_a_dict : List.NoDup (keys sample_fit).
Proof. apply NoDup_ListNoDup, (bool_decide_unpack _). vm_compute. exact I. Defined.

Lemma regular_axis_edge_count_witness :
  exists l w' a msg,
    @check_oversampling decimal_libm toy_utils None 0%nat 3 edges_world = (Ok l, w')
    /\ heap w' = heap edges_world ++ [a]
    /\ logs w' = logs edges_world ++ [(INFO, msg)]
    /\ heap w' !! l = Some a
    /\ l <> 0%nat
    /\ shape a = [length (data a)]
    /\ Z.of_nat (length (data a)) = 3 * (Z.of_nat 3 + 1) - 1
    /\ Z.of_nat (length (data a)) - 1 = 3 * Z.of_nat 3 + 3 - 2.
Proof.
  apply (@regular_axis_edge_count decimal_libm toy_utils edges_world 0%nat
           (vec [1; 2; 3; 4]%Q) 3%nat 3 eq_refl eq_refl eq_refl).
  lia.
Defined.


Lemma linear_axis_keeps_range_witness :
  exists l w' a a0 b0 x0,
    @check_oversampling decimal_libm toy_utils None 0%nat 2 edges_world = (Ok l, w')
    /\ heap w' !! l = Some a
    /\ first_item [1; 2; 3; 4]%Q = Ok a0
    /\ last_item [1; 2; 3; 4]%Q = Ok b0
    /\ first_item (data a) = Ok x0
    /\ (x0 == a0)%Q
    /\ last_item (data a) = Ok b0.
Proof.
  apply (@linear_axis_keeps_range decimal_libm toy_utils edges_world 0%nat
           (vec [1; 2; 3; 4]%Q) 2 eq_refl eq_refl).
  cbn. lia.
Defined.

Lemma check_oversampling_only_appends_witness :
  exists ext,
    heap (snd (@check_oversampling decimal_libm toy_utils None 3%nat 3 edges_world))
    = heap edges_world ++ ext.
Proof.
  destruct (@check_oversampling_only_appends decimal_libm toy_utils None 3%nat 3
              edges_world) as (ext & Hext & _).
  exists ext. exact Hext.
Defined.

Lemma empty_regular_axis_raises_witness :
  exists msg,
    @check_oversampling decimal_libm toy_utils None 0%nat 2 empty_axis_world
    = (Raise (IndexError "index 0 is out of bounds for axis 0 with size 0"),
       {| heap := heap empty_axis_world;
          logs := logs empty_axis_world ++ [(INFO, msg)] |}).
Proof.
  exact (@empty_regular_axis_raises decimal_libm toy_utils empty_axis_world
           0%nat (vec []) 2 eq_refl eq_refl eq_refl).
Defined.

Lemma irregular_axis_small_factor_witness :
  @check_oversampling decimal_libm toy_utils None 3%nat 1 edges_world
  = (Ok 3%nat,
     {| heap := heap edges_world;
        logs := logs edges_world
                ++ [(WARNING, "Irregular binning detected! Evenly oversampling "
                              +:+ "by factor " +:+ string_of_Z 1)] |}).
Proof.
  apply (@irregular_axis_small_factor decimal_libm toy_utils edges_world 3%nat
           (vec [1; 2; 4; 7]%Q) 1 eq_refl eq_refl eq_refl).
  lia.
Defined.

Lemma constructor_reports_first_bad_axis_witness :
  OscillationServiceBase.__init__ ToyOscillationService
    (Seq [Seq [Num 1; Num 2]; Seq [Num 3; Num 4]]) (Num 5) empty_world
  = (Raise (IndexError
              ("Axes must be 1d! "
               +:+ str_shape (np_shape (Seq [Seq [Num 1; Num 2];
                                             Seq [Num 3; Num 4]])))),
     {| heap := heap empty_world
                ++ [np_array (Seq [Seq [Num 1; Num 2]; Seq [Num 3; Num 4]]);
                    np_array (Num 5)];
        logs := logs empty_world
                ++ [(DEBUG, "Instantiating " +:+ name ToyOscillationService)] |}).
Proof.
  apply (constructor_reports_first_bad_axis ToyOscillationService
           (Seq [Seq [Num 1; Num 2]; Seq [Num 3; Num 4]]) (Num 5) empty_world
           eq_refl eq_refl).
  discriminate.
Defined.

Lemma constructor_copies_axes_witness :
  ebins sample_service = length (heap empty_world)
  /\ czbins sample_service = S (length (heap empty_world))
  /\ ebins sample_service <> czbins sample_service
  /\ heap built_world
     = heap empty_world ++ [np_array sample_ebins; np_array sample_czbins]
  /\ forall l a, heap empty_world !! l = Some a ->
                 heap built_world !! l = Some a
                 /\ l <> ebins sample_service /\ l <> czbins sample_service.
Proof.
  exact (constructor_copies_axes ToyOscillationService sample_ebins
           sample_czbins empty_world sample_service built_world eq_refl).
Defined.

Lemma explicit_fine_edges_reach_the_hook_witness :
  exists a_e a_cz lg1 lg2,
    heap fine_world !! 2%nat = Some a_e
    /\ heap fine_world !! 3%nat = Some a_cz
    /\ @OscillationServiceBase.get_osc_probLT_dict decimal_libm toy_utils
         ToyOscillationService sample_service (Some 2%nat) (Some 3%nat) 7
         no_params fine_world
       = fill_with toy_prob sample_service
           (fresh_table 2 3 (length (heap fine_world)))
           (@get_bin_centers toy_utils (data a_e))
           (@get_bin_centers toy_utils (data a_cz)) no_params
           {| heap := heap fine_world
                      ++ repeat
                           (np_zeros
                              [length (@get_bin_centers toy_utils (data a_e));
                               length (@get_bin_centers toy_utils (data a_cz))])
                           12;
              logs := logs fine_world ++ [lg1; lg2] |}.
Proof.
  exact (@explicit_fine_edges_reach_the_hook decimal_libm toy_utils
           ToyOscillationService sample_service 2%nat 3%nat 7 no_params
           fine_world (np_array sample_ebins) (np_array sample_czbins)
           (vec fine_e_example) (vec fine_cz_example)
           eq_refl eq_refl eq_refl eq_refl).
Defined.

Lemma result_shares_service_axes_witness :
  dict_get "ebins" first_table = Some (Edges (ebins sample_service))
  /\ dict_get "czbins" first_table = Some (Edges (czbins sample_service))
  /\ forall l, l ∈ prob_locs first_table ->
               (length (heap built_world) <= l < length (heap (snd first_call)))%nat.
Proof.
  destruct (@result_shares_service_axes decimal_libm toy_utils
              ToyOscillationService sample_service default_kwargs built_world
              first_table (snd first_call))
    as (He & Hcz & Hnew).
  - change (first_call = (Ok first_table, snd first_call)).
    vm_compute. reflexivity.
  - split; [exact He|]. split; [exact Hcz|].
    exact (Hnew (fill_with_fills_in_place toy_prob)
             (spec_strategies_allocate decimal_libm (1 # 100000))).
Defined.

Lemma result_maps_are_smoothed_fine_maps_witness :
  exists tv e cz fe fcz v,
    deref (heap (snd filled_call)) (fresh_table 2 3 4) = Some tv
    /\ heap (snd filled_call) !! 0%nat = Some e
    /\ heap (snd filled_call) !! 1%nat = Some cz
    /\ dict_get "ebins" tv = Some (EdgesV fe)
    /\ dict_get "czbins" tv = Some (EdgesV fcz)
    /\ smoothed_table_val
         (fun m =>
            match @subbinning toy_utils [data e; data cz] [data fe; data fcz] with
            | Some (ax :: axes) => @integer_rebin_value toy_utils m (ax :: axes)
            | _ => @smoothed_value toy_utils m (data fe) (data fcz)
                     (data e) (data cz)
            end)
         tv [("ebins", EdgesV e); ("czbins", EdgesV cz)]
       = Ok v
    /\ deref (heap (snd first_call)) first_table = Some v.
Proof.
  assert (exists tv, deref (heap (snd filled_call)) (fresh_table 2 3 4) = Some tv)
    as [tv Htv] by (vm_compute; eexists; reflexivity).
  assert (filled_call = (Ok (fresh_table 2 3 4), snd filled_call)) as Hfilled
    by (vm_compute; reflexivity).
  assert (first_call = (Ok first_table, snd first_call)) as Hfirst
    by (vm_compute; reflexivity).
  destruct (@result_maps_are_smoothed_fine_maps decimal_libm toy_utils
              ToyOscillationService sample_service default_kwargs built_world
              (fresh_table 2 3 4) (snd filled_call) tv first_table
              (snd first_call)
              (spec_strategies_allocate decimal_libm (1 # 100000))
              (spec_strategies_compute decimal_libm (1 # 100000))
              Hfilled Htv Hfirst)
    as (e & cz & fe & fcz & v & Ee & Ecz & K1 & K2 & Hv & Hd).
  exists tv, e, cz, fe, fcz, v.
  split; [exact Htv|]. split; [exact Ee|]. split; [exact Ecz|].
  split; [exact K1|]. split; [exact K2|]. split; [exact Hv|exact Hd].
Defined.

Lemma hook_without_ebins_key_fails_witness :
  @OscillationServiceBase.get_osc_prob_maps decimal_libm toy_utils
    DroppingOscillationService dropping_service default_kwargs built_world
  = (Raise (KeyError "ebins"),
     {| heap := heap (snd dropped_call);
        logs := logs (snd dropped_call) ++ [(INFO, "Smoothing fine maps...")] |}).
Proof.
  apply (@hook_without_ebins_key_fails decimal_libm toy_utils
           DroppingOscillationService dropping_service default_kwargs
           built_world (dict_pop "ebins" (fresh_table 2 3 4)) (snd dropped_call)
           (np_array sample_ebins) (np_array sample_czbins)).
  - change (dropped_call
            = (Ok (dict_pop "ebins" (fresh_table 2 3 4)), snd dropped_call)).
    vm_compute. reflexivity.
  - vm_compute. reflexivity.
  - vm_compute. reflexivity.
  - reflexivity.
Defined.


Lemma make_pretty_warns_iff_unknown_witness :
  fst (make_pretty "nutau_norm" empty_world) = Ok "nutau_norm".
Proof.
  apply (make_pretty_warns_iff_unknown "nutau_norm" empty_world).
  reflexivity.
Defined.

Lemma make_pretty_separates_known_labels_witness :
  fst (make_pretty "theta13" empty_world) <> fst (make_pretty "theta23" built_world).
Proof.
  apply (make_pretty_separates_known_labels "theta13" "theta23" empty_world
           built_world); [reflexivity|reflexivity|discriminate].
Defined.

Lemma get_num_rows_omit_metric_witness :
  4 * get_num_rows sample_fit true = Z.of_nat (length (keys sample_fit)) - 4.
Proof.
  apply (get_num_rows_omit_metric sample_fit); reflexivity.
Defined.

Lemma extract_fit_selects_witness :
  exists out,
    extract_fit sample_from_file "fit.json"
      (Some (KeyList ["params"; "metric_val"])) empty_world
    = (Ok out, empty_world)
    /\ keys out
       = List.filter (fun k => existsb (String.eqb k) ["params"; "metric_val"])
           (keys sample_fit)
    /\ forall k, dict_get k out
                 = if existsb (String.eqb k) ["params"; "metric_val"]
                   then dict_get k sample_fit else None.
Proof.
  exact (extract_fit_selects sample_from_file "fit.json"
           (KeyList ["params"; "metric_val"]) sample_fit empty_world empty_world
           eq_refl sample_fit_is_a_dict).
Defined.

Lemma extract_fit_string_key_witness :
  extract_fit sample_from_file "fit.json" (Some (KeyString "metric_val"))
    empty_world
  = (Ok match dict_get "metric_val" sample_fit with
        | Some v => [("metric_val", v)]
        | None => []
        end, empty_world)
  /\ extract_fit sample_from_file "fit.json" (Some (KeyString "metric_val"))
       empty_world
     = extract_fit sample_from_file "fit.json" (Some (KeyList ["metric_val"]))
         empty_world.
Proof.
  exact (extract_fit_string_key sample_from_file "fit.json" "metric_val"
           sample_fit empty_world empty_world eq_refl sample_fit_is_a_dict).
Defined.
